(** * Flowchart task graphs: IR, validator and plan generator

    A shallow embedding of [apps/backend/flowchart/ir.py],
    [apps/backend/flowchart/validator.py] and
    [apps/backend/flowchart/generator.py], followed by the properties of
    the topological sort, the level computation, the validator and the
    plan generator.

    Conventions of the embedding.
    - Python [str] is [string]; comparison of ids is the lexicographic
      order on character codes ([String.leb]), case folding and white
      space are the ASCII ones.
    - Python [dict] is a [gmap]; a subscript [d[k]] is a lookup whose
      [None] stands for [KeyError].
    - A computation that may raise, or whose loop is bounded by fuel in
      the embedding, returns an [option]; the totality theorems show that
      [None] is never produced.
    - [in_degree] counters are unbounded integers ([Z]); levels and phase
      numbers never go below zero and are [nat]. *)

From Stdlib Require Import ZArith Ascii.
From stdpp Require Import gmap strings list sorting pretty.

Local Open Scope Z_scope.
Local Open Scope nat_scope.

#[local] Set Warnings "-clear-no-such-hyp".

(** ** ir.py: data model *)

Inductive NodeType := START | END | PROCESS | DECISION | HUMAN_REVIEW.

#[global] Instance NodeType_eq_dec : EqDecision NodeType.
Proof. solve_decision. Defined.

Record TaskNode := mkTaskNode {
  node_id : string;
  node_name : string;
  node_type : NodeType;
  node_model : string;
  node_system_prompt : option string;
  node_inputs : list string;
  node_outputs : list string;
  node_metadata : gmap string string;
}.

Record TaskEdge := mkTaskEdge {
  source_id : string;
  target_id : string;
  condition : option string;
  label : option string;
}.

Record TaskGraph := mkTaskGraph {
  nodes : list TaskNode;
  edges : list TaskEdge;
  graph_metadata : gmap string string;
}.

Definition is_start (n : TaskNode) : bool := bool_decide (node_type n = START).
Definition is_end (n : TaskNode) : bool := bool_decide (node_type n = END).
Definition is_decision (n : TaskNode) : bool :=
  bool_decide (node_type n = DECISION).
Definition is_human (n : TaskNode) : bool :=
  bool_decide (node_model n = "human") || bool_decide (node_type n = HUMAN_REVIEW).

(** [_rebuild_indexes]: [{node.id: node for node in self.nodes}]; a later
    node with the same id overwrites an earlier one. *)
Definition node_map (g : TaskGraph) : gmap string TaskNode :=
  foldl (λ m n, <[node_id n := n]> m) ∅ (nodes g).

Definition add_node (n : TaskNode) (g : TaskGraph) : TaskGraph :=
  mkTaskGraph (nodes g ++ [n]) (edges g) (graph_metadata g).

Definition add_edge (e : TaskEdge) (g : TaskGraph) : TaskGraph :=
  mkTaskGraph (nodes g) (edges g ++ [e]) (graph_metadata g).

Definition get_node (g : TaskGraph) (i : string) : option TaskNode :=
  node_map g !! i.

Definition get_start_node (g : TaskGraph) : option TaskNode :=
  head (filter (λ n, node_type n = START) (nodes g)).

Definition get_end_nodes (g : TaskGraph) : list TaskNode :=
  filter (λ n, node_type n = END) (nodes g).

Definition get_outgoing_edges (g : TaskGraph) (i : string) : list TaskEdge :=
  filter (λ e, source_id e = i) (edges g).

Definition get_incoming_edges (g : TaskGraph) (i : string) : list TaskEdge :=
  filter (λ e, target_id e = i) (edges g).

(** [[self._node_map[sid] for sid in ids if sid in self._node_map]] with
    the subscript kept partial: [None] is a [KeyError]. *)
Definition lookup_present (m : gmap string TaskNode) (ids : list string)
  : option (list TaskNode) :=
  mapM (λ sid, m !! sid) (filter (λ sid, sid ∈ dom m) ids).

Definition get_successors_exn (g : TaskGraph) (i : string)
  : option (list TaskNode) :=
  let successor_ids := target_id <$> get_outgoing_edges g i in
  lookup_present (node_map g) successor_ids.

Definition get_predecessors_exn (g : TaskGraph) (i : string)
  : option (list TaskNode) :=
  let predecessor_ids := source_id <$> get_incoming_edges g i in
  lookup_present (node_map g) predecessor_ids.

(** The same comprehensions with guard and subscript fused; this is the
    form the rest of the development uses ([get_successors_exn_total]
    below shows that the two agree and that no [KeyError] is possible). *)
Definition get_successors (g : TaskGraph) (i : string) : list TaskNode :=
  omap (λ sid, node_map g !! sid) (target_id <$> get_outgoing_edges g i).

Definition get_predecessors (g : TaskGraph) (i : string) : list TaskNode :=
  omap (λ pid, node_map g !! pid) (source_id <$> get_incoming_edges g i).

Definition get_dependencies (g : TaskGraph) (i : string) : list string :=
  source_id <$> get_incoming_edges g i.

(** ** ir.py: [topological_sort] *)

(** [list.sort(key=lambda n: n.id)]: a stable sort on the ids. *)
Fixpoint insert_by_id (n : TaskNode) (l : list TaskNode) : list TaskNode :=
  match l with
  | [] => [n]
  | m :: l' =>
      if String.leb (node_id n) (node_id m) then n :: m :: l'
      else m :: insert_by_id n l'
  end.

Definition sort_by_id (l : list TaskNode) : list TaskNode :=
  foldr insert_by_id [] l.

(** The outcome of [topological_sort]: the order, or the [ValueError]
    whose message is
    [f"Graph contains a cycle involving nodes: {remaining}"]. *)
Inductive sort_outcome :=
  | Ordered (result : list TaskNode)
  | CycleDetected (remaining : list string).

(** [in_degree = {node.id: 0 for node in self.nodes}] followed by the
    loop over the edges. *)
Definition zero_degrees (ns : list TaskNode) : gmap string Z :=
  foldl (λ d n, <[node_id n := 0%Z]> d) ∅ ns.

Definition count_edge (d : gmap string Z) (e : TaskEdge) : gmap string Z :=
  match d !! target_id e with
  | Some k => <[target_id e := (k + 1)%Z]> d
  | None => d
  end.

Definition initial_in_degree (g : TaskGraph) : gmap string Z :=
  foldl count_edge (zero_degrees (nodes g)) (edges g).

(** [[node for node in self.nodes if in_degree[node.id] == 0]]. *)
Fixpoint ready_nodes (d : gmap string Z) (ns : list TaskNode)
  : option (list TaskNode) :=
  match ns with
  | [] => Some []
  | n :: ns' =>
      k ← d !! node_id n;
      rest ← ready_nodes d ns';
      Some (if decide (k = 0%Z) then n :: rest else rest)
  end.

(** One turn of the inner [for successor in ...] loop. *)
Definition release (st : gmap string Z * list TaskNode) (s : TaskNode)
  : option (gmap string Z * list TaskNode) :=
  let '(d, queue) := st in
  k ← d !! node_id s;
  let k' := (k - 1)%Z in
  let d' := <[node_id s := k']> d in
  Some (d', if decide (k' = 0%Z) then queue ++ [s] else queue).

Fixpoint release_all (st : gmap string Z * list TaskNode)
    (succs : list TaskNode) : option (gmap string Z * list TaskNode) :=
  match succs with
  | [] => Some st
  | s :: succs' => st' ← release st s; release_all st' succs'
  end.

(** The [while queue:] loop; [fuel] bounds the number of turns. *)
Fixpoint kahn_loop (fuel : nat) (g : TaskGraph) (d : gmap string Z)
    (queue result : list TaskNode) : option (list TaskNode) :=
  match fuel with
  | O => None
  | S fuel' =>
      match sort_by_id queue with
      | [] => Some result
      | node :: queue' =>
          let result' := result ++ [node] in
          '(d', queue'') ← release_all (d, queue') (get_successors g (node_id node));
          kahn_loop fuel' g d' queue'' result'
      end
  end.

Definition remaining_ids (g : TaskGraph) (result : list TaskNode)
  : list string :=
  let placed : gset string := list_to_set (node_id <$> result) in
  node_id <$> filter (λ n, node_id n ∉ placed) (nodes g).

Definition topological_sort (g : TaskGraph) : option sort_outcome :=
  let in_degree := initial_in_degree g in
  queue ← ready_nodes in_degree (nodes g);
  result ← kahn_loop (S (length (nodes g) + length (nodes g))) g in_degree queue [];
  if decide (length result ≠ length (nodes g))
  then Some (CycleDetected (remaining_ids g result))
  else Some (Ordered result).

(** ** ir.py: [get_parallel_groups] *)

(** [max(calculate_level(pred.id, visited.copy()) for pred in predecessors)]
    on a non-empty list: the generator is consumed from left to right and
    every call sees the [levels] left by the calls before it. *)
Fixpoint max_levels_from (rec : gmap string nat → string → option (nat * gmap string nat))
    (best : nat) (levels : gmap string nat) (preds : list TaskNode)
  : option (nat * gmap string nat) :=
  match preds with
  | [] => Some (best, levels)
  | p :: preds' =>
      '(l, levels') ← rec levels (node_id p);
      max_levels_from rec (Nat.max best l) levels' preds'
  end.

Definition max_levels (rec : gmap string nat → string → option (nat * gmap string nat))
    (levels : gmap string nat) (p : TaskNode) (preds : list TaskNode)
  : option (nat * gmap string nat) :=
  '(l, levels') ← rec levels (node_id p);
  max_levels_from rec l levels' preds.

(** The nested [calculate_level]; [levels] is the enclosing dictionary,
    threaded explicitly, [visited] the set of the current branch. *)
Fixpoint calculate_level (fuel : nat) (g : TaskGraph) (visited : gset string)
    (levels : gmap string nat) (i : string) : option (nat * gmap string nat) :=
  match fuel with
  | O => None
  | S fuel' =>
      match levels !! i with
      | Some l => Some (l, levels)
      | None =>
          if decide (i ∈ visited) then Some (0, levels)
          else
            let visited' := {[i]} ∪ visited in
            match get_predecessors g i with
            | [] => Some (0, <[i := 0]> levels)
            | p :: preds =>
                '(max_pred_level, levels') ←
                  max_levels (calculate_level fuel' g visited') levels p preds;
                Some (max_pred_level + 1, <[i := max_pred_level + 1]> levels')
            end
      end
  end.

Definition level_fuel (g : TaskGraph) : nat := S (length (nodes g)).

(** [for node in self.nodes: calculate_level(node.id)]. *)
Fixpoint calculate_levels (g : TaskGraph) (levels : gmap string nat)
    (ns : list TaskNode) : option (gmap string nat) :=
  match ns with
  | [] => Some levels
  | n :: ns' =>
      '(_, levels') ← calculate_level (level_fuel g) g ∅ levels (node_id n);
      calculate_levels g levels' ns'
  end.

Definition node_levels (g : TaskGraph) : option (gmap string nat) :=
  calculate_levels g ∅ (nodes g).

Definition group_by_level (levels : gmap string nat) (ns : list TaskNode)
  : gmap nat (list TaskNode) :=
  foldl (λ level_groups n,
           let level := default 0 (levels !! node_id n) in
           <[level := default [] (level_groups !! level) ++ [n]]> level_groups)
        ∅ ns.

Definition sorted_keys (level_groups : gmap nat (list TaskNode)) : list nat :=
  merge_sort Nat.le (elements (dom level_groups)).

Definition get_parallel_groups (g : TaskGraph) : option (list (list TaskNode)) :=
  levels ← node_levels g;
  let level_groups := group_by_level levels (nodes g) in
  mapM (λ level, level_groups !! level) (sorted_keys level_groups).

(** ** ir.py: [get_decision_branches] *)

(** Truth value of an optional string: [None] and [""] are false. *)
Definition truthy (o : option string) : option string :=
  match o with
  | Some s => if decide (s = "") then None else Some s
  | None => None
  end.

(** [edge.condition or edge.label or "default"]. *)
Definition branch_key (e : TaskEdge) : string :=
  match truthy (condition e) with
  | Some c => c
  | None => default "default" (truthy (label e))
  end.

(** One turn of the [for edge in outgoing:] loop. *)
Definition add_branch (g : TaskGraph) (branches : gmap string (list TaskNode))
    (e : TaskEdge) : gmap string (list TaskNode) :=
  match get_node g (target_id e) with
  | Some target =>
      <[branch_key e := default [] (branches !! branch_key e) ++ [target]]> branches
  | None => branches
  end.

Definition get_decision_branches (g : TaskGraph) (decision_node_id : string)
  : gmap string (list TaskNode) :=
  foldl (add_branch g) ∅ (get_outgoing_edges g decision_node_id).

(** ** Strings: the Python operations the validator and generator use *)

Module Py.

(** [sep.join(parts)]. *)
Definition join (sep : string) (parts : list string) : string :=
  String.concat sep parts.

(** [str(n)] for a non-negative integer. *)
Definition str_of_nat (n : nat) : string := pretty n.

(** [c.isspace()] on the ASCII range. *)
Definition isspace (c : ascii) : bool :=
  let k := Ascii.nat_of_ascii c in
  ((9 <=? k) && (k <=? 13)) || ((28 <=? k) && (k <=? 32)).

Definition isdigit_char (c : ascii) : bool :=
  let k := Ascii.nat_of_ascii c in (48 <=? k) && (k <=? 57).

Definition isupper_char (c : ascii) : bool :=
  let k := Ascii.nat_of_ascii c in (65 <=? k) && (k <=? 90).

Definition islower_char (c : ascii) : bool :=
  let k := Ascii.nat_of_ascii c in (97 <=? k) && (k <=? 122).

Definition isalpha_char (c : ascii) : bool := isupper_char c || islower_char c.

Definition lower_char (c : ascii) : ascii :=
  if isupper_char c then Ascii.ascii_of_nat (Ascii.nat_of_ascii c + 32) else c.

Definition upper_char (c : ascii) : ascii :=
  if islower_char c then Ascii.ascii_of_nat (Ascii.nat_of_ascii c - 32) else c.

Fixpoint all_chars (p : ascii → bool) (s : string) : bool :=
  match s with
  | EmptyString => true
  | String c s' => p c && all_chars p s'
  end.

Fixpoint map_chars (f : ascii → ascii) (s : string) : string :=
  match s with
  | EmptyString => EmptyString
  | String c s' => String (f c) (map_chars f s')
  end.

(** [s.strip() == ""]. *)
Definition strip_is_empty (s : string) : bool := all_chars isspace s.

(** [s.isdigit()]: false on the empty string. *)
Definition isdigit (s : string) : bool :=
  match s with
  | EmptyString => false
  | _ => all_chars isdigit_char s
  end.

(** [s.lower()]. *)
Definition lower (s : string) : string := map_chars lower_char s.

(** [s.startswith(p)]. *)
Definition startswith (p s : string) : bool := String.prefix p s.

(** [s[k:]]. *)
Fixpoint drop (k : nat) (s : string) : string :=
  match k, s with
  | O, _ => s
  | S k', String _ s' => drop k' s'
  | S _, EmptyString => EmptyString
  end.

(** [kw in s]. *)
Fixpoint contains (kw s : string) : bool :=
  String.prefix kw s ||
  match s with
  | EmptyString => false
  | String _ s' => contains kw s'
  end.

(** [any(kw in s for kw in kws)]. *)
Definition contains_any (kws : list string) (s : string) : bool :=
  existsb (λ kw, contains kw s) kws.

(** [s.title()]: the first letter of every run of letters in upper case,
    the others in lower case. *)
Fixpoint title_from (in_word : bool) (s : string) : string :=
  match s with
  | EmptyString => EmptyString
  | String c s' =>
      if isalpha_char c
      then String (if in_word then lower_char c else upper_char c)
                  (title_from true s')
      else String c (title_from false s')
  end.

Definition title (s : string) : string := title_from false s.

End Py.

(** ** validator.py: [ValidationResult] *)

Inductive Severity := SevError | SevWarning.

Record ValidationError := mkValidationError {
  code : string;
  message : string;
  error_node_id : option string;
  severity : Severity;
}.

Record ValidationResult := mkValidationResult {
  valid : bool;
  errors : list ValidationError;
  warnings : list ValidationError;
}.

(** [ValidationResult()]. *)
Definition new_result : ValidationResult := mkValidationResult true [] [].

Definition add_error (c m : string) (i : option string) (r : ValidationResult)
  : ValidationResult :=
  mkValidationResult false
    (errors r ++ [mkValidationError c m i SevError]) (warnings r).

Definition add_warning (c m : string) (i : option string) (r : ValidationResult)
  : ValidationResult :=
  mkValidationResult (valid r) (errors r)
    (warnings r ++ [mkValidationError c m i SevWarning]).

(** ** validator.py: the monad of the checks

    A check receives references to the graph and to the result under
    construction; both objects live in the store.  [None] is an uncaught
    exception (or exhausted fuel). *)

Record Store := mkStore {
  st_graph : TaskGraph;
  st_result : ValidationResult;
}.

Definition M (A : Type) : Type := Store → option (A * Store).

#[global] Instance M_ret : MRet M := λ A (a : A) s, Some (a, s).
#[global] Instance M_bind : MBind M := λ A B (f : A → M B) (m : M A) s,
  match m s with
  | Some (a, s') => f a s'
  | None => None
  end.

(** Reading the graph object. *)
Definition read_graph : M TaskGraph := λ s, Some (st_graph s, s).

(** The read-only uses of the result ([result.valid]). *)
Definition read_result : M ValidationResult := λ s, Some (st_result s, s).

Definition result_add_error (c m : string) (i : option string) : M unit :=
  λ s, Some ((), mkStore (st_graph s) (add_error c m i (st_result s))).

Definition result_add_warning (c m : string) (i : option string) : M unit :=
  λ s, Some ((), mkStore (st_graph s) (add_warning c m i (st_result s))).

(** An exception or fuel-bounded pure computation inside a check. *)
Definition lift_option {A} (o : option A) : M A :=
  λ s, match o with Some a => Some (a, s) | None => None end.

(** [for x in xs: body(x)]. *)
Fixpoint for_each {A} (body : A → M unit) (xs : list A) : M unit :=
  match xs with
  | [] => mret ()
  | x :: xs' => body x ;; for_each body xs'
  end.

(** ** validator.py: [FlowchartValidator] *)

Definition _check_empty_graph : M unit :=
  graph ← read_graph;
  match nodes graph with
  | [] => result_add_error "EMPTY_GRAPH" "The flowchart contains no nodes" None
  | _ :: _ => mret ()
  end.

Definition quoted_name_and_id (n : TaskNode) : string :=
  "'" +:+ node_name n +:+ "' (" +:+ node_id n +:+ ")".

Definition _check_start_nodes : M unit :=
  graph ← read_graph;
  let start_nodes := filter (λ n, node_type n = START) (nodes graph) in
  match start_nodes with
  | [] =>
      let nodes_with_incoming : gset string :=
        list_to_set (target_id <$> edges graph) in
      let potential_starts :=
        filter (λ n, node_id n ∉ nodes_with_incoming) (nodes graph) in
      match potential_starts with
      | p :: _ =>
          result_add_warning "NO_EXPLICIT_START"
            ("No explicit start node found. " +:+
             "Node '" +:+ node_name p +:+ "' has no incoming edges and " +:+
             "will be used as the start node.")
            (Some (node_id p))
      | [] =>
          result_add_error "NO_START_NODE"
            "The flowchart must have a start node" None
      end
  | [_] => mret ()
  | _ :: _ :: _ =>
      let node_names := Py.join ", " (quoted_name_and_id <$> start_nodes) in
      result_add_error "MULTIPLE_START_NODES"
        ("The flowchart has multiple start nodes: " +:+ node_names +:+
         ". Only one is allowed.") None
  end.

Definition _check_end_nodes : M unit :=
  graph ← read_graph;
  let end_nodes := filter (λ n, node_type n = END) (nodes graph) in
  match end_nodes with
  | [] =>
      let nodes_with_outgoing : gset string :=
        list_to_set (source_id <$> edges graph) in
      let potential_ends :=
        filter (λ n, node_id n ∉ nodes_with_outgoing) (nodes graph) in
      let potential_ends :=
        filter (λ n, node_type n ≠ START) potential_ends in
      match potential_ends with
      | p :: _ =>
          result_add_warning "NO_EXPLICIT_END"
            ("No explicit end node found. " +:+
             "Node '" +:+ node_name p +:+ "' has no outgoing edges and " +:+
             "will be used as an end node.")
            (Some (node_id p))
      | [] =>
          result_add_error "NO_END_NODE"
            "The flowchart must have at least one end node" None
      end
  | _ :: _ => mret ()
  end.

Definition _check_edge_references : M unit :=
  graph ← read_graph;
  let node_ids : gset string := list_to_set (node_id <$> nodes graph) in
  for_each (λ edge,
    (if decide (source_id edge ∉ node_ids)
     then result_add_error "INVALID_EDGE_SOURCE"
            ("Edge references non-existent source node: " +:+ source_id edge)
            None
     else mret ()) ;;
    (if decide (target_id edge ∉ node_ids)
     then result_add_error "INVALID_EDGE_TARGET"
            ("Edge references non-existent target node: " +:+ target_id edge)
            None
     else mret ()))
    (edges graph).

Definition _check_decision_nodes : M unit :=
  graph ← read_graph;
  for_each (λ node,
    if decide (node_type node ≠ DECISION) then mret ()
    else
      let outgoing := get_outgoing_edges graph (node_id node) in
      if decide (length outgoing < 2) then
        result_add_error "DECISION_INSUFFICIENT_BRANCHES"
          ("Decision node " +:+ quoted_name_and_id node +:+
           " must have at least " +:+
           "2 outgoing edges, but has " +:+ Py.str_of_nat (length outgoing))
          (Some (node_id node))
      else if decide (length outgoing = 2) then
        let conditions := omap (λ e, truthy (condition e)) outgoing in
        match conditions with
        | [] =>
            result_add_warning "DECISION_NO_CONDITIONS"
              ("Decision node " +:+ quoted_name_and_id node +:+ " has no " +:+
               "conditions on its edges. Consider adding labels like " +:+
               "'Yes'/'No' or 'Validated'/'Rejected'.")
              (Some (node_id node))
        | _ :: _ => mret ()
        end
      else mret ())
    (nodes graph).

Definition _check_orphan_nodes : M unit :=
  graph ← read_graph;
  let nodes_with_edges : gset string :=
    foldl (λ acc edge, {[target_id edge]} ∪ ({[source_id edge]} ∪ acc))
          ∅ (edges graph) in
  for_each (λ node,
    if decide (node_id node ∉ nodes_with_edges) then
      match node_type node with
      | START =>
          match get_outgoing_edges graph (node_id node) with
          | [] =>
              result_add_error "START_NO_OUTGOING"
                ("Start node " +:+ quoted_name_and_id node +:+ " has no " +:+
                 "outgoing edges")
                (Some (node_id node))
          | _ :: _ => mret ()
          end
      | END =>
          match get_incoming_edges graph (node_id node) with
          | [] =>
              result_add_error "END_NO_INCOMING"
                ("End node " +:+ quoted_name_and_id node +:+ " has no " +:+
                 "incoming edges")
                (Some (node_id node))
          | _ :: _ => mret ()
          end
      | _ =>
          result_add_error "ORPHAN_NODE"
            ("Node " +:+ quoted_name_and_id node +:+ " is not connected to " +:+
             "any other node")
            (Some (node_id node))
      end
    else mret ())
    (nodes graph).

(** The [while queue:] loop of [_check_connectivity]. *)
Fixpoint bfs (fuel : nat) (g : TaskGraph) (visited : gset string)
    (queue : list string) : option (gset string) :=
  match fuel with
  | O => None
  | S fuel' =>
      match queue with
      | [] => Some visited
      | current :: queue' =>
          if decide (current ∈ visited) then bfs fuel' g visited queue'
          else
            let visited' := {[current]} ∪ visited in
            let queue'' :=
              foldl (λ q successor,
                       if decide (node_id successor ∉ visited')
                       then q ++ [node_id successor] else q)
                    queue' (get_successors g current) in
            bfs fuel' g visited' queue''
      end
  end.

Definition bfs_fuel (g : TaskGraph) : nat := S (S (length (edges g))).

Definition _check_connectivity : M unit :=
  graph ← read_graph;
  match get_start_node graph with
  | None => mret ()
  | Some start_node =>
      visited ← lift_option (bfs (bfs_fuel graph) graph ∅ [node_id start_node]);
      let unreachable := filter (λ n, node_id n ∉ visited) (nodes graph) in
      match unreachable with
      | [] => mret ()
      | _ :: _ =>
          let names :=
            Py.join ", " ((λ n, "'" +:+ node_name n +:+ "'") <$> take 3 unreachable) in
          let names :=
            if decide (3 < length unreachable)
            then names +:+ " and " +:+ Py.str_of_nat (length unreachable - 3) +:+ " more"
            else names in
          result_add_warning "UNREACHABLE_NODES"
            ("Some nodes are not reachable from the start node: " +:+ names)
            None
      end
  end.

(** *** [_check_cycles] *)

Inductive Color := WHITE | GRAY | BLACK.

#[global] Instance Color_eq_dec : EqDecision Color.
Proof. solve_decision. Defined.

(** The local dictionaries of [_check_cycles]. *)
Record DfsState := mkDfsState {
  colors : gmap string Color;
  parent : gmap string (option string);
}.

Definition initial_dfs_state (g : TaskGraph) : DfsState :=
  mkDfsState (foldl (λ m n, <[node_id n := WHITE]> m) ∅ (nodes g))
             (foldl (λ m n, <[node_id n := None]> m) ∅ (nodes g)).

(** [parent.get(current, "")]. *)
Definition parent_get (p : gmap string (option string)) (current : string)
  : option string :=
  match p !! current with
  | Some o => o
  | None => Some ""
  end.

(** The [while current != successor.id:] loop that walks the parent
    links; the result is [cycle] as the loop leaves it. *)
Fixpoint walk_parents (fuel : nat) (p : gmap string (option string))
    (stop current : string) (cycle : list string) : option (list string) :=
  match fuel with
  | O => None
  | S fuel' =>
      if decide (current = stop) then Some cycle
      else
        let cycle' := cycle ++ [current] in
        match truthy (parent_get p current) with
        | None => Some cycle'
        | Some current' => walk_parents fuel' p stop current' cycle'
        end
  end.

Definition reconstruct_cycle (fuel : nat) (p : gmap string (option string))
    (i successor_id : string) : option (list string) :=
  cycle ← walk_parents fuel p successor_id i [successor_id];
  Some (reverse (cycle ++ [successor_id])).

(** The [for successor in graph.get_successors(node_id):] loop of [dfs],
    with [rec] the recursive call. *)
Fixpoint dfs_successors (walk_fuel : nat)
    (rec : DfsState → string → option (option (list string) * DfsState))
    (i : string) (st : DfsState) (succs : list TaskNode)
  : option (option (list string) * DfsState) :=
  match succs with
  | [] => Some (None, mkDfsState (<[i := BLACK]> (colors st)) (parent st))
  | successor :: succs' =>
      c ← colors st !! node_id successor;
      match c with
      | GRAY =>
          cycle ← reconstruct_cycle walk_fuel (parent st) i (node_id successor);
          Some (Some cycle, st)
      | WHITE =>
          let st1 :=
            mkDfsState (colors st) (<[node_id successor := Some i]> (parent st)) in
          '(found, st2) ← rec st1 (node_id successor);
          match found with
          | Some (c0 :: cycle) => Some (Some (c0 :: cycle), st2)
          | _ => dfs_successors walk_fuel rec i st2 succs'
          end
      | BLACK => dfs_successors walk_fuel rec i st succs'
      end
  end.

Fixpoint dfs (fuel : nat) (g : TaskGraph) (st : DfsState) (i : string)
  : option (option (list string) * DfsState) :=
  match fuel with
  | O => None
  | S fuel' =>
      let st1 := mkDfsState (<[i := GRAY]> (colors st)) (parent st) in
      dfs_successors (S (length (nodes g))) (dfs fuel' g) i st1 (get_successors g i)
  end.

Definition dfs_fuel (g : TaskGraph) : nat := S (length (nodes g)).

(** [any(n and n.node_type == NodeType.DECISION for n in cycle_nodes)]. *)
Definition cycle_has_decision (g : TaskGraph) (cycle : list string) : bool :=
  existsb (λ o, match o with
                | Some n => bool_decide (node_type n = DECISION)
                | None => false
                end)
          (get_node g <$> cycle).

Definition report_cycle (g : TaskGraph) (cycle : list string) : M unit :=
  if cycle_has_decision g cycle then
    result_add_warning "DECISION_LOOP"
      ("Found a loop through decision node. This is valid " +:+
       "for retry/review workflows. Cycle: " +:+ Py.join " -> " cycle)
      None
  else
    result_add_error "INVALID_CYCLE"
      ("Found a cycle that doesn't go through a decision " +:+
       "node: " +:+ Py.join " -> " cycle +:+ ". Cycles are only " +:+
       "allowed for decision-based loops.")
      None.

(** The outer [for node in graph.nodes:] loop, with the dictionaries as
    its loop state. *)
Fixpoint check_cycles_loop (g : TaskGraph) (st : DfsState)
    (ns : list TaskNode) : M unit :=
  match ns with
  | [] => mret ()
  | node :: ns' =>
      c ← lift_option (colors st !! node_id node);
      if decide (c = WHITE) then
        '(found, st') ← lift_option (dfs (dfs_fuel g) g st (node_id node));
        match found with
        | Some (c0 :: cycle) => report_cycle g (c0 :: cycle)
        | _ => mret ()
        end ;;
        check_cycles_loop g st' ns'
      else check_cycles_loop g st ns'
  end.

Definition _check_cycles : M unit :=
  graph ← read_graph;
  check_cycles_loop graph (initial_dfs_state graph) (nodes graph).

(** *** [_check_node_names] *)

Definition _check_node_names : M unit :=
  graph ← read_graph;
  for_each (λ node,
    match node_type node with
    | START | END => mret ()
    | _ =>
        if Py.strip_is_empty (node_name node) then
          result_add_warning "EMPTY_NODE_NAME"
            ("Node " +:+ node_id node +:+
             " has no name. Consider adding a description.")
            (Some (node_id node))
        else if Py.startswith "Task " (node_name node)
                && Py.isdigit (Py.drop 5 (node_name node)) then
          result_add_warning "GENERIC_NODE_NAME"
            ("Node " +:+ quoted_name_and_id node +:+ " has a generic name. " +:+
             "Consider adding a more descriptive label.")
            (Some (node_id node))
        else mret ()
    end)
    (nodes graph).

(** *** [validate] *)

Definition run_checks : M ValidationResult :=
  _check_empty_graph ;;
  result ← read_result;
  if negb (valid result) then mret result
  else
    _check_start_nodes ;;
    _check_end_nodes ;;
    _check_edge_references ;;
    _check_decision_nodes ;;
    _check_orphan_nodes ;;
    _check_connectivity ;;
    _check_cycles ;;
    _check_node_names ;;
    read_result.

(** [validate(graph)]: the result, and the graph object as the call
    leaves it. *)
Definition validate (graph : TaskGraph) : option (ValidationResult * TaskGraph) :=
  match run_checks (mkStore graph new_result) with
  | Some (result, s) => Some (result, st_graph s)
  | None => None
  end.

(** ** generator.py: [PlanGenerator] *)

Inductive Verification :=
  | VerifyCommand (run expected : string)
  | VerifyApi (method url : string) (expect_status : nat)
  | VerifyComponent (scenario : string)
  | VerifyManual (scenario : string).

(** The value of the ["type"] key of a verification dictionary. *)
Definition verification_type (v : Verification) : string :=
  match v with
  | VerifyCommand _ _ => "command"
  | VerifyApi _ _ _ => "api"
  | VerifyComponent _ => "component"
  | VerifyManual _ => "manual"
  end.

(** Dictionaries with optional keys are records with optional fields:
    [None] is an absent key. *)
Record Subtask := mkSubtask {
  subtask_id : string;
  description : string;
  subtask_status : string;
  patterns_from : option (list string);
  files_to_create : option (list string);
  verification : option Verification;
  service : option string;
}.

Record Phase := mkPhase {
  phase : nat;
  phase_name : string;
  phase_type : string;
  subtasks : list Subtask;
  chunks : list Subtask;
  depends_on : option (list nat);
  parallel_safe : option bool;
}.

Record Plan := mkPlan {
  feature : string;
  workflow_type : string;
  services_involved : list string;
  phases : list Phase;
  final_acceptance : list string;
  created_at : string;
  updated_at : string;
  plan_status : string;
  planStatus : string;
}.

Definition is_process_node (n : TaskNode) : Prop :=
  node_type n ≠ START ∧ node_type n ≠ END.

#[global] Instance is_process_node_dec n : Decision (is_process_node n).
Proof. unfold is_process_node. apply _. Defined.

Definition _get_phase_dependencies (ns : list TaskNode) (g : TaskGraph)
    (phase_map : gmap string nat) : list nat :=
  let depends_on : gset nat :=
    foldl (λ acc node,
      foldl (λ acc predecessor,
               if decide (node_type predecessor = START) then acc
               else
                 match phase_map !! node_id predecessor with
                 | Some pred_phase =>
                     if decide (Some pred_phase ≠ phase_map !! node_id node)
                     then {[pred_phase]} ∪ acc else acc
                 | None => acc
                 end)
            acc (get_predecessors g (node_id node)))
      ∅ ns in
  merge_sort Nat.le (elements depends_on).

Definition investigation_keywords : list string :=
  ["analyze"; "investigate"; "research"; "review"; "assess"].
Definition setup_keywords : list string :=
  ["setup"; "configure"; "install"; "initialize"; "create"].
Definition integration_keywords : list string :=
  ["integrate"; "connect"; "wire"; "combine"; "merge"].
Definition cleanup_keywords : list string :=
  ["cleanup"; "remove"; "delete"; "deprecate"; "finalize"].

Definition any_name_contains (kws : list string) (ns : list TaskNode) : bool :=
  existsb (λ node, Py.contains_any kws (Py.lower (node_name node))) ns.

Definition _determine_phase_type (ns : list TaskNode) : string :=
  if any_name_contains investigation_keywords ns then "investigation"
  else if any_name_contains setup_keywords ns then "setup"
  else if any_name_contains integration_keywords ns then "integration"
  else if any_name_contains cleanup_keywords ns then "cleanup"
  else "implementation".

Definition _is_parallel_safe (ns : list TaskNode) (g : TaskGraph) : bool :=
  let node_ids : gset string := list_to_set (node_id <$> ns) in
  forallb (λ node,
             forallb (λ pred, bool_decide (node_id pred ∉ node_ids))
                     (get_predecessors g (node_id node)))
          ns.

(** [re.sub(r"[^a-zA-Z0-9_-]", "-", s)]. *)
Definition id_char (c : ascii) : bool :=
  Py.isalpha_char c || Py.isdigit_char c
  || bool_decide (c = "_"%char) || bool_decide (c = "-"%char).

Definition replace_special (s : string) : string :=
  Py.map_chars (λ c, if id_char c then c else "-"%char) s.

(** [re.sub(r"-+", "-", s)]. *)
Fixpoint collapse_dashes (s : string) : string :=
  match s with
  | EmptyString => EmptyString
  | String c s' =>
      match s' with
      | String c' _ =>
          if bool_decide (c = "-"%char) && bool_decide (c' = "-"%char)
          then collapse_dashes s'
          else String c (collapse_dashes s')
      | EmptyString => String c EmptyString
      end
  end.

Fixpoint lstrip_dashes (s : string) : string :=
  match s with
  | String c s' => if bool_decide (c = "-"%char) then lstrip_dashes s' else s
  | EmptyString => EmptyString
  end.

(** [s.strip("-")]. *)
Definition strip_dashes (s : string) : string :=
  String.rev (lstrip_dashes (String.rev (lstrip_dashes s))).

Definition _sanitize_id (i : string) : string :=
  Py.lower (strip_dashes (collapse_dashes (replace_special i))).

Definition _determine_verification (node : TaskNode) : option Verification :=
  let name_lower := Py.lower (node_name node) in
  if Py.contains_any ["test"; "verify"; "validate"] name_lower then
    Some (VerifyCommand "npm test" "All tests pass")
  else if Py.contains_any ["api"; "endpoint"; "route"] name_lower then
    Some (VerifyApi "GET" "/api/health" 200)
  else if Py.contains_any ["ui"; "component"; "page"; "render"] name_lower then
    Some (VerifyComponent ("Component renders: " +:+ node_name node))
  else None.

Definition _determine_service (node : TaskNode) : option string :=
  let name_lower := Py.lower (node_name node) in
  match node_metadata node !! "service" with
  | Some s => Some s
  | None =>
      if Py.contains_any ["backend"; "api"; "server"; "database"; "model"] name_lower
      then Some "backend"
      else if Py.contains_any ["frontend"; "ui"; "component"; "page"; "react"] name_lower
      then Some "frontend"
      else if Py.contains_any ["worker"; "queue"; "job"; "background"] name_lower
      then Some "worker"
      else None
  end.

(** [x if xs else absent] for a list-valued optional key. *)
Definition nonempty {A} (l : list A) : option (list A) :=
  match l with [] => None | _ :: _ => Some l end.

Definition _node_to_subtask (node : TaskNode) : Subtask :=
  let verification := _determine_verification node in
  let service := truthy (_determine_service node) in
  let verification :=
    if is_human node
    then Some (VerifyManual ("Human review required: " +:+ node_name node))
    else verification in
  mkSubtask (_sanitize_id (node_id node)) (node_name node) "pending"
            (nonempty (node_inputs node)) (nonempty (node_outputs node))
            verification service.

Definition _generate_phase_name (ns : list TaskNode) (phase_num : nat) : string :=
  match ns with
  | [n] => node_name n
  | _ =>
      let services := _determine_service <$> ns in
      let unique_services : gset string := list_to_set (omap truthy services) in
      match elements unique_services with
      | [s] => Py.title s +:+ " Implementation"
      | _ =>
          if existsb is_human ns then "Review & Validation"
          else "Phase " +:+ Py.str_of_nat phase_num
      end
  end.

Definition _collect_services (g : TaskGraph) : list string :=
  let services : gset string :=
    foldl (λ acc node,
             match truthy (_determine_service node) with
             | Some s => {[s]} ∪ acc
             | None => acc
             end)
          ∅ (nodes g) in
  merge_sort String.le (elements services).

Definition criterion_of (pred : TaskNode) : list string :=
  match node_type pred with
  | PROCESS => ["Completed: " +:+ node_name pred]
  | HUMAN_REVIEW => ["Human approved: " +:+ node_name pred]
  | _ => []
  end.

Definition _generate_acceptance_criteria (g : TaskGraph) : list string :=
  let end_nodes := get_end_nodes g in
  let criteria :=
    foldl (λ criteria end_node,
             foldl (λ criteria pred, criteria ++ criterion_of pred)
                   criteria (get_predecessors g (node_id end_node)))
          [] end_nodes in
  match criteria with
  | [] => ["All tasks completed successfully"; "No critical errors or warnings"]
  | _ :: _ => criteria
  end.

(** The state of the [for group in parallel_groups:] loop of [generate]:
    the generator's [_phase_counter], [phase_map] and [phases]. *)
Record GenState := mkGenState {
  _phase_counter : nat;
  gen_phase_map : gmap string nat;
  gen_phases : list Phase;
}.

Definition generate_phase (g : TaskGraph) (st : GenState)
    (group : list TaskNode) : GenState :=
  let process_nodes := filter is_process_node group in
  match process_nodes with
  | [] => st
  | _ :: _ =>
      let phase_num := _phase_counter st + 1 in
      let phase_map :=
        foldl (λ m node, <[node_id node := phase_num]> m)
              (gen_phase_map st) process_nodes in
      let depends_on := _get_phase_dependencies process_nodes g phase_map in
      let phase_type := _determine_phase_type process_nodes in
      let parallel_safe :=
        bool_decide (1 < length process_nodes)
        && _is_parallel_safe process_nodes g in
      let subtasks := _node_to_subtask <$> process_nodes in
      let new_phase :=
        mkPhase phase_num (_generate_phase_name process_nodes phase_num)
                phase_type subtasks subtasks
                (nonempty depends_on)
                (if parallel_safe then Some true else None) in
      mkGenState phase_num phase_map (gen_phases st ++ [new_phase])
  end.

(** [generate(graph, feature_name, workflow_type)]; [now1] and [now2] are
    the two readings of [datetime.now().isoformat()]. *)
Definition generate (g : TaskGraph) (feature_name : option string)
    (workflow_type : string) (now1 now2 : string) : option Plan :=
  let feature_name :=
    match truthy feature_name with
    | Some f => f
    | None => default "Flowchart Import" (graph_metadata g !! "name")
    end in
  parallel_groups ← get_parallel_groups g;
  let st := foldl (generate_phase g) (mkGenState 0 ∅ []) parallel_groups in
  let services := _collect_services g in
  let final_acceptance := _generate_acceptance_criteria g in
  Some (mkPlan feature_name workflow_type services (gen_phases st)
               final_acceptance now1 now2 "backlog" "pending").

(** [generate_plan(graph, feature_name)]. *)
Definition generate_plan (g : TaskGraph) (feature_name : option string)
    (now1 now2 : string) : option Plan :=
  generate g feature_name "feature" now1 now2.

(** ** Graph notions used by the statements *)

(** The ids that name a node of the graph. *)
Definition node_ids (g : TaskGraph) : gset string :=
  list_to_set (node_id <$> nodes g).

(** The data-model invariant of the IR: node ids are unique. *)
Definition unique_ids (g : TaskGraph) : Prop := NoDup (node_id <$> nodes g).

(** [u → v] is an edge of the graph between two of its nodes. *)
Definition edge_between (g : TaskGraph) (u v : string) : Prop :=
  u ∈ node_ids g ∧ v ∈ node_ids g ∧
  ∃ e, e ∈ edges g ∧ source_id e = u ∧ target_id e = v.

(** A directed cycle among the nodes: a non-empty closed walk. *)
Definition has_cycle (g : TaskGraph) : Prop := ∃ v, tc (edge_between g) v v.

Definition acyclic (g : TaskGraph) : Prop := ¬ has_cycle g.

(** [u] is placed before [v] in [l]. *)
Definition precedes (l : list TaskNode) (u v : string) : Prop :=
  ∃ i j a b, l !! i = Some a ∧ l !! j = Some b ∧
             node_id a = u ∧ node_id b = v ∧ i < j.

(** Nodes and edges with the default executor and no artifacts. *)
Definition plain_node (i name : string) (t : NodeType) : TaskNode :=
  mkTaskNode i name t "claude" None [] [] ∅.

Definition plain_edge (s t : string) : TaskEdge := mkTaskEdge s t None None.

Definition labelled_edge (s t c : string) : TaskEdge :=
  mkTaskEdge s t (Some c) None.

(** The graph without the edges whose target names no node. *)
Definition drop_dangling_targets (g : TaskGraph) : TaskGraph :=
  mkTaskGraph (nodes g)
              (filter (λ e, target_id e ∈ node_ids g) (edges g))
              (graph_metadata g).

(** ** Example graphs *)

(** The generator scenario:
    start → "Configure database" → "Write tests" → end. *)
Definition scenario_graph : TaskGraph :=
  mkTaskGraph
    [plain_node "start" "Start" START;
     plain_node "configure" "Configure database" PROCESS;
     plain_node "tests" "Write tests" PROCESS;
     plain_node "end" "End" END]
    [plain_edge "start" "configure"; plain_edge "configure" "tests";
     plain_edge "tests" "end"]
    ∅.

(** The linear chain start → A → B → end. *)
Definition chain_graph : TaskGraph :=
  mkTaskGraph
    [plain_node "start" "Start" START; plain_node "A" "Task A" PROCESS;
     plain_node "B" "Task B" PROCESS; plain_node "end" "End" END]
    [plain_edge "start" "A"; plain_edge "A" "B"; plain_edge "B" "end"]
    ∅.

(** The diamond start → A, start → B, A → end, B → end. *)
Definition diamond_graph : TaskGraph :=
  mkTaskGraph
    [plain_node "start" "Start" START; plain_node "A" "Task A" PROCESS;
     plain_node "B" "Task B" PROCESS; plain_node "end" "End" END]
    [plain_edge "start" "A"; plain_edge "start" "B";
     plain_edge "A" "end"; plain_edge "B" "end"]
    ∅.

(** One node, and one edge whose source names no node. *)
Definition dangling_source_graph : TaskGraph :=
  mkTaskGraph [plain_node "b" "Build" PROCESS] [plain_edge "x" "b"] ∅.

(** A start node, and a node whose only incoming edge is a self-loop. *)
Definition self_loop_graph : TaskGraph :=
  mkTaskGraph
    [plain_node "s" "Start" START; plain_node "a" "Retry" PROCESS]
    [plain_edge "a" "a"] ∅.

(** A decision loop D → A → D reached through X → Y, with the
    decision-free cycle X → Y → X closed by the last edge. *)
Definition hidden_cycle_graph : TaskGraph :=
  mkTaskGraph
    [plain_node "S" "Start" START; plain_node "X" "Do X" PROCESS;
     plain_node "Y" "Do Y" PROCESS; plain_node "D" "Check" DECISION;
     plain_node "A" "Fix" PROCESS; plain_node "E" "End" END]
    [plain_edge "S" "X"; plain_edge "X" "Y"; plain_edge "Y" "D";
     labelled_edge "D" "A" "rejected"; labelled_edge "D" "E" "validated";
     plain_edge "A" "D"; plain_edge "Y" "X"]
    ∅.

(** Two loops, D → A → D and D → B → A → D, both through the decision
    node D. *)
Definition decision_loops_graph : TaskGraph :=
  mkTaskGraph
    [plain_node "S" "Start" START; plain_node "D" "Check" DECISION;
     plain_node "A" "Fix" PROCESS; plain_node "B" "Retry" PROCESS;
     plain_node "E" "End" END]
    [plain_edge "S" "D"; labelled_edge "D" "A" "rejected";
     labelled_edge "D" "B" "validated"; plain_edge "A" "D";
     plain_edge "B" "A"; plain_edge "A" "E"]
    ∅.

(** ** The acceptance criteria, as the specification words them *)

(** The criterion a direct predecessor of an end node contributes. *)
Definition predecessor_criterion (pred : TaskNode) : option string :=
  match node_type pred with
  | PROCESS => Some ("Completed: " +:+ node_name pred)
  | HUMAN_REVIEW => Some ("Human approved: " +:+ node_name pred)
  | START | END | DECISION => None
  end.

(** For every end node, in node order, and each of its direct
    predecessors, in edge order, the criterion it contributes. *)
Definition produced_criteria (g : TaskGraph) : list string :=
  end_node ← get_end_nodes g;
  omap predecessor_criterion (get_predecessors g (node_id end_node)).

(** The fallback of the generator. *)
Definition generic_criteria : list string :=
  ["All tasks completed successfully"; "No critical errors or warnings"].

(** The fallback as the claim quotes it. *)
Definition claimed_generic_criteria : list string :=
  ["all tasks completed successfully"; "no critical errors"].

(** A start node wired straight to an end node. *)
Definition bare_graph : TaskGraph :=
  mkTaskGraph
    [plain_node "start" "Start" START; plain_node "end" "End" END]
    [plain_edge "start" "end"] ∅.

(** ** Walks and cycles as lists of ids *)

(** Every two consecutive ids of [c] are joined by an edge. *)
Fixpoint is_walk (g : TaskGraph) (c : list string) : Prop :=
  match c with
  | u :: rest =>
      match rest with
      | v :: _ => edge_between g u v ∧ is_walk g rest
      | [] => True
      end
  | [] => True
  end.

(** [c = [v0; v1; ...; v0]] is a cycle of the graph, written the way the
    validator prints it. *)
Definition is_cycle_path (g : TaskGraph) (c : list string) : Prop :=
  2 ≤ length c ∧ head c = last c ∧ is_walk g c.

(** No id of [c] names a decision node. *)
Definition decision_free (g : TaskGraph) (c : list string) : Prop :=
  ∀ i n, i ∈ c → get_node g i = Some n → node_type n ≠ DECISION.

(** ** The second half of claim C5, as stated *)

(** The node has incoming edges, and all of them are self-loops. *)
Definition only_self_loops (g : TaskGraph) (i : string) : Prop :=
  get_incoming_edges g i ≠ [] ∧
  ∀ e, e ∈ get_incoming_edges g i → source_id e = i.

(** "A node whose only incoming edge is a self-loop is assigned level 0
    and placed in group 0." *)
Definition self_loop_gets_level_zero (g : TaskGraph) : Prop :=
  ∀ n, n ∈ nodes g → only_self_loops g (node_id n) →
    ∃ levels groups group0,
      node_levels g = Some levels ∧ levels !! node_id n = Some 0 ∧
      get_parallel_groups g = Some groups ∧ groups !! 0 = Some group0 ∧
      n ∈ group0.

(** ** Loop invariant of the depth-first search of [_check_cycles] *)

(** The ids still white, and the ids already reached. *)
Definition white_ids (c : gmap string Color) : gset string :=
  dom (filter (λ kv, kv.2 = WHITE) c).

Definition seen_ids (c : gmap string Color) : gset string :=
  dom (filter (λ kv, kv.2 ≠ WHITE) c).

(** [height seen p x h]: following the parent links from [x] stays in
    [seen] and stops after [h] steps. *)
Inductive height (seen : gset string) (p : gmap string (option string))
  : string → nat → Prop :=
  | height_root x :
      x ∈ seen → truthy (parent_get p x) = None → height seen p x 0
  | height_step x y h :
      x ∈ seen → truthy (parent_get p x) = Some y → height seen p y h →
      height seen p x (S h).

(** Both dictionaries have the node ids as keys, a white node has no
    parent yet, and the parent links of the reached nodes form chains no
    longer than the number of reached nodes. *)
Definition dfs_inv (g : TaskGraph) (st : DfsState) : Prop :=
  dom (colors st) = node_ids g
  ∧ (∀ x, x ∈ white_ids (colors st) → truthy (parent_get (parent st) x) = None)
  ∧ (∀ x, x ∈ seen_ids (colors st) →
       ∃ h, height (seen_ids (colors st)) (parent st) x h
            ∧ h < size (seen_ids (colors st))).

(** What a call of [dfs] on [i] guarantees, stated on the state in which
    [i] has just been grayed: it returns, the invariant holds again, and
    no node goes back to white. *)
Definition dfs_returns (g : TaskGraph) (fuel : nat) : Prop :=
  ∀ st i,
    dfs_inv g (mkDfsState (<[i := GRAY]> (colors st)) (parent st)) →
    size (white_ids (<[i := GRAY]> (colors st))) < fuel →
    ∃ r st',
      dfs fuel g st i = Some (r, st') ∧ dfs_inv g st'
      ∧ seen_ids (<[i := GRAY]> (colors st)) ⊆ seen_ids (colors st')
      ∧ white_ids (colors st') ⊆ white_ids (<[i := GRAY]> (colors st)).

(** ** A total-correctness logic for the checks *)

(** From every store that satisfies [P] the computation returns, and
    value and final store satisfy [Q]. *)
Definition hoare {A} (P : Store → Prop) (m : M A) (Q : A → Store → Prop) : Prop :=
  ∀ s, P s → ∃ a s', m s = Some (a, s') ∧ Q a s'.

(** The computation returns and maintains the invariant [I]. *)
Definition keeps (I : Store → Prop) {A} (m : M A) : Prop :=
  hoare I m (λ _ s', I s').

(** The invariant of the result: [valid] tells whether there are errors. *)
Definition valid_iff_no_errors (r : ValidationResult) : Prop :=
  valid r = true ↔ errors r = [].

(** ** Levels *)

(** [levels.get(node.id, 0)]. *)
Definition level_of (levels : gmap string nat) (n : TaskNode) : nat :=
  default 0 (levels !! node_id n).

(** The nodes of level [k], in node order. *)
Definition nodes_of_level (levels : gmap string nat) (ns : list TaskNode)
    (k : nat) : list TaskNode :=
  filter (λ n, level_of levels n = k) ns.

(** What a call of [calculate_level] does to the dictionary: it only adds
    entries, and none for an id of the current branch. *)
Definition extends_outside (visited : gset string)
    (levels levels' : gmap string nat) : Prop :=
  levels ⊆ levels' ∧ ∀ v, v ∈ visited → levels !! v = None → levels' !! v = None.

(** ** Levels as longest paths *)

(** The node has no predecessor among the nodes of the graph. *)
Definition predecessor_free (g : TaskGraph) (i : string) : Prop :=
  i ∈ node_ids g ∧ ∀ u, ¬ edge_between g u i.

(** The defining equations of the level: 0 for a node without
    predecessors, otherwise one more than the greatest level of a
    predecessor. *)
Definition level_equations (g : TaskGraph) (lv : string → nat) : Prop :=
  ∀ i, i ∈ node_ids g →
    (predecessor_free g i → lv i = 0)
    ∧ (¬ predecessor_free g i → ∃ u, edge_between g u i ∧ lv i = S (lv u))
    ∧ (∀ u, edge_between g u i → lv u < lv i).

(** [p] is a path of the graph from a predecessor-free node to [i]. *)
Definition path_from_source (g : TaskGraph) (p : list string) (i : string) : Prop :=
  is_walk g p ∧ last p = Some i ∧ ∃ s, head p = Some s ∧ predecessor_free g s.

(** The longest path from a predecessor-free node to [i] has [k] edges. *)
Definition longest_path_level (g : TaskGraph) (i : string) (k : nat) : Prop :=
  (∃ p, path_from_source g p i ∧ length p = S k)
  ∧ ∀ p, path_from_source g p i → length p ≤ S k.

(** The entry [i ↦ k] is for a node, and obeys the level equations with
    respect to the entries of the predecessors. *)
Definition entry_ok (g : TaskGraph) (levels : gmap string nat)
    (i : string) (k : nat) : Prop :=
  i ∈ node_ids g
  ∧ (get_predecessors g i = [] → k = 0)
  ∧ (get_predecessors g i ≠ [] →
       ∃ p j, p ∈ get_predecessors g i ∧ levels !! node_id p = Some j ∧ k = S j)
  ∧ (∀ p, p ∈ get_predecessors g i →
       ∃ j, levels !! node_id p = Some j ∧ j < k).

Definition levels_closed (g : TaskGraph) (levels : gmap string nat) : Prop :=
  ∀ i k, levels !! i = Some k → entry_ok g levels i k.

(** The level the dictionary gives to an id. *)
Definition level_at (levels : gmap string nat) (i : string) : nat :=
  default 0 (levels !! i).

(** A numbering of the ids of the chain along which every edge goes up. *)
Definition chain_rank (i : string) : nat :=
  if decide (i = "start") then 0
  else if decide (i = "A") then 1
  else if decide (i = "B") then 2
  else 3.

(** ** Loop invariant of [topological_sort] *)

(** The number of edges into [v], whatever their source. *)
Definition edges_into (g : TaskGraph) (v : string) : nat :=
  length (filter (λ e, target_id e = v) (edges g)).

(** The number of edges into [v] whose source is the id of a node of
    [placed]. *)
Definition edges_from (g : TaskGraph) (placed : list TaskNode) (v : string) : nat :=
  length (filter (λ e, target_id e = v ∧ source_id e ∈ node_id <$> placed) (edges g)).

(** Every edge into [v] comes from a node of [placed]. *)
Definition settled (g : TaskGraph) (placed : list TaskNode) (v : string) : Prop :=
  ∀ e, e ∈ edges g → target_id e = v → source_id e ∈ node_id <$> placed.

(** The state of the [while queue:] loop: the placed and queued nodes are
    distinct nodes of the graph, [in_degree] counts the edges not yet
    released, a queued node has all its incoming edges released, a
    placed node comes after the sources of all its incoming edges, every
    node whose in-degree is zero is placed or queued, and a placed node
    had the least id among the nodes that were ready when it was
    popped. *)
Record kahn_inv (g : TaskGraph) (d : gmap string Z)
    (queue result : list TaskNode) : Prop := {
  kahn_dom : dom d = node_ids g;
  kahn_nodup : NoDup (node_id <$> (result ++ queue));
  kahn_nodes : ∀ n, n ∈ result ++ queue → n ∈ nodes g;
  kahn_degree : ∀ v, v ∈ node_ids g →
    d !! v = Some (Z.of_nat (edges_into g v) - Z.of_nat (edges_from g result v))%Z;
  kahn_queue : ∀ n, n ∈ queue → settled g result (node_id n);
  kahn_order : ∀ r1 n r2, result = r1 ++ n :: r2 → settled g r1 (node_id n);
  kahn_ready : ∀ v, v ∈ node_ids g → d !! v = Some 0%Z →
    v ∈ node_id <$> (result ++ queue);
  kahn_least : ∀ r1 n r2 m, result = r1 ++ n :: r2 →
    m ∈ nodes g → node_id m ∉ node_id <$> r1 → settled g r1 (node_id m) →
    String.leb (node_id n) (node_id m) = true;
}.

(** A cyclic graph, with two nodes that share the id "x". *)
Definition duplicate_id_graph : TaskGraph :=
  mkTaskGraph
    [plain_node "x" "First" PROCESS; plain_node "x" "Second" PROCESS;
     plain_node "c" "Loop" PROCESS]
    [plain_edge "x" "c"; plain_edge "c" "c"] ∅.

(** The order of [queue.sort(key=lambda n: n.id)] on two nodes. *)
Definition id_le (n m : TaskNode) : Prop :=
  String.leb (node_id n) (node_id m) = true.


(** ** Invariant of the loop of [generate] *)

(** The dependencies of a phase, when the key is present: a non-empty
    list of numbers of earlier phases, in ascending order, none twice. *)
Definition depends_on_earlier (p : Phase) : Prop :=
  ∀ ds, depends_on p = Some ds →
    ds ≠ [] ∧ StronglySorted lt ds ∧ ∀ d, d ∈ ds → 1 ≤ d < phase p.

(** The counter is the number of phases made so far, the phases are
    numbered from 1 in the order they were made, and [phase_map] only
    holds numbers of phases that were made. *)
Definition gen_inv (st : GenState) : Prop :=
  _phase_counter st = length (gen_phases st)
  ∧ (∀ i p, gen_phases st !! i = Some p → phase p = S i)
  ∧ (∀ k v, gen_phase_map st !! k = Some v → 1 ≤ v ≤ _phase_counter st)
  ∧ (∀ p, p ∈ gen_phases st → depends_on_earlier p).

(** ** ir.py: the graph object and its index *)

(** A [TaskGraph] object as Python holds it: the fields of the dataclass
    and, beside them, the private dictionary [_node_map]. *)
Record TaskGraphObj := mkTaskGraphObj {
  obj_graph : TaskGraph;
  _node_map : gmap string TaskNode;
}.

(** [self._node_map = {node.id: node for node in self.nodes}]. *)
Definition _rebuild_indexes (o : TaskGraphObj) : TaskGraphObj :=
  mkTaskGraphObj (obj_graph o) (node_map (obj_graph o)).

(** [__post_init__], run by the constructor on the fields given. *)
Definition __post_init__ (g : TaskGraph) : TaskGraphObj :=
  _rebuild_indexes (mkTaskGraphObj g ∅).

(** [add_node]: the list and the dictionary are updated side by side. *)
Definition obj_add_node (n : TaskNode) (o : TaskGraphObj) : TaskGraphObj :=
  mkTaskGraphObj (add_node n (obj_graph o)) (<[node_id n := n]> (_node_map o)).

Definition obj_add_edge (e : TaskEdge) (o : TaskGraphObj) : TaskGraphObj :=
  mkTaskGraphObj (add_edge e (obj_graph o)) (_node_map o).

(** [get_node]: [self._node_map.get(node_id)]. *)
Definition obj_get_node (o : TaskGraphObj) (i : string) : option TaskNode :=
  _node_map o !! i.

(** A call that changes the graph object. *)
Inductive GraphCall :=
  | CallAddNode (n : TaskNode)
  | CallAddEdge (e : TaskEdge).

Definition run_call (o : TaskGraphObj) (c : GraphCall) : TaskGraphObj :=
  match c with
  | CallAddNode n => obj_add_node n o
  | CallAddEdge e => obj_add_edge e o
  end.

(** A graph without nodes that still has an edge. *)
Definition nodeless_graph : TaskGraph :=
  mkTaskGraph [] [plain_edge "a" "b"] ∅.

(** ** The alphabet of subtask ids *)

(** A character of [a-z0-9_-]. *)
Definition is_sanitized_char (c : ascii) : bool :=
  Py.islower_char c || Py.isdigit_char c
  || bool_decide (c = "_"%char) || bool_decide (c = "-"%char).

(** The characters of a string, first to last. *)
Abbreviation chars := String.list_ascii_of_string.

(** ** What a check adds to the result *)

(** The result after the errors [es] and the warnings [ws] were added to
    it, one by one. *)
Definition with_reports (r : ValidationResult) (es ws : list ValidationError)
  : ValidationResult :=
  mkValidationResult (valid r && match es with [] => true | _ :: _ => false end)
                     (errors r ++ es) (warnings r ++ ws).

(** On the graph [g] the check returns [a], leaves the graph object as
    it is and adds [es] and [ws] to the result, whatever the result held
    before. *)
Definition reports {A} (check : M A) (g : TaskGraph) (a : A)
    (es ws : list ValidationError) : Prop :=
  ∀ r, check (mkStore g r) = Some (a, mkStore g (with_reports r es ws)).

Definition oblivious {A} (check : M A) (g : TaskGraph) : Prop :=
  ∃ a es ws, reports check g a es ws.

(** A check run on its own, with a fresh result. *)
Definition run_check {A} (check : M A) (g : TaskGraph) : option ValidationResult :=
  match check (mkStore g new_result) with
  | Some (_, s) => Some (st_result s)
  | None => None
  end.

(** The checks that [validate] runs on a graph that has nodes, in the
    order in which it runs them. *)
Definition checks : list (M unit) :=
  [_check_start_nodes; _check_end_nodes; _check_edge_references;
   _check_decision_nodes; _check_orphan_nodes; _check_connectivity;
   _check_cycles; _check_node_names].

(** ** Statements about the checks *)

(** What a call on [j] does when every gray node reaches [j]: no cycle
    is found, and the gray nodes are those of before, [j] apart. *)
Definition finds_nothing (g : TaskGraph)
    (rec : DfsState → string → option (option (list string) * DfsState)) : Prop :=
  ∀ st j r st',
    j ∈ node_ids g →
    (∀ x, colors st !! x = Some GRAY → rtc (edge_between g) x j) →
    rec st j = Some (r, st') →
    r = None
    ∧ ∀ x, colors st' !! x = Some GRAY ↔ colors st !! x = Some GRAY ∧ x ≠ j.

(** The errors a check reports when run on its own. *)
Definition check_errors {A} (check : M A) (g : TaskGraph) : list ValidationError :=
  match run_check check g with
  | Some r => errors r
  | None => []
  end.

(** The id is the source or the target of some edge. *)
Definition touches_edge (g : TaskGraph) (i : string) : Prop :=
  ∃ e, e ∈ edges g ∧ (source_id e = i ∨ target_id e = i).

(** The structural conditions of the validator, cycles apart: one start
    node, or none but a node without incoming edge; an end node, or a
    node other than a start node without outgoing edge; edges between
    nodes; two edges or more out of every decision node; no node off
    every edge. *)
Definition structurally_sound (g : TaskGraph) : Prop :=
  ((∃ s, filter (λ n, node_type n = START) (nodes g) = [s])
   ∨ (filter (λ n, node_type n = START) (nodes g) = []
      ∧ ∃ n, n ∈ nodes g ∧ ∀ e, e ∈ edges g → target_id e ≠ node_id n))
  ∧ (get_end_nodes g ≠ []
     ∨ ∃ n, n ∈ nodes g ∧ node_type n ≠ START
            ∧ ∀ e, e ∈ edges g → source_id e ≠ node_id n)
  ∧ (∀ e, e ∈ edges g → source_id e ∈ node_ids g ∧ target_id e ∈ node_ids g)
  ∧ (∀ n, n ∈ nodes g → node_type n = DECISION →
       2 ≤ length (get_outgoing_edges g (node_id n)))
  ∧ (∀ n, n ∈ nodes g → touches_edge g (node_id n)).

(** The black nodes of the depth-first search: their successors are
    black, and no cycle passes through them. *)
Definition black_sound (g : TaskGraph) (c : gmap string Color) : Prop :=
  (∀ x y, c !! x = Some BLACK → edge_between g x y → c !! y = Some BLACK)
  ∧ (∀ x, c !! x = Some BLACK → ¬ tc (edge_between g) x x).

(** A call of [dfs] on a white node never returns an empty cycle, and when
    it returns [None] it has blackened the node and kept the gray nodes. *)
Definition blackens (g : TaskGraph)
    (rec : DfsState → string → option (option (list string) * DfsState)) : Prop :=
  ∀ st j r st',
    j ∈ node_ids g → colors st !! j = Some WHITE → black_sound g (colors st) →
    rec st j = Some (r, st') →
    r ≠ Some []
    ∧ (r = None →
       black_sound g (colors st')
       ∧ colors st' !! j = Some BLACK
       ∧ (∀ x, colors st !! x = Some BLACK → colors st' !! x = Some BLACK)
       ∧ (∀ x, colors st' !! x = Some GRAY ↔ colors st !! x = Some GRAY)).

(** The reports of [_check_cycles]: errors INVALID_CYCLE and warnings
    DECISION_LOOP, attached to no node. *)
Definition cycle_reports (es ws : list ValidationError) : Prop :=
  Forall (λ e, code e = "INVALID_CYCLE" ∧ error_node_id e = None) es
  ∧ Forall (λ w, code w = "DECISION_LOOP" ∧ error_node_id w = None) ws.

(** ** The plan on a graph without cycles *)

(** In the list of phases, the subtask of [v] sits in a later phase than
    the subtask of [u], and that phase lists the phase of [u] among its
    dependencies. *)
Definition waits_for (phases : list Phase) (u v : TaskNode) : Prop :=
  ∃ i j p q ds,
    phases !! i = Some p ∧ phases !! j = Some q ∧ i < j
    ∧ _node_to_subtask u ∈ subtasks p ∧ _node_to_subtask v ∈ subtasks q
    ∧ depends_on q = Some ds ∧ phase p ∈ ds.

(** The key [parallel_safe] is present, and true, exactly on the phases
    with more than one subtask. *)
Definition parallel_iff_several (p : Phase) : Prop :=
  parallel_safe p = if bool_decide (1 < length (subtasks p)) then Some true else None.

(** The state of the loop of [generate] once the groups of the levels
    below [k] are done. *)
Definition plan_inv (g : TaskGraph) (levels : gmap string nat) (k : nat)
    (st : GenState) : Prop :=
  gen_inv st
  ∧ (∀ n, n ∈ nodes g → is_process_node n → level_of levels n < k →
       ∃ ph p, gen_phase_map st !! node_id n = Some ph
               ∧ gen_phases st !! (ph - 1) = Some p
               ∧ _node_to_subtask n ∈ subtasks p)
  ∧ (∀ v u, v ∈ nodes g → is_process_node v → level_of levels v < k →
       u ∈ get_predecessors g (node_id v) → is_process_node u →
       waits_for (gen_phases st) u v)
  ∧ (∀ p, p ∈ gen_phases st → parallel_iff_several p).

(** ** ir.py: [to_dict] and [from_dict] *)

(** [NodeType.value]. *)
Definition NodeType_value (t : NodeType) : string :=
  match t with
  | START => "start"
  | END => "end"
  | PROCESS => "process"
  | DECISION => "decision"
  | HUMAN_REVIEW => "human_review"
  end.

(** The exceptions of [from_dict]: [data[key]] on an absent key, and
    [NodeType(value)] on a value that no member has. *)
Inductive PyError :=
  | KeyError (key : string)
  | ValueError (value : string).

Inductive Raises (A : Type) :=
  | Returns (a : A)
  | Raised (e : PyError).
Arguments Returns {A} a.
Arguments Raised {A} e.

#[global] Instance Raises_ret : MRet Raises := λ A (a : A), Returns a.
#[global] Instance Raises_bind : MBind Raises := λ A B (f : A → Raises B) m,
  match m with
  | Returns a => f a
  | Raised e => Raised e
  end.

(** [NodeType(value)]. *)
Definition NodeType_of_value (s : string) : Raises NodeType :=
  if decide (s = "start") then Returns START
  else if decide (s = "end") then Returns END
  else if decide (s = "process") then Returns PROCESS
  else if decide (s = "decision") then Returns DECISION
  else if decide (s = "human_review") then Returns HUMAN_REVIEW
  else Raised (ValueError s).

(** The dictionaries that [to_dict] writes and [from_dict] reads, one
    optional field per key: [None] is an absent key.  The value of
    ["system_prompt"], ["condition"] and ["label"] may be Python's
    [None]. *)
Record NodeDict := mkNodeDict {
  d_id : option string;
  d_name : option string;
  d_node_type : option string;
  d_model : option string;
  d_system_prompt : option (option string);
  d_inputs : option (list string);
  d_outputs : option (list string);
  d_metadata : option (gmap string string);
}.

Record EdgeDict := mkEdgeDict {
  d_source_id : option string;
  d_target_id : option string;
  d_condition : option (option string);
  d_label : option (option string);
}.

Record GraphDict := mkGraphDict {
  d_nodes : option (list NodeDict);
  d_edges : option (list EdgeDict);
  d_graph_metadata : option (gmap string string);
}.

(** [data[key]]. *)
Definition item {A} (key : string) (o : option A) : Raises A :=
  match o with
  | Some a => Returns a
  | None => Raised (KeyError key)
  end.

Definition TaskNode_to_dict (n : TaskNode) : NodeDict :=
  mkNodeDict (Some (node_id n)) (Some (node_name n))
             (Some (NodeType_value (node_type n))) (Some (node_model n))
             (Some (node_system_prompt n)) (Some (node_inputs n))
             (Some (node_outputs n)) (Some (node_metadata n)).

(** The arguments are evaluated in the order written; the constructor
    then runs [__post_init__], which turns the string into the enum. *)
Definition TaskNode_from_dict (data : NodeDict) : Raises TaskNode :=
  i ← item "id" (d_id data);
  name ← item "name" (d_name data);
  node_type ← item "node_type" (d_node_type data);
  let model := default "claude" (d_model data) in
  let system_prompt := default None (d_system_prompt data) in
  let inputs := default [] (d_inputs data) in
  let outputs := default [] (d_outputs data) in
  let metadata := default ∅ (d_metadata data) in
  node_type ← NodeType_of_value node_type;
  mret (mkTaskNode i name node_type model system_prompt inputs outputs metadata).

Definition TaskEdge_to_dict (e : TaskEdge) : EdgeDict :=
  mkEdgeDict (Some (source_id e)) (Some (target_id e))
             (Some (condition e)) (Some (label e)).

Definition TaskEdge_from_dict (data : EdgeDict) : Raises TaskEdge :=
  s ← item "source_id" (d_source_id data);
  t ← item "target_id" (d_target_id data);
  mret (mkTaskEdge s t (default None (d_condition data))
                   (default None (d_label data))).

Definition TaskGraph_to_dict (g : TaskGraph) : GraphDict :=
  mkGraphDict (Some (TaskNode_to_dict <$> nodes g))
              (Some (TaskEdge_to_dict <$> edges g))
              (Some (graph_metadata g)).

(** The constructor runs [__post_init__]; [from_dict] then rebuilds the
    index once more. *)
Definition TaskGraph_from_dict (data : GraphDict) : Raises TaskGraphObj :=
  ns ← mapM TaskNode_from_dict (default [] (d_nodes data));
  es ← mapM TaskEdge_from_dict (default [] (d_edges data));
  let graph :=
    __post_init__ (mkTaskGraph ns es (default ∅ (d_graph_metadata data))) in
  mret (_rebuild_indexes graph).



(** ** [topological_sort] on an arbitrary graph *)


(** * Properties *)

(** ** The node index *)

Section node_index.
Context {V : Type} (key : V → string).

Lemma foldl_insert_lookup_Some (l : list V) (m : gmap string V) k v :
  foldl (λ m x, <[key x := x]> m) m l !! k = Some v →
  (v ∈ l ∧ key v = k) ∨ (m !! k = Some v ∧ k ∉ key <$> l).
Proof.
  revert m. induction l as [|x l IH]; intros m; simpl.
  - intros ?. right. split; [done|]. apply not_elem_of_nil.
  - intros H. apply IH in H as [[Hin Hk]|[Hm Hk]].
    + left. split; [by apply elem_of_cons; right|done].
    + destruct (decide (key x = k)) as [<-|Hne].
      * rewrite lookup_insert_eq in Hm. injection Hm as ->.
        left. split; [apply elem_of_cons; by left|done].
      * rewrite lookup_insert_ne in Hm by done.
        right. split; [done|]. rewrite not_elem_of_cons. split; [congruence|done].
Qed.

Lemma foldl_insert_dom {W} (f : V → W) (l : list V) (m : gmap string W) :
  dom (foldl (λ m x, <[key x := f x]> m) m l)
  = list_to_set (key <$> l) ∪ dom m.
Proof.
  revert m. induction l as [|x l IH]; intros m; simpl.
  - set_solver.
  - rewrite IH, dom_insert_L. set_solver.
Qed.

Lemma foldl_insert_lookup_const {W} (w : W) (l : list V) (m : gmap string W) k :
  k ∈ key <$> l →
  foldl (λ m x, <[key x := w]> m) m l !! k = Some w.
Proof.
  revert m. induction l as [|x l IH]; intros m; simpl.
  - intros H. by apply elem_of_nil in H.
  - intros H. destruct (decide (k ∈ key <$> l)) as [Hin|Hnin].
    + by apply IH.
    + apply elem_of_cons in H as [->|?]; [|done].
      clear IH. revert m. induction l as [|y l IH]; intros m; simpl.
      * apply lookup_insert_eq.
      * rewrite fmap_cons, not_elem_of_cons in Hnin. destruct Hnin as [Hne Hnin].
        rewrite insert_insert_ne by done. by apply IH.
Qed.

Lemma foldl_insert_lookup_NoDup (l : list V) (m : gmap string V) v :
  NoDup (key <$> l) → v ∈ l →
  foldl (λ m x, <[key x := x]> m) m l !! key v = Some v.
Proof.
  revert m. induction l as [|x l IH]; intros m Hnd Hin; simpl.
  - by apply elem_of_nil in Hin.
  - rewrite fmap_cons in Hnd. apply NoDup_cons in Hnd as [Hx Hnd].
    apply elem_of_cons in Hin as [->|Hin]; [|by apply IH].
    clear IH Hnd. revert m. induction l as [|y l IH]; intros m; simpl.
    + apply lookup_insert_eq.
    + rewrite fmap_cons, not_elem_of_cons in Hx. destruct Hx as [Hne Hx].
      rewrite insert_insert_ne by done. by apply IH.
Qed.
End node_index.

Lemma node_map_lookup_Some g k n :
  node_map g !! k = Some n → n ∈ nodes g ∧ node_id n = k.
Proof.
  unfold node_map. intros H.
  apply (foldl_insert_lookup_Some node_id) in H as [?|[H _]]; [done|].
  by rewrite lookup_empty in H.
Qed.

Lemma node_map_dom g : dom (node_map g) = node_ids g.
Proof.
  unfold node_map, node_ids.
  rewrite (foldl_insert_dom node_id (λ x, x)). set_solver.
Qed.

Lemma node_map_lookup_unique g n :
  unique_ids g → n ∈ nodes g → node_map g !! node_id n = Some n.
Proof. intros. by apply (foldl_insert_lookup_NoDup node_id). Qed.

Lemma node_ids_elem g k : k ∈ node_ids g ↔ ∃ n, n ∈ nodes g ∧ node_id n = k.
Proof.
  unfold node_ids. rewrite elem_of_list_to_set, list_elem_of_fmap. naive_solver.
Qed.

Lemma node_map_is_Some g k : is_Some (node_map g !! k) ↔ k ∈ node_ids g.
Proof. by rewrite <- elem_of_dom, node_map_dom. Qed.

(** ** Successors, predecessors and decision branches *)

Lemma lookup_present_total (m : gmap string TaskNode) (ks : list string) :
  lookup_present m ks = Some (omap (λ k, m !! k) ks).
Proof.
  unfold lookup_present. induction ks as [|k ks IH]; [done|].
  rewrite filter_cons. destruct (decide (k ∈ dom m)) as [Hin|Hnin].
  - apply elem_of_dom in Hin as [v Hv]. cbn. rewrite Hv. cbn.
    by rewrite IH.
  - apply not_elem_of_dom in Hnin. cbn. rewrite Hnin. done.
Qed.

Lemma omap_node_map_ids g (ks : list string) :
  node_id <$> omap (λ k, node_map g !! k) ks = filter (λ k, k ∈ node_ids g) ks.
Proof.
  induction ks as [|k ks IH]; [done|].
  rewrite filter_cons. cbn. destruct (node_map g !! k) as [n|] eqn:Hk.
  - rewrite decide_True by (apply node_map_is_Some; eauto).
    apply node_map_lookup_Some in Hk as [_ <-]. cbn. by rewrite IH.
  - rewrite decide_False; [done|].
    rewrite <- node_map_is_Some, Hk. by intros [? ?].
Qed.

Lemma omap_node_map_elem g (ks : list string) n :
  n ∈ omap (λ k, node_map g !! k) ks ↔
  n ∈ nodes g ∧ node_id n ∈ ks ∧ node_map g !! node_id n = Some n.
Proof.
  rewrite list_elem_of_omap. split.
  - intros (k & Hk & Hn). pose proof Hn as [? <-]%node_map_lookup_Some. done.
  - intros (? & ? & ?). eauto.
Qed.

Lemma get_successors_elem g i n :
  n ∈ get_successors g i ↔
  node_map g !! node_id n = Some n ∧
  ∃ e, e ∈ edges g ∧ source_id e = i ∧ target_id e = node_id n.
Proof.
  unfold get_successors, get_outgoing_edges.
  rewrite omap_node_map_elem, list_elem_of_fmap. split.
  - intros (? & (e & He & [? ?]%list_elem_of_filter) & ?). eauto 10.
  - intros (Hn & e & ? & ? & He). split; [by apply node_map_lookup_Some in Hn as [? _]|].
    split; [|done]. exists e. by rewrite list_elem_of_filter.
Qed.

Lemma get_predecessors_elem g i n :
  n ∈ get_predecessors g i ↔
  node_map g !! node_id n = Some n ∧
  ∃ e, e ∈ edges g ∧ source_id e = node_id n ∧ target_id e = i.
Proof.
  unfold get_predecessors, get_incoming_edges.
  rewrite omap_node_map_elem, list_elem_of_fmap. split.
  - intros (? & (e & He & [? ?]%list_elem_of_filter) & ?). eauto 10.
  - intros (Hn & e & ? & He & ?). split; [by apply node_map_lookup_Some in Hn as [? _]|].
    split; [|done]. exists e. by rewrite list_elem_of_filter.
Qed.

Lemma decision_branches_elem g (es : list TaskEdge) i k l n :
  Forall (λ e, e ∈ edges g ∧ source_id e = i) es →
  foldl (add_branch g) ∅ es !! k = Some l →
  n ∈ l →
  n ∈ nodes g ∧
  ∃ e, e ∈ edges g ∧ source_id e = i ∧ target_id e = node_id n ∧ branch_key e = k.
Proof.
  revert k l n. induction es as [|e es IH] using rev_ind; intros k l n Hes; simpl.
  - by rewrite lookup_empty.
  - apply Forall_app in Hes as [Hes [He _]%Forall_cons].
    rewrite foldl_app. simpl. unfold add_branch at 1.
    destruct (get_node g (target_id e)) as [t|] eqn:Ht; [|by apply IH].
    destruct (decide (branch_key e = k)) as [<-|Hne].
    + rewrite lookup_insert_eq. intros [= <-] [Hn|Hn]%elem_of_app.
      * destruct (foldl _ ∅ es !! branch_key e) as [l'|] eqn:Hl; simpl in Hn.
        -- by eapply IH.
        -- by apply elem_of_nil in Hn.
      * apply list_elem_of_singleton in Hn as ->.
        apply node_map_lookup_Some in Ht as [? Hid].
        split; [done|]. exists e. by destruct He.
    + rewrite lookup_insert_ne by done. by apply IH.
Qed.

Lemma decision_branches_skip g (es : list TaskEdge) :
  foldl (add_branch g) ∅ (filter (λ e, target_id e ∈ node_ids g) es)
  = foldl (add_branch g) ∅ es.
Proof.
  induction es as [|e es IH] using rev_ind; [done|].
  rewrite filter_app, !foldl_app, IH. rewrite filter_cons, filter_nil. simpl.
  destruct (decide (target_id e ∈ node_ids g)) as [Hin|Hnin]; simpl; [done|].
  unfold add_branch at 2, get_node. rewrite <- node_map_is_Some in Hnin.
  destruct (node_map g !! target_id e); [|done]. exfalso. eauto.
Qed.

(** C10. [get_successors] and [get_predecessors] never raise: the guarded
    subscripts always succeed, the nodes returned are nodes of the graph,
    and their ids are exactly the edge endpoints that name a node, in edge
    order; an endpoint naming no node is skipped.  [get_decision_branches]
    lists only nodes of the graph reached by an edge of the given node,
    and is blind to edges whose target names no node. *)
Theorem graph_queries_skip_dangling_endpoints (g : TaskGraph) (i : string) :
  get_successors_exn g i = Some (get_successors g i)
  ∧ get_predecessors_exn g i = Some (get_predecessors g i)
  ∧ node_id <$> get_successors g i
    = filter (λ k, k ∈ node_ids g) (target_id <$> get_outgoing_edges g i)
  ∧ node_id <$> get_predecessors g i
    = filter (λ k, k ∈ node_ids g) (source_id <$> get_incoming_edges g i)
  ∧ (∀ n, n ∈ get_successors g i → n ∈ nodes g)
  ∧ (∀ n, n ∈ get_predecessors g i → n ∈ nodes g)
  ∧ (∀ k l n, get_decision_branches g i !! k = Some l → n ∈ l →
       n ∈ nodes g ∧
       ∃ e, e ∈ edges g ∧ source_id e = i ∧ target_id e = node_id n ∧
            branch_key e = k)
  ∧ get_decision_branches (drop_dangling_targets g) i = get_decision_branches g i.
Proof.
  repeat split.
  - apply lookup_present_total.
  - apply lookup_present_total.
  - apply omap_node_map_ids.
  - apply omap_node_map_ids.
  - intros n [Hn _]%get_successors_elem. by apply node_map_lookup_Some in Hn as [? _].
  - intros n [Hn _]%get_predecessors_elem. by apply node_map_lookup_Some in Hn as [? _].
  - eapply decision_branches_elem; [|done..].
    apply Forall_forall. intros e [? ?]%list_elem_of_filter. done.
  - eapply decision_branches_elem; [|done..].
    apply Forall_forall. intros e [? ?]%list_elem_of_filter. done.
  - unfold get_decision_branches, get_outgoing_edges.
    change (add_branch (drop_dangling_targets g)) with (add_branch g).
    change (node_ids (drop_dangling_targets g)) with (node_ids g).
    rewrite <- (decision_branches_skip g (filter _ (edges g))).
    f_equal. simpl. rewrite !list_filter_filter.
    apply list_filter_iff. naive_solver.
Qed.

(** ** The plan generator *)

(** C6. On start → "Configure database" → "Write tests" → end, whatever
    the feature name, workflow type and clock, [generate] produces exactly
    two phases, numbered 1 and 2; the first has type "setup" and no
    [depends_on] key, the second has type "implementation", depends on
    [[1]] and holds a subtask with a command verification. *)
Theorem generate_scenario_two_phases
    (feature_name : option string) (workflow : string) (now1 now2 : string) :
  ∃ plan p1 p2 s v,
    generate scenario_graph feature_name workflow now1 now2 = Some plan
    ∧ phases plan = [p1; p2]
    ∧ phase p1 = 1 ∧ phase p2 = 2
    ∧ phase_type p1 = "setup"
    ∧ phase_type p2 = "implementation"
    ∧ s ∈ subtasks p2 ∧ verification s = Some v
    ∧ verification_type v = "command"
    ∧ depends_on p2 = Some [1]
    ∧ depends_on p1 = None.
Proof.
  unfold generate.
  let r := eval vm_compute in (get_parallel_groups scenario_graph) in
  assert (get_parallel_groups scenario_graph = r) as -> by (vm_compute; reflexivity).
  cbn [mbind option_bind].
  let r := eval vm_compute in
    (gen_phases (foldl (generate_phase scenario_graph) (mkGenState 0 ∅ [])
       [[plain_node "start" "Start" START];
        [plain_node "configure" "Configure database" PROCESS];
        [plain_node "tests" "Write tests" PROCESS];
        [plain_node "end" "End" END]])) in
  match goal with
  | |- context [gen_phases ?st] =>
      assert (gen_phases st = r) as -> by (vm_compute; reflexivity)
  end.
  eexists _, _, _, _, _. split; [reflexivity|]. cbn [phases].
  split; [reflexivity|]. cbn.
  repeat (split; [reflexivity|]).
  split; [apply list_elem_of_singleton; reflexivity|].
  repeat split.
Qed.

Lemma foldl_append_criteria (acc : list string) (preds : list TaskNode) :
  foldl (λ criteria pred, criteria ++ criterion_of pred) acc preds
  = acc ++ omap predecessor_criterion preds.
Proof.
  revert acc. induction preds as [|p preds IH]; intros acc; simpl.
  - by rewrite app_nil_r.
  - rewrite IH, <- app_assoc. f_equal.
    unfold criterion_of, predecessor_criterion. by destruct (node_type p).
Qed.

Lemma foldl_end_nodes_criteria g (acc : list string) (ends : list TaskNode) :
  foldl (λ criteria end_node,
           foldl (λ criteria pred, criteria ++ criterion_of pred)
                 criteria (get_predecessors g (node_id end_node)))
        acc ends
  = acc ++ (end_node ← ends;
            omap predecessor_criterion (get_predecessors g (node_id end_node))).
Proof.
  revert acc. induction ends as [|e ends IH]; intros acc; simpl.
  - by rewrite app_nil_r.
  - by rewrite IH, foldl_append_criteria, <- app_assoc.
Qed.

(** C7 as stated fails: on a graph whose only end node has the start node
    as its single predecessor no criterion is produced, yet the list is
    not the pair of strings the claim quotes. *)
Lemma acceptance_criteria_not_as_quoted :
  ¬ (produced_criteria bare_graph = [] →
     _generate_acceptance_criteria bare_graph = claimed_generic_criteria).
Proof. intros H. specialize (H eq_refl). vm_compute in H. discriminate H. Qed.

(** C7, amended. The acceptance criteria are the criteria contributed by
    the direct predecessors of the end nodes ("Completed: <name>" for a
    process node, "Human approved: <name>" for a human-review node,
    nothing for the other kinds); when no criterion is produced the list
    is ["All tasks completed successfully";
    "No critical errors or warnings"]. *)
Theorem acceptance_criteria_spec (g : TaskGraph) :
  _generate_acceptance_criteria g
  = match produced_criteria g with
    | [] => generic_criteria
    | c :: cs => c :: cs
    end.
Proof.
  unfold _generate_acceptance_criteria, produced_criteria.
  rewrite foldl_end_nodes_criteria. simpl.
  by destruct (mbind _ _).
Qed.

(** ** Evaluations that settle claims against the code *)

Ltac edge_cases H :=
  repeat (apply elem_of_cons in H as [->|H]); [..|by apply elem_of_nil in H].

(** C1. A graph with a single node [b] and an edge [x → b] whose source
    names no node has unique ids and no cycle, yet [topological_sort]
    raises the cycle error naming [b]: the in-degree of [b] counts the
    edge, and no node is ever there to release it. *)
Theorem topological_sort_rejects_dangling_source :
  unique_ids dangling_source_graph
  ∧ acyclic dangling_source_graph
  ∧ topological_sort dangling_source_graph = Some (CycleDetected ["b"]).
Proof.
  split; [|split].
  - unfold unique_ids. simpl. apply NoDup_singleton.
  - intros [v Hv].
    assert (∃ w, edge_between dangling_source_graph v w)
      as (w & Hw & _ & e & He & Hs & _) by (inversion Hv; subst; eauto).
    simpl in He. edge_cases He. simpl in Hs. subst v.
    unfold node_ids in Hw. simpl in Hw. set_solver.
  - vm_compute. reflexivity.
Qed.

(** C2. The graph has the cycle X → Y → X, on which no node is a decision
    node; the depth-first search meets the decision loop D → A → D first
    and returns with X and Y still gray, so their cycle is never looked
    at: the result is valid, with no error at all and the decision-loop
    warning only. *)
Theorem validate_misses_decision_free_cycle :
  is_cycle_path hidden_cycle_graph ["X"; "Y"; "X"]
  ∧ decision_free hidden_cycle_graph ["X"; "Y"; "X"]
  ∧ ∃ r, validate hidden_cycle_graph = Some (r, hidden_cycle_graph)
         ∧ valid r = true
         ∧ errors r = []
         ∧ code <$> warnings r = ["DECISION_LOOP"].
Proof.
  split; [|split].
  - split; [simpl; lia|]. split; [reflexivity|].
    simpl. repeat split; try (unfold node_ids; simpl; set_solver).
    + exists (plain_edge "X" "Y"). split; [|done]. simpl. set_solver.
    + exists (plain_edge "Y" "X"). split; [|done]. simpl. set_solver.
  - intros i n Hi Hn. edge_cases Hi; vm_compute in Hn; by injection Hn as <-.
  - eexists. split; [vm_compute; reflexivity|]. by vm_compute.
Qed.

(** The same early return produces a report that is no cycle: every
    cycle of this graph runs through the decision node D, yet the search
    started at B meets A still gray and reports "A -> B -> A" as an
    invalid cycle, although the graph has no edge A → B. *)
Lemma validate_reports_spurious_cycle :
  (∀ c, is_cycle_path decision_loops_graph c → "D" ∈ c)
  ∧ ¬ is_cycle_path decision_loops_graph ["A"; "B"; "A"]
  ∧ ∃ r, validate decision_loops_graph = Some (r, decision_loops_graph)
         ∧ valid r = false
         ∧ errors r =
             [mkValidationError "INVALID_CYCLE"
                "Found a cycle that doesn't go through a decision node: A -> B -> A. Cycles are only allowed for decision-based loops."
                None SevError].
Proof.
  assert (Hstep : ∀ u v, edge_between decision_loops_graph u v →
            u = "D" ∨ v = "D" ∨ (u = "B" ∧ v = "A") ∨ (u = "A" ∧ v = "E")).
  { intros u v (_ & _ & e & He & <- & <-). simpl in He. edge_cases He; simpl; auto. }
  split; [|split].
  - intros c (Hlen & Hclosed & Hwalk).
    destruct c as [|u [|v c]]; simpl in Hlen; [lia..|].
    destruct Hwalk as [Huv Hwalk].
    apply Hstep in Huv as [->|[->|[[-> ->]|[-> ->]]]]; [set_solver..| |].
    + destruct c as [|w c]; [simpl in Hclosed; discriminate|].
      destruct Hwalk as [Hvw Hwalk].
      apply Hstep in Hvw as [?|[->|[[? ->]|[_ ->]]]]; [done|set_solver|done|].
      destruct c as [|x c]; [simpl in Hclosed; discriminate|].
      destruct Hwalk as [Hwx _].
      apply Hstep in Hwx as [?|[->|[[? _]|[? _]]]]; [done|set_solver|done..].
    + destruct c as [|w c]; [simpl in Hclosed; discriminate|].
      destruct Hwalk as [Hvw _].
      apply Hstep in Hvw as [?|[->|[[? _]|[? _]]]]; [done|set_solver|done..].
  - intros (_ & _ & Hab & _).
    apply Hstep in Hab as [?|[?|[[? _]|[_ ?]]]]; done.
  - eexists. split; [vm_compute; reflexivity|]. by vm_compute.
Qed.

(** C5 as stated fails: in the graph with a start node [s] and a node [a]
    whose only incoming edge is the self-loop [a → a], the inner call on
    [a] returns 0 and [a] itself gets level 0 + 1; the groups are
    [[s]; [a]]. *)
Lemma self_loop_node_not_level_zero :
  ¬ self_loop_gets_level_zero self_loop_graph.
Proof.
  intros H.
  destruct (H (plain_node "a" "Retry" PROCESS)) as (levels & ? & ? & Hl & Ha & _).
  - simpl. set_solver.
  - split; [by vm_compute|].
    intros e He. vm_compute in He. edge_cases He. reflexivity.
  - vm_compute in Hl. injection Hl as <-. vm_compute in Ha. discriminate Ha.
Qed.

(** ** Termination of the traversals of the validator *)

Lemma bfs_push_length (visited : gset string) (queue : list string)
    (succs : list TaskNode) :
  length (foldl (λ q successor,
                   if decide (node_id successor ∉ visited)
                   then q ++ [node_id successor] else q) queue succs)
  ≤ length queue + length succs.
Proof.
  revert queue. induction succs as [|s succs IH]; intros queue; simpl; [lia|].
  etrans; [apply IH|]. case_decide; rewrite ?length_app; simpl; lia.
Qed.

Lemma omap_length_le {A B} (f : A → option B) (l : list A) :
  length (omap f l) ≤ length l.
Proof.
  induction l as [|x l IH]; [done|].
  cbn. destruct (f x); cbn; fold (omap f l); lia.
Qed.

Lemma get_successors_length g i :
  length (get_successors g i) ≤ length (get_outgoing_edges g i).
Proof.
  unfold get_successors. etrans; [apply omap_length_le|]. by rewrite length_fmap.
Qed.

Lemma unvisited_sources_split (es : list TaskEdge) (visited : gset string) c :
  c ∉ visited →
  length (filter (λ e, source_id e ∉ ({[c]} ∪ visited : gset string)) es)
  + length (filter (λ e, source_id e = c) es)
  = length (filter (λ e, source_id e ∉ visited) es).
Proof.
  intros Hc. induction es as [|e es IH]; [done|].
  rewrite !filter_cons.
  destruct (decide (source_id e = c)) as [Heq|Hne].
  - rewrite decide_False by set_solver. rewrite decide_True by set_solver.
    simpl. lia.
  - destruct (decide (source_id e ∉ visited)).
    + rewrite decide_True by set_solver. simpl. lia.
    + rewrite decide_False by set_solver. done.
Qed.

(** The loop of [_check_connectivity] ends: a turn either drops a queued
    id, or visits a new node and queues at most its outgoing edges. *)
Lemma bfs_total g (fuel : nat) (visited : gset string) (queue : list string) :
  length queue + length (filter (λ e, source_id e ∉ visited) (edges g)) < fuel →
  is_Some (bfs fuel g visited queue).
Proof.
  revert visited queue. induction fuel as [|fuel IH]; intros visited queue Hfuel;
    [lia|].
  destruct queue as [|current queue]; simpl; [by eexists|].
  simpl in Hfuel. case_decide.
  - apply IH. lia.
  - apply IH.
    pose proof (bfs_push_length ({[current]} ∪ visited) queue
                  (get_successors g current)).
    pose proof (get_successors_length g current).
    pose proof (unvisited_sources_split (edges g) visited current ltac:(done)).
    unfold get_outgoing_edges in *. lia.
Qed.

Lemma check_connectivity_bfs_total g i :
  is_Some (bfs (bfs_fuel g) g ∅ [i]).
Proof.
  apply bfs_total. unfold bfs_fuel. cbn [length].
  apply Nat.lt_succ_r, le_n_S, length_filter.
Qed.

Lemma elem_of_white_ids (c : gmap string Color) x :
  x ∈ white_ids c ↔ c !! x = Some WHITE.
Proof.
  unfold white_ids. rewrite elem_of_dom. split.
  - intros [col [Hx Hc]%map_lookup_filter_Some]. simpl in Hc. by subst.
  - intros Hx. exists WHITE. by apply map_lookup_filter_Some.
Qed.

Lemma elem_of_seen_ids (c : gmap string Color) x :
  x ∈ seen_ids c ↔ ∃ col, c !! x = Some col ∧ col ≠ WHITE.
Proof.
  unfold seen_ids. rewrite elem_of_dom. split.
  - intros [col [Hx Hc]%map_lookup_filter_Some]. eauto.
  - intros (col & Hx & Hc). exists col. by apply map_lookup_filter_Some.
Qed.

Lemma white_ids_insert (c : gmap string Color) k col :
  col ≠ WHITE → white_ids (<[k := col]> c) = white_ids c ∖ {[k]}.
Proof.
  intros Hcol. apply set_eq. intros x.
  rewrite elem_of_difference, !elem_of_white_ids, not_elem_of_singleton.
  destruct (decide (x = k)) as [->|Hne].
  - rewrite lookup_insert_eq. naive_solver.
  - rewrite lookup_insert_ne by done. naive_solver.
Qed.

Lemma seen_ids_insert (c : gmap string Color) k col :
  col ≠ WHITE → seen_ids (<[k := col]> c) = {[k]} ∪ seen_ids c.
Proof.
  intros Hcol. apply set_eq. intros x.
  rewrite elem_of_union, !elem_of_seen_ids, elem_of_singleton.
  destruct (decide (x = k)) as [->|Hne].
  - rewrite lookup_insert_eq. naive_solver.
  - rewrite lookup_insert_ne by done. naive_solver.
Qed.

Lemma white_seen_disjoint (c : gmap string Color) x :
  x ∈ white_ids c → x ∉ seen_ids c.
Proof.
  rewrite elem_of_white_ids, elem_of_seen_ids. intros Hx (col & Hx' & Hc).
  congruence.
Qed.

Lemma white_ids_dom (c : gmap string Color) : white_ids c ⊆ dom c.
Proof. intros x Hx%elem_of_white_ids. apply elem_of_dom. eauto. Qed.

Lemma seen_ids_dom (c : gmap string Color) : seen_ids c ⊆ dom c.
Proof. intros x (col & Hx & _)%elem_of_seen_ids. apply elem_of_dom. eauto. Qed.

Lemma size_list_to_set_le (l : list string) :
  size (list_to_set l : gset string) ≤ length l.
Proof.
  induction l as [|x l IH].
  - done.
  - rewrite list_to_set_cons, size_union_alt, size_singleton. simpl.
    pose proof (subseteq_size (list_to_set l ∖ {[x]}) (list_to_set l : gset string)
                  ltac:(set_solver)). lia.
Qed.

Lemma size_node_ids_le g : size (node_ids g) ≤ length (nodes g).
Proof.
  unfold node_ids. etrans; [apply size_list_to_set_le|]. by rewrite length_fmap.
Qed.

Lemma height_mono (seen seen' : gset string) (p p' : gmap string (option string)) x h :
  height seen p x h → seen ⊆ seen' →
  (∀ z, z ∈ seen → p' !! z = p !! z) →
  height seen' p' x h.
Proof.
  intros Hh Hsub Hp. induction Hh as [x Hx Hroot|x y h Hx Hnext _ IH].
  - apply height_root; [by apply Hsub|]. unfold parent_get in *. by rewrite Hp.
  - apply height_step with y; [by apply Hsub| |done].
    unfold parent_get in *. by rewrite Hp.
Qed.

(** The walk along the parent links ends within the height of its
    starting point. *)
Lemma walk_parents_total (seen : gset string) p x h fuel stop cycle :
  height seen p x h → h < fuel → is_Some (walk_parents fuel p stop x cycle).
Proof.
  intros Hh. revert fuel cycle.
  induction Hh as [x Hx Hroot|x y h Hx Hnext _ IH]; intros fuel cycle Hfuel;
    (destruct fuel as [|fuel]; [lia|]); simpl; case_decide; try by eexists.
  - rewrite Hroot. by eexists.
  - rewrite Hnext. apply IH. lia.
Qed.

(** Graying a white node maintains the invariant, whether its parent was
    left unset (a search root) or just set to a node already reached. *)
Lemma dfs_inv_gray g (st : DfsState) (p' : gmap string (option string)) s :
  dfs_inv g st →
  colors st !! s = Some WHITE →
  (∀ z, z ≠ s → p' !! z = parent st !! z) →
  (truthy (parent_get p' s) = None
   ∨ ∃ i, truthy (parent_get p' s) = Some i ∧ i ∈ seen_ids (colors st)) →
  dfs_inv g (mkDfsState (<[s := GRAY]> (colors st)) p').
Proof.
  intros (Hdom & Hwhite & Hseen) Hs Hp' Hps.
  assert (s ∈ white_ids (colors st)) as Hsw by by apply elem_of_white_ids.
  pose proof (white_seen_disjoint _ _ Hsw) as Hns.
  split; [|split]; simpl.
  - rewrite dom_insert_L, Hdom. apply white_ids_dom in Hsw. set_solver.
  - intros x. rewrite white_ids_insert by done.
    intros [Hx Hne%not_elem_of_singleton]%elem_of_difference.
    unfold parent_get. rewrite Hp' by done. by apply Hwhite.
  - rewrite seen_ids_insert by done.
    assert (size ({[s]} ∪ seen_ids (colors st)) = S (size (seen_ids (colors st))))
      as Hsize.
    { rewrite size_union by set_solver. by rewrite size_singleton. }
    rewrite Hsize.
    assert (∀ x, x ∈ seen_ids (colors st) →
              ∃ h, height ({[s]} ∪ seen_ids (colors st)) p' x h
                   ∧ h < size (seen_ids (colors st))) as Hold.
    { intros x Hx. destruct (Hseen x Hx) as (h & Hh & Hlt).
      exists h. split; [|done].
      eapply height_mono; [done|set_solver|].
      intros z Hz. apply Hp'. intros ->. done. }
    intros x [->%elem_of_singleton|Hx]%elem_of_union.
    + destruct Hps as [Hroot|(i & Hi & Hiseen)].
      * exists 0. split; [|lia]. apply height_root; [set_solver|done].
      * destruct (Hold i Hiseen) as (h & Hh & Hlt).
        exists (S h). split; [|lia].
        apply height_step with i; [set_solver|done..].
    + destruct (Hold x Hx) as (h & Hh & Hlt). exists h. split; [done|lia].
Qed.

Lemma dfs_inv_black g (st : DfsState) i :
  dfs_inv g st → i ∈ seen_ids (colors st) →
  dfs_inv g (mkDfsState (<[i := BLACK]> (colors st)) (parent st)).
Proof.
  intros (Hdom & Hwhite & Hseen) Hi.
  assert (seen_ids (<[i := BLACK]> (colors st)) = seen_ids (colors st)) as Heq.
  { rewrite seen_ids_insert by done. set_solver. }
  split; [|split]; simpl.
  - rewrite dom_insert_L, Hdom. apply seen_ids_dom in Hi. set_solver.
  - intros x. rewrite white_ids_insert by done. intros Hx. apply Hwhite. set_solver.
  - by rewrite Heq.
Qed.

Section dfs_termination.
Context (g : TaskGraph).

Lemma dfs_successors_total (fuel : nat) (i : string) :
  dfs_returns g fuel →
  ∀ (succs : list TaskNode) (st : DfsState),
    (∀ s, s ∈ succs → node_id s ∈ node_ids g) →
    dfs_inv g st → i ∈ seen_ids (colors st) →
    size (white_ids (colors st)) ≤ fuel →
    ∃ r st',
      dfs_successors (S (length (nodes g))) (dfs fuel g) i st succs = Some (r, st')
      ∧ dfs_inv g st'
      ∧ seen_ids (colors st) ⊆ seen_ids (colors st')
      ∧ white_ids (colors st') ⊆ white_ids (colors st).
Proof.
  intros Hrec succs. induction succs as [|s succs IH]; intros st Hsuccs Hinv Hi Hfuel.
  - simpl. eexists _, _. split; [done|]. split; [by apply dfs_inv_black|]. simpl.
    rewrite seen_ids_insert, white_ids_insert by done. set_solver.
  - pose proof Hinv as (Hdom & Hwhite & Hseen).
    assert (node_id s ∈ dom (colors st)) as [c Hc]%elem_of_dom.
    { rewrite Hdom. apply Hsuccs. by left. }
    assert (∀ s', s' ∈ succs → node_id s' ∈ node_ids g) as Hsuccs'.
    { intros s' Hs'. apply Hsuccs. by right. }
    simpl. rewrite Hc. simpl. destruct c.
    + (* white: recursive call *)
      set (st1 := mkDfsState (colors st) (<[node_id s := Some i]> (parent st))).
      assert (node_id s ∈ white_ids (colors st)) as Hsw by by apply elem_of_white_ids.
      destruct (Hrec st1 (node_id s)) as (r & st2 & Hrun & Hinv2 & Hseen2 & Hwhite2).
      * apply (dfs_inv_gray g st); [done..| |].
        -- intros z Hz. simpl. by rewrite lookup_insert_ne.
        -- unfold parent_get. simpl. rewrite lookup_insert_eq.
           destruct (truthy (Some i)) as [i'|] eqn:Htr; [|by left].
           right. exists i'. split; [done|].
           simpl in Htr. case_decide; [done|]. by injection Htr as <-.
      * simpl. rewrite white_ids_insert by done.
        pose proof (subset_size (white_ids (colors st) ∖ {[node_id s]})
                      (white_ids (colors st)) ltac:(set_solver)). lia.
      * rewrite Hrun. simpl. simpl in Hseen2, Hwhite2.
        rewrite seen_ids_insert in Hseen2 by done.
        rewrite white_ids_insert in Hwhite2 by done.
        assert (∃ r' st', dfs_successors (S (length (nodes g))) (dfs fuel g) i st2 succs
                          = Some (r', st') ∧ dfs_inv g st'
                          ∧ seen_ids (colors st) ⊆ seen_ids (colors st')
                          ∧ white_ids (colors st') ⊆ white_ids (colors st))
          as Hcont.
        { destruct (IH st2) as (r' & st' & ? & ? & ? & ?); [done..|set_solver| |].
          - etrans; [|exact Hfuel]. apply subseteq_size. set_solver.
          - exists r', st'. split; [done|]. split; [done|]. set_solver. }
        destruct r as [[|c0 cycle]|]; [done| |done].
        eexists _, _. split; [done|]. split; [done|]. set_solver.
    + (* gray: a cycle is reported *)
      destruct (Hseen i Hi) as (h & Hh & Hlt).
      destruct (walk_parents_total _ _ _ _ (S (length (nodes g))) (node_id s)
                  [node_id s] Hh) as [cycle Hcycle].
      { pose proof (subseteq_size _ _ (seen_ids_dom (colors st))).
        pose proof (size_node_ids_le g). rewrite Hdom in *. lia. }
      unfold reconstruct_cycle. rewrite Hcycle. simpl.
      eexists _, _. split; [done|]. done.
    + (* black *)
      by apply IH.
Qed.

(** The search ends: every call grays a white node, and [fuel] exceeds
    the number of white nodes. *)
Lemma dfs_total (fuel : nat) : dfs_returns g fuel.
Proof.
  induction fuel as [|fuel IH]; intros st i Hinv Hfuel; [lia|].
  simpl.
  destruct (dfs_successors_total fuel i IH (get_successors g i)
           (mkDfsState (<[i := GRAY]> (colors st)) (parent st)))
    as (r & st' & Hrun & ? & ? & ?).
  - intros s [Hs _]%get_successors_elem. apply node_map_is_Some. eauto.
  - done.
  - simpl. rewrite seen_ids_insert by done. set_solver.
  - simpl. lia.
  - by exists r, st'.
Qed.

End dfs_termination.

(** ** Invariants of the store through the checks *)

Lemma hoare_bind {A B} (P : Store → Prop) (Q : A → Store → Prop)
    (R : B → Store → Prop) (m : M A) (f : A → M B) :
  hoare P m Q → (∀ a, hoare (Q a) (f a) R) → hoare P (m ≫= f) R.
Proof.
  intros Hm Hf s Hs. destruct (Hm s Hs) as (a & s1 & Hrun & Hs1).
  destruct (Hf a s1 Hs1) as (b & s2 & Hrun' & Hs2).
  exists b, s2. split; [|done].
  unfold mbind, M_bind. by rewrite Hrun.
Qed.

Lemma hoare_weaken {A} (P P' : Store → Prop) (Q Q' : A → Store → Prop) (m : M A) :
  hoare P' m Q' → (∀ s, P s → P' s) → (∀ a s, Q' a s → Q a s) → hoare P m Q.
Proof.
  intros Hm HP HQ s Hs. destruct (Hm s (HP s Hs)) as (a & s' & ? & ?).
  exists a, s'. eauto.
Qed.

Lemma foldl_insert_const_lookup {V W} (key : V → string) (w : W) (l : list V)
    (m : gmap string W) k v :
  foldl (λ m x, <[key x := w]> m) m l !! k = Some v → v = w ∨ m !! k = Some v.
Proof.
  revert m. induction l as [|x l IH]; intros m; simpl; [by right|].
  intros [->|H]%IH; [by left|].
  destruct (decide (key x = k)) as [<-|Hne].
  - rewrite lookup_insert_eq in H. left. congruence.
  - rewrite lookup_insert_ne in H by done. by right.
Qed.

Lemma dfs_inv_initial g : dfs_inv g (initial_dfs_state g).
Proof.
  split; [|split]; simpl.
  - rewrite (foldl_insert_dom node_id (λ _, WHITE)). unfold node_ids. set_solver.
  - intros x _. unfold parent_get.
    destruct (foldl _ ∅ (nodes g) !! x) as [o|] eqn:Hx; [|done].
    apply foldl_insert_const_lookup in Hx as [->|Hx]; [done|].
    by rewrite lookup_empty in Hx.
  - intros x (col & Hx & Hcol)%elem_of_seen_ids.
    apply foldl_insert_const_lookup in Hx as [->|Hx]; [done|].
    by rewrite lookup_empty in Hx.
Qed.

Section store_invariant.
(** An invariant of the store that adding an error or a warning to the
    result maintains. *)
Context (I : Store → Prop).
Context (I_error : ∀ s c m i,
  I s → I (mkStore (st_graph s) (add_error c m i (st_result s)))).
Context (I_warning : ∀ s c m i,
  I s → I (mkStore (st_graph s) (add_warning c m i (st_result s)))).

Lemma keeps_ret {A} (a : A) : keeps I (mret a).
Proof. intros s Hs. by exists a, s. Qed.

Lemma keeps_bind {A B} (m : M A) (f : A → M B) :
  keeps I m → (∀ a, keeps I (f a)) → keeps I (m ≫= f).
Proof.
  intros Hm Hf s Hs. destruct (Hm s Hs) as (a & s1 & Hrun & Hs1).
  destruct (Hf a s1 Hs1) as (b & s2 & Hrun' & Hs2).
  exists b, s2. split; [|done].
  unfold mbind, M_bind. by rewrite Hrun.
Qed.

Lemma keeps_read_graph : keeps I read_graph.
Proof. intros s Hs. by exists (st_graph s), s. Qed.

Lemma keeps_read_result : keeps I read_result.
Proof. intros s Hs. by exists (st_result s), s. Qed.

Lemma keeps_add_error c m i : keeps I (result_add_error c m i).
Proof. intros s Hs. eexists _, _. split; [done|]. by apply I_error. Qed.

Lemma keeps_add_warning c m i : keeps I (result_add_warning c m i).
Proof. intros s Hs. eexists _, _. split; [done|]. by apply I_warning. Qed.

Lemma keeps_lift_option {A} (o : option A) : is_Some o → keeps I (lift_option o).
Proof. intros [a ->] s Hs. by exists a, s. Qed.

Lemma keeps_for_each {A} (body : A → M unit) (xs : list A) :
  (∀ x, keeps I (body x)) → keeps I (for_each body xs).
Proof.
  intros Hbody. induction xs as [|x xs IH]; simpl.
  - apply keeps_ret.
  - apply keeps_bind; [apply Hbody|]. by intros _.
Qed.

Ltac keeps_step :=
  first
    [ apply keeps_ret
    | apply keeps_read_graph
    | apply keeps_read_result
    | apply keeps_add_error
    | apply keeps_add_warning
    | apply keeps_bind; [|intros ?]
    | apply keeps_for_each; intros ?
    | match goal with
      | |- keeps _ (match ?x with _ => _ end) => destruct x
      end ].

Ltac keeps_auto := repeat keeps_step.

Lemma keeps_check_empty_graph : keeps I _check_empty_graph.
Proof. unfold _check_empty_graph. keeps_auto. Qed.

Lemma keeps_check_start_nodes : keeps I _check_start_nodes.
Proof. unfold _check_start_nodes. keeps_auto. Qed.

Lemma keeps_check_end_nodes : keeps I _check_end_nodes.
Proof. unfold _check_end_nodes. keeps_auto. Qed.

Lemma keeps_check_edge_references : keeps I _check_edge_references.
Proof. unfold _check_edge_references. keeps_auto. Qed.

Lemma keeps_check_decision_nodes : keeps I _check_decision_nodes.
Proof. unfold _check_decision_nodes. keeps_auto. Qed.

Lemma keeps_check_orphan_nodes : keeps I _check_orphan_nodes.
Proof. unfold _check_orphan_nodes. keeps_auto. Qed.

Lemma keeps_check_node_names : keeps I _check_node_names.
Proof. unfold _check_node_names. keeps_auto. Qed.

Lemma keeps_report_cycle g cycle : keeps I (report_cycle g cycle).
Proof. unfold report_cycle. keeps_auto. Qed.


Lemma keeps_lift_bind {A B} (o : option A) (a : A) (f : A → M B) :
  o = Some a → keeps I (f a) → keeps I (lift_option o ≫= f).
Proof.
  intros -> Hf s Hs. destruct (Hf s Hs) as (b & s' & Hrun & Hs').
  by exists b, s'.
Qed.

Lemma keeps_check_connectivity : keeps I _check_connectivity.
Proof.
  unfold _check_connectivity. apply keeps_bind; [apply keeps_read_graph|].
  intros graph. destruct (get_start_node graph) as [start_node|]; [|apply keeps_ret].
  destruct (check_connectivity_bfs_total graph (node_id start_node)) as [v Hv].
  apply keeps_lift_bind with v; [done|]. keeps_auto.
Qed.

Lemma keeps_check_cycles_loop g (ns : list TaskNode) :
  ∀ st, (∀ n, n ∈ ns → node_id n ∈ node_ids g) → dfs_inv g st →
        keeps I (check_cycles_loop g st ns).
Proof.
  induction ns as [|n ns IH]; intros st Hns Hinv; simpl; [apply keeps_ret|].
  pose proof Hinv as (Hdom & Hwhite & _).
  assert (node_id n ∈ dom (colors st)) as [c Hc]%elem_of_dom.
  { rewrite Hdom. apply Hns. by left. }
  assert (∀ n', n' ∈ ns → node_id n' ∈ node_ids g) as Hns'.
  { intros n' Hn'. apply Hns. by right. }
  apply keeps_lift_bind with c; [done|].
  case_decide as Hw; [subst c|by apply IH].
  assert (node_id n ∈ white_ids (colors st)) as Hnw by by apply elem_of_white_ids.
  destruct (dfs_total g (dfs_fuel g) st (node_id n))
    as (r & st' & Hrun & Hinv' & _ & _).
  - apply dfs_inv_gray; [done..|]. left. by apply Hwhite.
  - rewrite white_ids_insert by done. unfold dfs_fuel.
    pose proof (subset_size (white_ids (colors st) ∖ {[node_id n]})
                  (white_ids (colors st)) ltac:(set_solver)).
    pose proof (subseteq_size _ _ (white_ids_dom (colors st))).
    pose proof (size_node_ids_le g). rewrite Hdom in *. lia.
  - apply keeps_lift_bind with (r, st'); [done|].
    apply keeps_bind; [|intros _; by apply IH].
    destruct r as [[|c0 cycle]|]; [apply keeps_ret|apply keeps_report_cycle|apply keeps_ret].
Qed.

Lemma keeps_check_cycles : keeps I _check_cycles.
Proof.
  unfold _check_cycles. apply keeps_bind; [apply keeps_read_graph|].
  intros graph. apply keeps_check_cycles_loop; [|apply dfs_inv_initial].
  intros n Hn. apply node_ids_elem. eauto.
Qed.

(** [validate] returns, maintains the invariant, and returns the result
    object of the final store. *)
Lemma run_checks_keeps :
  hoare I run_checks (λ r s', I s' ∧ r = st_result s').
Proof.
  unfold run_checks.
  apply hoare_bind with (Q := λ _ s, I s); [apply keeps_check_empty_graph|].
  intros _.
  apply hoare_bind with (Q := λ r s, I s ∧ r = st_result s).
  { intros s Hs. by exists (st_result s), s. }
  intros r. destruct (negb (valid r)).
  { intros s Hs. by exists r, s. }
  eapply hoare_weaken with (P' := I) (Q' := λ r s', I s' ∧ r = st_result s');
    [|by intros s [? _]|done].
  repeat (apply hoare_bind with (Q := λ _ s, I s); [|intros _]).
  - apply keeps_check_start_nodes.
  - apply keeps_check_end_nodes.
  - apply keeps_check_edge_references.
  - apply keeps_check_decision_nodes.
  - apply keeps_check_orphan_nodes.
  - apply keeps_check_connectivity.
  - apply keeps_check_cycles.
  - apply keeps_check_node_names.
  - intros s Hs. by exists (st_result s), s.
Qed.

End store_invariant.

(** ** The validation result and the graph *)

(** C8. [validate] returns on every graph, and in its result [valid] is
    true exactly when the error list is empty; adding a warning changes
    neither [valid] nor the errors, and adding an error makes [valid]
    false. *)
Theorem validate_valid_iff_no_errors (g : TaskGraph) :
  (∃ r g', validate g = Some (r, g') ∧ (valid r = true ↔ errors r = []))
  ∧ (∀ r c m i, valid (add_warning c m i r) = valid r
                ∧ errors (add_warning c m i r) = errors r)
  ∧ (∀ r c m i, valid (add_error c m i r) = false
                ∧ errors (add_error c m i r) ≠ []).
Proof.
  split; [|split].
  - destruct (run_checks_keeps (λ s, valid_iff_no_errors (st_result s)))
      with (s := mkStore g new_result) as (r & s' & Hrun & Hinv & ->).
    + intros s c m i _. simpl. split; [done|]. by intros [_ ?]%app_nil.
    + intros s c m i H. exact H.
    + done.
    + exists (st_result s'), (st_graph s'). unfold validate. by rewrite Hrun.
  - done.
  - intros r c m i. split; [done|]. simpl. by intros [_ ?]%app_nil.
Qed.

(** C9. [validate] returns on every graph and leaves the graph object as
    it found it: nodes, edges and metadata are those of the argument. *)
Theorem validate_leaves_graph_unchanged (g : TaskGraph) :
  ∃ r, validate g = Some (r, g).
Proof.
  destruct (run_checks_keeps (λ s, st_graph s = g))
    with (s := mkStore g new_result) as (r & s' & Hrun & Hinv & _);
    [done..|].
  exists r. unfold validate. by rewrite Hrun, Hinv.
Qed.

(** ** The level computation returns *)

Lemma get_predecessors_ids g i p :
  p ∈ get_predecessors g i → node_id p ∈ node_ids g.
Proof. intros [Hp _]%get_predecessors_elem. apply node_map_is_Some. eauto. Qed.

Lemma max_levels_from_total
    (rec : gmap string nat → string → option (nat * gmap string nat))
    (preds : list TaskNode) :
  (∀ levels p, p ∈ preds → is_Some (rec levels (node_id p))) →
  ∀ best levels, is_Some (max_levels_from rec best levels preds).
Proof.
  induction preds as [|p preds IH]; intros Hrec best levels; simpl; [by eexists|].
  destruct (Hrec levels p) as [[l levels'] Hrun]; [by left|].
  rewrite Hrun. simpl. apply IH. intros ???. apply Hrec. by right.
Qed.

(** A call on a node of the graph returns as soon as the fuel exceeds
    the number of nodes not yet on the current branch. *)
Lemma calculate_level_total g (fuel : nat) :
  ∀ visited levels i,
    i ∈ node_ids g → size (node_ids g ∖ visited) < fuel →
    is_Some (calculate_level fuel g visited levels i).
Proof.
  induction fuel as [|fuel IH]; intros visited levels i Hi Hfuel; [lia|].
  simpl. destruct (levels !! i); [by eexists|].
  case_decide as Hvis; [by eexists|].
  destruct (get_predecessors g i) as [|p preds] eqn:Hpreds; [by eexists|].
  assert (∀ levels' q, q ∈ p :: preds →
            is_Some (calculate_level fuel g ({[i]} ∪ visited) levels' (node_id q)))
    as Hrec.
  { intros levels' q Hq. apply IH.
    - apply (get_predecessors_ids g i). by rewrite Hpreds.
    - pose proof (subset_size (node_ids g ∖ ({[i]} ∪ visited))
                    (node_ids g ∖ visited) ltac:(set_solver)). lia. }
  unfold max_levels.
  destruct (Hrec levels p) as [[l levels1] Hrun]; [by left|].
  rewrite Hrun. simpl.
  destruct (max_levels_from_total (calculate_level fuel g ({[i]} ∪ visited)) preds)
    with (best := l) (levels := levels1) as [[m levels2] Hloop].
  { intros ???. apply Hrec. by right. }
  rewrite Hloop. by eexists.
Qed.

Lemma calculate_levels_total g (ns : list TaskNode) :
  (∀ n, n ∈ ns → node_id n ∈ node_ids g) →
  ∀ levels, is_Some (calculate_levels g levels ns).
Proof.
  induction ns as [|n ns IH]; intros Hns levels; cbn [calculate_levels];
    [by eexists|].
  destruct (calculate_level_total g (level_fuel g) ∅ levels (node_id n))
    as [[l levels'] Hrun].
  - apply Hns. by left.
  - unfold level_fuel. pose proof (size_node_ids_le g).
    pose proof (subseteq_size (node_ids g ∖ ∅) (node_ids g) ltac:(set_solver)). lia.
  - rewrite Hrun. simpl. apply IH. intros ??. apply Hns. by right.
Qed.

Lemma node_levels_total g : is_Some (node_levels g).
Proof.
  apply calculate_levels_total. intros n Hn. apply node_ids_elem. eauto.
Qed.

Lemma sorted_keys_elem (level_groups : gmap nat (list TaskNode)) k :
  k ∈ sorted_keys level_groups ↔ is_Some (level_groups !! k).
Proof.
  unfold sorted_keys. rewrite merge_sort_Permutation, elem_of_elements.
  apply elem_of_dom.
Qed.

(** [get_parallel_groups] returns on every graph, cyclic or not. *)
Lemma get_parallel_groups_total g : is_Some (get_parallel_groups g).
Proof.
  unfold get_parallel_groups.
  destruct (node_levels_total g) as [levels ->]. simpl.
  apply mapM_is_Some, Forall_forall. intros k Hk. by apply sorted_keys_elem.
Qed.

(** ** The level dictionary only grows *)

Lemma extends_outside_refl visited levels : extends_outside visited levels levels.
Proof. by split. Qed.

Lemma extends_outside_trans visited l1 l2 l3 :
  extends_outside visited l1 l2 → extends_outside visited l2 l3 →
  extends_outside visited l1 l3.
Proof. intros [? ?] [? ?]. split; [by etrans|auto]. Qed.

Lemma extends_outside_mono visited visited' l1 l2 :
  visited ⊆ visited' → extends_outside visited' l1 l2 →
  extends_outside visited l1 l2.
Proof. intros ? [? ?]. split; [done|]. auto. Qed.

Lemma max_levels_from_extends
    (rec : gmap string nat → string → option (nat * gmap string nat))
    (visited : gset string) :
  (∀ levels i l levels', rec levels i = Some (l, levels') →
     extends_outside visited levels levels') →
  ∀ preds best levels m levels',
    max_levels_from rec best levels preds = Some (m, levels') →
    extends_outside visited levels levels'.
Proof.
  intros Hrec preds.
  induction preds as [|p preds IH]; intros best levels m levels' Hrun; simpl in Hrun.
  - injection Hrun as <- <-. apply extends_outside_refl.
  - destruct (rec levels (node_id p)) as [[l levels1]|] eqn:Hp; [|done].
    simpl in Hrun. eapply extends_outside_trans; eauto.
Qed.

Lemma calculate_level_extends g (fuel : nat) :
  ∀ visited levels i l levels',
    calculate_level fuel g visited levels i = Some (l, levels') →
    extends_outside visited levels levels'.
Proof.
  induction fuel as [|fuel IH]; intros visited levels i l levels' Hrun; [done|].
  simpl in Hrun. destruct (levels !! i) eqn:Hi.
  { injection Hrun as <- <-. apply extends_outside_refl. }
  case_decide as Hvis.
  { injection Hrun as <- <-. apply extends_outside_refl. }
  destruct (get_predecessors g i) as [|p preds] eqn:Hpreds.
  { injection Hrun as <- <-. split; [by apply insert_subseteq|].
    intros v Hv Hnone. rewrite lookup_insert_ne; [done|]. by intros ->. }
  unfold max_levels in Hrun.
  destruct (calculate_level fuel g ({[i]} ∪ visited) levels (node_id p))
    as [[l1 levels1]|] eqn:Hp; [|done].
  simpl in Hrun.
  destruct (max_levels_from _ l1 levels1 preds) as [[m levels2]|] eqn:Hloop; [|done].
  injection Hrun as <- <-.
  assert (extends_outside ({[i]} ∪ visited) levels levels2) as [Hsub Hframe].
  { eapply extends_outside_trans; [by eapply IH|].
    eapply max_levels_from_extends; [|done]. intros ????. apply IH. }
  split.
  - etrans; [done|]. apply insert_subseteq. apply Hframe; [set_solver|done].
  - intros v Hv Hnone. rewrite lookup_insert_ne by (by intros ->).
    apply Hframe; [set_solver|done].
Qed.

Lemma calculate_levels_extends g (ns : list TaskNode) :
  ∀ levels levels', calculate_levels g levels ns = Some levels' → levels ⊆ levels'.
Proof.
  induction ns as [|n ns IH]; intros levels levels' Hrun;
    cbn [calculate_levels] in Hrun.
  - by injection Hrun as <-.
  - destruct (calculate_level _ g ∅ levels (node_id n)) as [[l levels1]|] eqn:Hn;
      [|done].
    simpl in Hrun. apply calculate_level_extends in Hn as [? _].
    etrans; [done|]. by apply IH.
Qed.

(** ** Grouping by level *)

Lemma group_by_level_lookup levels (ns : list TaskNode) k :
  group_by_level levels ns !! k = nonempty (nodes_of_level levels ns k).
Proof.
  unfold group_by_level, nodes_of_level.
  induction ns as [|n ns IH] using rev_ind; [done|].
  rewrite foldl_app, filter_app. simpl. fold (level_of levels n).
  rewrite filter_cons, filter_nil.
  destruct (decide (level_of levels n = k)) as [<-|Hne].
  - rewrite lookup_insert_eq, IH.
    destruct (filter _ ns) as [|x xs]; simpl; [done|].
    by destruct (xs ++ [n]) eqn:?; [destruct xs|].
  - rewrite lookup_insert_ne, IH by done. by rewrite app_nil_r.
Qed.

Lemma nonempty_is_Some {A} (l : list A) : is_Some (nonempty l) ↔ l ≠ [].
Proof. destruct l; simpl; split; try done; by intros [? ?]. Qed.

Lemma nonempty_Some {A} (l l' : list A) : nonempty l = Some l' ↔ l' = l ∧ l ≠ [].
Proof. destruct l; simpl; split; try naive_solver. Qed.

(** The keys are the levels that some node has. *)
Lemma sorted_keys_levels levels (ns : list TaskNode) k :
  k ∈ sorted_keys (group_by_level levels ns) ↔ ∃ n, n ∈ ns ∧ level_of levels n = k.
Proof.
  rewrite sorted_keys_elem, group_by_level_lookup, nonempty_is_Some.
  unfold nodes_of_level. split.
  - intros Hne. destruct (filter _ ns) as [|n l] eqn:Hf; [done|].
    assert (n ∈ filter (λ n, level_of levels n = k) ns) as Hn
      by (rewrite Hf; by left).
    apply list_elem_of_filter in Hn as [? ?]. eauto.
  - intros (n & Hn & Hk) Hnil.
    assert (n ∈ filter (λ n, level_of levels n = k) ns) as Hin
      by by apply list_elem_of_filter.
    rewrite Hnil in Hin. by apply elem_of_nil in Hin.
Qed.

Lemma sorted_keys_sorted (level_groups : gmap nat (list TaskNode)) :
  StronglySorted Nat.le (sorted_keys level_groups)
  ∧ NoDup (sorted_keys level_groups).
Proof.
  unfold sorted_keys. split.
  - apply StronglySorted_merge_sort; apply _.
  - rewrite merge_sort_Permutation. apply NoDup_elements.
Qed.

(** The groups are the nodes of each key, in key order. *)
Lemma get_parallel_groups_by_level g levels :
  node_levels g = Some levels →
  get_parallel_groups g
  = Some (nodes_of_level levels (nodes g)
            <$> sorted_keys (group_by_level levels (nodes g))).
Proof.
  intros Hl. unfold get_parallel_groups. rewrite Hl. simpl.
  apply mapM_Some_2, Forall2_fmap_r, Forall_Forall2_diag, Forall_forall.
  intros k Hk. rewrite group_by_level_lookup. apply nonempty_Some. split; [done|].
  apply nonempty_is_Some. rewrite <- group_by_level_lookup.
  by apply sorted_keys_elem.
Qed.

(** ** Sorted lists of distinct naturals *)

Lemma sorted_lookup_lt (l : list nat) a b x y :
  StronglySorted Nat.le l → NoDup l →
  l !! a = Some x → l !! b = Some y → a < b → x < y.
Proof.
  intros Hs. revert a b. induction Hs as [|z l Hs IH Hall]; intros a b Hnd Ha Hb Hab.
  - done.
  - apply NoDup_cons in Hnd as [Hz Hnd].
    destruct b as [|b]; [lia|]. simpl in Hb.
    destruct a as [|a]; simpl in Ha.
    + injection Ha as ->. apply list_elem_of_lookup_2 in Hb.
      rewrite Forall_forall in Hall. specialize (Hall y Hb).
      assert (x ≠ y) by (by intros ->). unfold Nat.le in *. lia.
    + eapply IH; eauto. lia.
Qed.

Lemma sorted_index_le_value (l : list nat) j x :
  StronglySorted Nat.le l → NoDup l → l !! j = Some x → j ≤ x.
Proof.
  intros Hs Hnd. revert x. induction j as [|j IH]; intros x Hj; [lia|].
  destruct (l !! j) as [x'|] eqn:Hj'.
  - pose proof (sorted_lookup_lt l j (S j) x' x Hs Hnd Hj' Hj ltac:(lia)).
    specialize (IH x' eq_refl). lia.
  - apply lookup_ge_None in Hj'. apply lookup_lt_Some in Hj. lia.
Qed.

(** A value whose predecessors all occur sits at its own index. *)
Lemma sorted_lookup_self (l : list nat) x :
  StronglySorted Nat.le l → NoDup l →
  x ∈ l → (∀ y, y < x → y ∈ l) → l !! x = Some x.
Proof.
  intros Hs Hnd. induction x as [|x IH]; intros Hx Hbelow.
  - apply list_elem_of_lookup in Hx as [j Hj].
    pose proof (sorted_index_le_value l j 0 Hs Hnd Hj).
    by replace j with 0 in Hj by lia.
  - assert (l !! x = Some x) as Hprev.
    { apply IH; [apply Hbelow; lia|]. intros y Hy. apply Hbelow. lia. }
    apply list_elem_of_lookup in Hx as [j Hj].
    pose proof (sorted_index_le_value l j (S x) Hs Hnd Hj).
    destruct (decide (j ≤ x)) as [Hle|Hgt].
    + destruct (decide (j = x)) as [->|Hne]; [congruence|].
      pose proof (sorted_lookup_lt l j x (S x) x Hs Hnd Hj Hprev ltac:(lia)). lia.
    + by replace j with (S x) in Hj by lia.
Qed.

(** The least value sits at index 0. *)
Lemma sorted_lookup_least (l : list nat) x :
  StronglySorted Nat.le l → NoDup l →
  x ∈ l → (∀ y, y < x → y ∉ l) → l !! 0 = Some x.
Proof.
  intros Hs Hnd Hx Hleast.
  apply list_elem_of_lookup in Hx as [j Hj].
  destruct j as [|j]; [done|].
  destruct (l !! 0) as [y|] eqn:H0.
  - pose proof (sorted_lookup_lt l 0 (S j) y x Hs Hnd H0 Hj ltac:(lia)).
    exfalso. apply (Hleast y); [done|]. by apply list_elem_of_lookup_2 in H0.
  - apply lookup_ge_None in H0. apply lookup_lt_Some in Hj. lia.
Qed.

(** ** A node whose incoming edges are all self-loops *)

Section self_loop.
Context (g : TaskGraph) (a : string).
Context (Ha : a ∈ node_ids g) (Hloops : only_self_loops g a).

Lemma self_loop_predecessors :
  get_predecessors g a ≠ []
  ∧ ∀ p, p ∈ get_predecessors g a → node_id p = a.
Proof.
  destruct Hloops as [Hne Hself]. split.
  - destruct (get_incoming_edges g a) as [|e es] eqn:Hin; [done|].
    apply node_map_is_Some in Ha as [na Hna].
    assert (source_id e = a) as Hsrc by (apply Hself; by left).
    unfold get_predecessors. rewrite Hin. cbn. rewrite Hsrc, Hna. done.
  - intros p (Hp & e & He & Hs & Ht)%get_predecessors_elem.
    rewrite <- Hs. apply Hself. unfold get_incoming_edges.
    by apply list_elem_of_filter.
Qed.

Lemma calculate_level_revisit (fuel : nat) (visited : gset string) levels :
  levels !! a = None → a ∈ visited →
  calculate_level (S fuel) g visited levels a = Some (0, levels).
Proof. intros Hnone Hvis. cbn. by rewrite Hnone, decide_True. Qed.

Lemma self_loop_inner_calls (fuel : nat) (visited : gset string)
    (preds : list TaskNode) :
  a ∈ visited → (∀ p, p ∈ preds → node_id p = a) →
  ∀ best levels, levels !! a = None →
    max_levels_from (calculate_level (S fuel) g visited) best levels preds
    = Some (best, levels).
Proof.
  intros Hvis. induction preds as [|p preds IH]; intros Hpreds best levels Hnone;
    [done|].
  cbn [max_levels_from]. rewrite (Hpreds p) by by left.
  rewrite calculate_level_revisit by done. cbn [mbind option_bind].
  rewrite Nat.max_0_r. apply IH; [|done]. intros ??. apply Hpreds. by right.
Qed.

(** The first call on the node that is not a revisit gives it level 1. *)
Lemma self_loop_first_call (fuel : nat) visited levels l levels' :
  calculate_level fuel g visited levels a = Some (l, levels') →
  levels !! a = None → a ∉ visited →
  l = 1 ∧ levels' = <[a := 1]> levels.
Proof.
  intros Hrun Hnone Hvis. destruct fuel as [|fuel]; [done|].
  cbn [calculate_level] in Hrun. rewrite Hnone, decide_False in Hrun by done.
  destruct self_loop_predecessors as [Hne Hids].
  destruct (get_predecessors g a) as [|p preds]; [done|].
  unfold max_levels in Hrun. rewrite (Hids p) in Hrun by by left.
  destruct fuel as [|fuel]; [done|].
  rewrite calculate_level_revisit in Hrun by (done || set_solver).
  cbn [mbind option_bind] in Hrun.
  rewrite self_loop_inner_calls in Hrun; [|set_solver| |done].
  - cbn in Hrun. by injection Hrun as <- <-.
  - intros ??. apply Hids. by right.
Qed.

Lemma self_loop_loop_invariant
    (rec : gmap string nat → string → option (nat * gmap string nat)) :
  (∀ levels i l levels', rec levels i = Some (l, levels') →
     levels !! a = None ∨ levels !! a = Some 1 →
     levels' !! a = None ∨ levels' !! a = Some 1) →
  ∀ preds best levels m levels',
    max_levels_from rec best levels preds = Some (m, levels') →
    levels !! a = None ∨ levels !! a = Some 1 →
    levels' !! a = None ∨ levels' !! a = Some 1.
Proof.
  intros Hrec preds.
  induction preds as [|p preds IH]; intros best levels m levels' Hrun Hinv;
    simpl in Hrun.
  - by injection Hrun as <- <-.
  - destruct (rec levels (node_id p)) as [[l levels1]|] eqn:Hp; [|done].
    simpl in Hrun. eauto.
Qed.

(** Through every call the entry of the node is absent or 1. *)
Lemma self_loop_invariant (fuel : nat) :
  ∀ visited levels i l levels',
    calculate_level fuel g visited levels i = Some (l, levels') →
    levels !! a = None ∨ levels !! a = Some 1 →
    levels' !! a = None ∨ levels' !! a = Some 1.
Proof.
  induction fuel as [|fuel IH]; intros visited levels i l levels' Hrun Hinv; [done|].
  destruct (decide (i = a)) as [->|Hia].
  - destruct Hinv as [Hnone|Hone].
    + destruct (decide (a ∈ visited)) as [Hvis|Hvis].
      * cbn [calculate_level] in Hrun. rewrite Hnone, decide_True in Hrun by done.
        injection Hrun as <- <-. by left.
      * apply self_loop_first_call in Hrun as [_ ->]; [|done..].
        right. apply lookup_insert_eq.
    + cbn [calculate_level] in Hrun. rewrite Hone in Hrun.
      injection Hrun as <- <-. by right.
  - cbn [calculate_level] in Hrun. destruct (levels !! i) eqn:Hi.
    { by injection Hrun as <- <-. }
    case_decide.
    { by injection Hrun as <- <-. }
    destruct (get_predecessors g i) as [|p preds].
    { injection Hrun as <- <-. by rewrite lookup_insert_ne. }
    unfold max_levels in Hrun.
    destruct (calculate_level fuel g _ levels (node_id p)) as [[l1 levels1]|] eqn:Hp;
      [|done].
    simpl in Hrun.
    destruct (max_levels_from _ l1 levels1 preds) as [[m levels2]|] eqn:Hloop;
      [|done].
    injection Hrun as <- <-. rewrite lookup_insert_ne by done.
    eapply self_loop_loop_invariant; [|done|by eapply IH].
    intros ????. apply IH.
Qed.

Lemma self_loop_levels (ns : list TaskNode) :
  ∀ levels levels',
    calculate_levels g levels ns = Some levels' →
    levels !! a = None ∨ levels !! a = Some 1 →
    (levels' !! a = None ∨ levels' !! a = Some 1)
    ∧ (a ∈ node_id <$> ns → levels' !! a = Some 1).
Proof.
  induction ns as [|n ns IH]; intros levels levels' Hrun Hinv;
    cbn [calculate_levels] in Hrun.
  - injection Hrun as <-. split; [done|]. intros H. by apply elem_of_nil in H.
  - destruct (calculate_level _ g ∅ levels (node_id n)) as [[l levels1]|] eqn:Hn;
      [|done].
    simpl in Hrun.
    pose proof (self_loop_invariant _ _ _ _ _ _ Hn Hinv) as Hinv1.
    destruct (IH _ _ Hrun Hinv1) as [Hinv' Hin']. split; [done|].
    rewrite fmap_cons. intros [Heq|Hin]%elem_of_cons; [|by apply Hin'].
    assert (levels1 !! a = Some 1) as Hone.
    { destruct Hinv as [Hnone|Hone].
      - rewrite <- Heq in Hn.
        apply self_loop_first_call in Hn as [_ ->]; [|done|set_solver].
        apply lookup_insert_eq.
      - apply calculate_level_extends in Hn as [Hsub _].
        by eapply lookup_weaken. }
    apply calculate_levels_extends in Hrun. by eapply lookup_weaken.
Qed.

End self_loop.

(** C5, amended. [get_parallel_groups] returns on every graph, cyclic or
    not.  A revisited node contributes level 0 to the maximum taken by its
    caller, so a node whose incoming edges are all self-loops is assigned
    level 0 + 1 = 1; it is placed in the group of the level-1 nodes, which
    is group 1 when some node has level 0 and group 0 otherwise. *)
Theorem parallel_groups_total_self_loop_level_one :
  (∀ g, is_Some (get_parallel_groups g))
  ∧ (∀ g n, n ∈ nodes g → only_self_loops g (node_id n) →
       ∃ levels groups group,
         node_levels g = Some levels
         ∧ levels !! node_id n = Some 1
         ∧ get_parallel_groups g = Some groups
         ∧ groups !! (if decide (0 ∈ level_of levels <$> nodes g) then 1 else 0)
           = Some group
         ∧ n ∈ group).
Proof.
  split; [apply get_parallel_groups_total|].
  intros g n Hn Hloops.
  destruct (node_levels_total g) as [levels Hlevels].
  assert (levels !! node_id n = Some 1) as Hone.
  { eapply (self_loop_levels g (node_id n)); [|done|exact Hlevels|by left|].
    - apply node_ids_elem. eauto.
    - apply list_elem_of_fmap. eauto. }
  assert (level_of levels n = 1) as Hlevel by (unfold level_of; by rewrite Hone).
  set (keys := sorted_keys (group_by_level levels (nodes g))).
  destruct (sorted_keys_sorted (group_by_level levels (nodes g))) as [Hs Hnd].
  assert (1 ∈ keys) as H1 by (apply sorted_keys_levels; eauto).
  assert (n ∈ nodes_of_level levels (nodes g) 1) as Hgroup
    by by apply list_elem_of_filter.
  exists levels, (nodes_of_level levels (nodes g) <$> keys),
         (nodes_of_level levels (nodes g) 1).
  split; [done|]. split; [done|].
  split; [by apply get_parallel_groups_by_level|]. split; [|done].
  rewrite list_lookup_fmap. case_decide as H0.
  - assert (0 ∈ keys) as H0'.
    { apply sorted_keys_levels. apply list_elem_of_fmap in H0 as (m & ? & ?). eauto. }
    rewrite (sorted_lookup_self keys 1); [done..|].
    intros y Hy. by replace y with 0 by lia.
  - rewrite (sorted_lookup_least keys 1); [done..|].
    intros y Hy Hin. replace y with 0 in Hin by lia.
    apply sorted_keys_levels in Hin as (m & ? & ?).
    apply H0, list_elem_of_fmap. eauto.
Qed.

Lemma parallel_groups_total_self_loop_level_one_witness :
  ∃ levels groups group,
    node_levels self_loop_graph = Some levels
    ∧ levels !! "a" = Some 1
    ∧ get_parallel_groups self_loop_graph = Some groups
    ∧ groups !! (if decide (0 ∈ level_of levels <$> nodes self_loop_graph)
                 then 1 else 0) = Some group
    ∧ plain_node "a" "Retry" PROCESS ∈ group.
Proof.
  apply (proj2 parallel_groups_total_self_loop_level_one self_loop_graph
           (plain_node "a" "Retry" PROCESS)).
  - right. left.
  - split.
    + vm_compute. discriminate.
    + intros e He. vm_compute in He.
      apply elem_of_cons in He as [->|He]; [reflexivity|].
      by apply elem_of_nil in He.
Defined.

(** ** Levels of an acyclic graph *)

Lemma entry_ok_weaken g (levels levels' : gmap string nat) i k :
  levels ⊆ levels' → entry_ok g levels i k → entry_ok g levels' i k.
Proof.
  intros Hsub (Hi & H0 & Hmax & Hall). split; [done|]. split; [done|]. split.
  - intros Hne. destruct (Hmax Hne) as (p & j & ? & ? & ?).
    exists p, j. eauto using lookup_weaken.
  - intros p Hp. destruct (Hall p Hp) as (j & ? & ?).
    exists j. eauto using lookup_weaken.
Qed.

Lemma levels_closed_insert g (levels : gmap string nat) i k :
  levels_closed g levels → levels !! i = None → entry_ok g levels i k →
  levels_closed g (<[i := k]> levels).
Proof.
  intros Hclosed Hnone Hentry i' k' Hi'.
  assert (levels ⊆ <[i := k]> levels) as Hsub by by apply insert_subseteq.
  destruct (decide (i' = i)) as [->|Hne].
  - rewrite lookup_insert_eq in Hi'. injection Hi' as <-.
    by apply (entry_ok_weaken g levels).
  - rewrite lookup_insert_ne in Hi' by done.
    apply (entry_ok_weaken g levels); [done|]. by apply Hclosed.
Qed.

Lemma predecessor_edge g i p :
  i ∈ node_ids g → p ∈ get_predecessors g i → edge_between g (node_id p) i.
Proof.
  intros Hi Hp. split; [by eapply get_predecessors_ids|]. split; [done|].
  apply get_predecessors_elem in Hp as (_ & e & ? & ? & ?). eauto.
Qed.

Lemma edge_predecessor g u i :
  edge_between g u i → ∃ p, p ∈ get_predecessors g i ∧ node_id p = u.
Proof.
  intros (Hu & _ & e & He & Hs & Ht).
  apply node_map_is_Some in Hu as [p Hp].
  pose proof Hp as [_ Hid]%node_map_lookup_Some.
  exists p. split; [|done]. apply get_predecessors_elem.
  rewrite Hid. split; [done|]. eauto.
Qed.

(** What the loop over the predecessors leaves behind. *)
Lemma max_levels_from_closed g
    (rec : gmap string nat → string → option (nat * gmap string nat))
    (preds : list TaskNode) :
  (∀ levels p l levels', p ∈ preds → rec levels (node_id p) = Some (l, levels') →
     levels_closed g levels →
     levels_closed g levels' ∧ levels' !! node_id p = Some l ∧ levels ⊆ levels') →
  ∀ best levels m levels',
    max_levels_from rec best levels preds = Some (m, levels') →
    levels_closed g levels →
    levels_closed g levels' ∧ levels ⊆ levels' ∧ best ≤ m
    ∧ (∀ p, p ∈ preds → ∃ j, levels' !! node_id p = Some j ∧ j ≤ m)
    ∧ (m = best ∨ ∃ p, p ∈ preds ∧ levels' !! node_id p = Some m).
Proof.
  induction preds as [|p preds IH]; intros Hrec best levels m levels' Hrun Hclosed;
    simpl in Hrun.
  - injection Hrun as <- <-. split; [done|]. split; [done|]. split; [done|].
    split; [|by left]. intros p Hp. by apply elem_of_nil in Hp.
  - destruct (rec levels (node_id p)) as [[l levels1]|] eqn:Hp; [|done].
    simpl in Hrun.
    destruct (Hrec levels p l levels1) as (Hclosed1 & Hl & Hsub1); [by left|done..|].
    destruct (IH (λ levels q l levels' Hq, Hrec levels q l levels'
                    (list_elem_of_further _ _ _ Hq))
                 _ _ _ _ Hrun Hclosed1)
      as (Hclosed' & Hsub' & Hbest & Hall & Hmax).
    split; [done|]. split; [by etrans|]. split; [lia|]. split.
    + intros q [->|Hq]%elem_of_cons; [|by apply Hall].
      exists l. split; [by eapply lookup_weaken|lia].
    + destruct Hmax as [->|(q & Hq & Hm)].
      * destruct (Nat.max_spec best l) as [[_ ->]|[_ ->]]; [|by left].
        right. exists p. split; [by left|]. by eapply lookup_weaken.
      * right. exists q. split; [by right|done].
Qed.

Section acyclic_levels.
Context (g : TaskGraph) (Hacyclic : acyclic g).

(** A call on a node leaves a dictionary that obeys the level equations
    and holds the level returned. *)
Lemma calculate_level_closed (fuel : nat) :
  ∀ visited levels i l levels',
    calculate_level fuel g visited levels i = Some (l, levels') →
    i ∈ node_ids g → levels_closed g levels →
    (∀ v, v ∈ visited → tc (edge_between g) i v) →
    levels_closed g levels' ∧ levels' !! i = Some l.
Proof.
  induction fuel as [|fuel IH];
    intros visited levels i l levels' Hrun Hi Hclosed Hbranch; [done|].
  cbn [calculate_level] in Hrun. destruct (levels !! i) as [k|] eqn:Hlook.
  { by injection Hrun as <- <-. }
  case_decide as Hvis.
  { exfalso. apply Hacyclic. exists i. by apply Hbranch. }
  destruct (get_predecessors g i) as [|p preds] eqn:Hpreds.
  { injection Hrun as <- <-. split; [|apply lookup_insert_eq].
    apply levels_closed_insert; [done..|]. unfold entry_ok. rewrite Hpreds.
    split; [done|]. split; [done|]. split; [done|].
    intros q Hq. by apply elem_of_nil in Hq. }
  assert (∀ levels q l levels', q ∈ p :: preds →
            calculate_level fuel g ({[i]} ∪ visited) levels (node_id q)
            = Some (l, levels') →
            levels_closed g levels →
            levels_closed g levels' ∧ levels' !! node_id q = Some l
            ∧ levels ⊆ levels') as Hrec.
  { intros levels0 q l0 levels0' Hq Hcall Hclosed0.
    assert (edge_between g (node_id q) i) as Hedge.
    { apply predecessor_edge; [done|]. by rewrite Hpreds. }
    destruct (IH _ _ _ _ _ Hcall) as [? ?]; [by destruct Hedge|done| |].
    - intros v [->%elem_of_singleton|Hv]%elem_of_union; [by apply tc_once|].
      eapply tc_l; [done|]. by apply Hbranch.
    - split; [done|]. split; [done|]. by apply calculate_level_extends in Hcall as [? _]. }
  unfold max_levels in Hrun.
  destruct (calculate_level fuel g _ levels (node_id p)) as [[l1 levels1]|] eqn:Hp;
    [|done].
  cbn [mbind option_bind] in Hrun.
  destruct (max_levels_from _ l1 levels1 preds) as [[m levels2]|] eqn:Hloop;
    [|done].
  cbn in Hrun. injection Hrun as <- <-.
  destruct (Hrec levels p l1 levels1) as (Hclosed1 & Hl1 & Hsub1); [by left|done..|].
  destruct (max_levels_from_closed g _ preds
              (λ levels q l levels' Hq, Hrec levels q l levels'
                 (list_elem_of_further _ _ _ Hq))
              _ _ _ _ Hloop Hclosed1)
    as (Hclosed2 & Hsub2 & Hbest & Hall & Hmax).
  assert (levels2 !! i = None) as Hnone.
  { assert (extends_outside ({[i]} ∪ visited) levels levels2) as [_ Hframe].
    { eapply extends_outside_trans; [by eapply calculate_level_extends|].
      eapply max_levels_from_extends; [|done].
      intros ????. apply calculate_level_extends. }
    apply Hframe; [set_solver|done]. }
  split; [|apply lookup_insert_eq].
  apply levels_closed_insert; [done..|]. unfold entry_ok. rewrite Hpreds.
  split; [done|]. split; [intros [=]|]. split.
  - intros _. destruct Hmax as [->|(q & Hq & Hm)].
    + exists p, l1. split; [by left|]. split; [by eapply lookup_weaken|lia].
    + exists q, m. split; [by right|]. split; [done|lia].
  - intros q [->|Hq]%elem_of_cons.
    + exists l1. split; [by eapply lookup_weaken|lia].
    + destruct (Hall q Hq) as (j & ? & ?). exists j. split; [done|lia].
Qed.

Lemma calculate_levels_closed (ns : list TaskNode) :
  ∀ levels levels',
    calculate_levels g levels ns = Some levels' →
    (∀ n, n ∈ ns → node_id n ∈ node_ids g) → levels_closed g levels →
    levels_closed g levels' ∧ ∀ n, n ∈ ns → is_Some (levels' !! node_id n).
Proof.
  induction ns as [|n ns IH]; intros levels levels' Hrun Hns Hclosed;
    cbn [calculate_levels] in Hrun.
  - injection Hrun as <-. split; [done|]. intros n Hn. by apply elem_of_nil in Hn.
  - destruct (calculate_level _ g ∅ levels (node_id n)) as [[l levels1]|] eqn:Hn;
      [|done].
    cbn in Hrun.
    destruct (calculate_level_closed _ _ _ _ _ _ Hn) as [Hclosed1 Hl];
      [apply Hns; by left|done|set_solver|].
    destruct (IH _ _ Hrun) as [Hclosed' Hall];
      [intros ??; apply Hns; by right|done|].
    split; [done|]. intros n' [->|Hn']%elem_of_cons; [|by apply Hall].
    exists l. apply calculate_levels_extends in Hrun. by eapply lookup_weaken.
Qed.

(** The dictionary computed for the graph gives every node a level, and
    the levels obey the level equations. *)
Lemma node_levels_equations levels :
  node_levels g = Some levels → level_equations g (level_at levels).
Proof.
  intros Hrun.
  destruct (calculate_levels_closed _ _ _ Hrun) as [Hclosed Hall].
  { intros n Hn. apply node_ids_elem. eauto. }
  { intros i k Hi. by rewrite lookup_empty in Hi. }
  intros i Hi. pose proof Hi as (n & Hn & <-)%node_ids_elem.
  destruct (Hall n Hn) as [k Hk].
  destruct (Hclosed _ _ Hk) as (_ & H0 & Hmax & Hless).
  unfold level_at. rewrite Hk. simpl. split; [|split].
  - intros [_ Hfree]. apply H0.
    destruct (get_predecessors g (node_id n)) as [|p preds] eqn:Hpreds; [done|].
    exfalso. apply (Hfree (node_id p)), predecessor_edge; [done|].
    rewrite Hpreds. by left.
  - intros Hnotfree. destruct Hmax as (p & j & Hp & Hj & ->).
    { intros Hnil. apply Hnotfree. split; [done|].
      intros u (p & Hp & _)%edge_predecessor. rewrite Hnil in Hp.
      by apply elem_of_nil in Hp. }
    exists (node_id p). split; [by apply predecessor_edge|]. by rewrite Hj.
  - intros u (p & Hp & <-)%edge_predecessor.
    destruct (Hless p Hp) as (j & -> & ?). done.
Qed.

End acyclic_levels.

(** ** From the level equations to longest paths *)

Lemma is_walk_snoc g (p : list string) u v :
  is_walk g p → last p = Some u → edge_between g u v → is_walk g (p ++ [v]).
Proof.
  induction p as [|x p IH]; intros Hwalk Hlast Hedge; [done|].
  destruct p as [|y p].
  - simpl in Hlast. injection Hlast as ->. simpl. done.
  - destruct Hwalk as [Hxy Hwalk]. split; [done|]. by apply IH.
Qed.

Section level_paths.
Context (g : TaskGraph) (lv : string → nat) (Hlv : level_equations g lv).

Lemma edge_level_lt u v : edge_between g u v → lv u < lv v.
Proof. intros Hedge. pose proof Hedge as (_ & Hv & _). by apply Hlv. Qed.

(** Along a walk the level grows by at least one per edge. *)
Lemma walk_levels (p : list string) s i :
  is_walk g p → head p = Some s → last p = Some i →
  lv s + length p ≤ S (lv i).
Proof.
  revert s. induction p as [|x p IH]; intros s Hwalk Hhead Hlast; [done|].
  simpl in Hhead. injection Hhead as ->.
  destruct p as [|y p].
  - simpl in Hlast. injection Hlast as ->. simpl. lia.
  - destruct Hwalk as [Hxy Hwalk].
    pose proof (edge_level_lt _ _ Hxy).
    specialize (IH y Hwalk eq_refl Hlast). simpl in *. lia.
Qed.

Lemma predecessor_free_dec i :
  i ∈ node_ids g → predecessor_free g i ∨ ¬ predecessor_free g i.
Proof.
  intros Hi. destruct (get_predecessors g i) as [|p preds] eqn:Hpreds.
  - left. split; [done|]. intros u (p & Hp & _)%edge_predecessor.
    rewrite Hpreds in Hp. by apply elem_of_nil in Hp.
  - right. intros [_ Hfree]. apply (Hfree (node_id p)), predecessor_edge; [done|].
    rewrite Hpreds. by left.
Qed.

(** Every node is reached from a predecessor-free node by a path with as
    many edges as its level. *)
Lemma level_path_exists (k : nat) :
  ∀ i, i ∈ node_ids g → lv i = k →
       ∃ p, path_from_source g p i ∧ length p = S k.
Proof.
  induction k as [|k IH]; intros i Hi Hk.
  - exists [i]. split; [|done]. split; [done|]. split; [done|].
    exists i. split; [done|].
    destruct (predecessor_free_dec i Hi) as [?|Hnot]; [done|].
    destruct (Hlv i Hi) as (_ & Hstep & _).
    destruct (Hstep Hnot) as (u & _ & ?). lia.
  - destruct (predecessor_free_dec i Hi) as [Hfree|Hnot].
    { destruct (Hlv i Hi) as (H0 & _). specialize (H0 Hfree). lia. }
    destruct (Hlv i Hi) as (_ & Hstep & _).
    destruct (Hstep Hnot) as (u & Hedge & Hu).
    destruct (IH u) as (p & (Hwalk & Hlast & s & Hhead & Hs) & Hlen);
      [by destruct Hedge|lia|].
    exists (p ++ [i]). split; [|rewrite length_app; simpl; lia].
    split; [by eapply is_walk_snoc|]. split; [by rewrite last_snoc|].
    exists s. split; [|done]. destruct p; [done|]. done.
Qed.

(** The level of a node is the length of the longest path that leads to
    it from a predecessor-free node. *)
Lemma level_is_longest_path i :
  i ∈ node_ids g → longest_path_level g i (lv i).
Proof.
  intros Hi. split; [by apply level_path_exists|].
  intros p (Hwalk & Hlast & s & Hhead & _).
  pose proof (walk_levels p s i Hwalk Hhead Hlast). lia.
Qed.

(** The levels in use have no gap. *)
Lemma levels_downward_closed i k :
  i ∈ node_ids g → k < lv i → ∃ u, u ∈ node_ids g ∧ lv u = k.
Proof.
  remember (lv i) as m eqn:Hm. revert i Hm.
  induction m as [|m IH]; intros i Hm Hi Hk; [lia|].
  destruct (predecessor_free_dec i Hi) as [Hfree|Hnot].
  { destruct (Hlv i Hi) as (H0 & _). specialize (H0 Hfree). lia. }
  destruct (Hlv i Hi) as (_ & Hstep & _).
  destruct (Hstep Hnot) as (u & Hedge & Hu).
  assert (u ∈ node_ids g) as Hu' by by destruct Hedge.
  destruct (decide (k = m)) as [->|Hne].
  - exists u. split; [done|]. lia.
  - apply (IH u); [lia|done|lia].
Qed.

End level_paths.

Lemma ranked_graph_acyclic g (rank : string → nat) :
  (∀ u v, edge_between g u v → rank u < rank v) → acyclic g.
Proof.
  intros Hrank [v Hv].
  assert (∀ x y, tc (edge_between g) x y → rank x < rank y) as Htc.
  { intros x y Hxy. induction Hxy as [x y Hxy|x y z Hxy _ IH].
    - by apply Hrank.
    - specialize (Hrank _ _ Hxy). lia. }
  specialize (Htc v v Hv). lia.
Qed.

Lemma chain_graph_acyclic : acyclic chain_graph.
Proof.
  apply (ranked_graph_acyclic _ chain_rank).
  intros u v (_ & _ & e & He & <- & <-). simpl in He.
  edge_cases He; vm_compute; lia.
Qed.

Lemma sorted_keys_contiguous g levels :
  level_equations g (level_at levels) →
  ∀ x, x ∈ sorted_keys (group_by_level levels (nodes g)) →
       sorted_keys (group_by_level levels (nodes g)) !! x = Some x.
Proof.
  intros Hlv x Hx.
  destruct (sorted_keys_sorted (group_by_level levels (nodes g))) as [Hs Hnd].
  apply sorted_lookup_self; [done..|].
  intros y Hy. apply sorted_keys_levels in Hx as (n & Hn & Hlevel).
  destruct (levels_downward_closed g _ Hlv (node_id n) y) as (u & Hu & Hlu).
  - apply node_ids_elem. eauto.
  - unfold level_of in Hlevel. unfold level_at. lia.
  - apply node_ids_elem in Hu as (m & Hm & <-).
    apply sorted_keys_levels. exists m. split; [done|]. exact Hlu.
Qed.

(** C4. On an acyclic graph [get_parallel_groups] returns the nodes
    grouped by level, group [k] being exactly the nodes of level [k], in
    node order, for every level in use; the level of a node is 0 when it
    has no predecessor and one more than the greatest level of its
    predecessors otherwise, which is the number of edges of the longest
    path leading to it from a predecessor-free node.  The chain
    start → A → B → end gives four singleton groups in that order, and the
    diamond puts A and B in the same group. *)
Theorem parallel_groups_are_longest_path_levels :
  (∀ g, acyclic g →
     ∃ groups lv,
       get_parallel_groups g = Some groups
       ∧ level_equations g lv
       ∧ (∀ i, i ∈ node_ids g → longest_path_level g i (lv i))
       ∧ (∀ k group, groups !! k = Some group ↔
            group = filter (λ n, lv (node_id n) = k) (nodes g) ∧ group ≠ [])
       ∧ (∀ n, n ∈ nodes g →
            ∃ group, groups !! lv (node_id n) = Some group ∧ n ∈ group))
  ∧ get_parallel_groups chain_graph
    = Some [[plain_node "start" "Start" START]; [plain_node "A" "Task A" PROCESS];
            [plain_node "B" "Task B" PROCESS]; [plain_node "end" "End" END]]
  ∧ get_parallel_groups diamond_graph
    = Some [[plain_node "start" "Start" START];
            [plain_node "A" "Task A" PROCESS; plain_node "B" "Task B" PROCESS];
            [plain_node "end" "End" END]].
Proof.
  split; [|split; vm_compute; reflexivity].
  intros g Hacyclic.
  destruct (node_levels_total g) as [levels Hlevels].
  pose proof (node_levels_equations g Hacyclic levels Hlevels) as Hlv.
  set (keys := sorted_keys (group_by_level levels (nodes g))).
  destruct (sorted_keys_sorted (group_by_level levels (nodes g))) as [Hs Hnd].
  assert (∀ k group,
            (nodes_of_level levels (nodes g) <$> keys) !! k = Some group ↔
            group = nodes_of_level levels (nodes g) k ∧ group ≠ []) as Hgroups.
  { intros k group. rewrite list_lookup_fmap. split.
    - intros Hk. destruct (keys !! k) as [x|] eqn:Hx; [|done].
      injection Hk as <-.
      assert (x ∈ keys) as Hin by by eapply list_elem_of_lookup_2.
      pose proof (sorted_keys_contiguous g levels Hlv x Hin) as Hself.
      assert (k = x) as -> by by eapply NoDup_lookup.
      split; [done|]. apply nonempty_is_Some.
      rewrite <- group_by_level_lookup. by apply sorted_keys_elem.
    - intros [-> Hne].
      assert (k ∈ keys) as Hin.
      { apply sorted_keys_elem. rewrite group_by_level_lookup.
        by apply nonempty_is_Some. }
      unfold keys. by rewrite (sorted_keys_contiguous g levels Hlv k Hin). }
  exists (nodes_of_level levels (nodes g) <$> keys), (level_at levels).
  split; [by apply get_parallel_groups_by_level|]. split; [done|].
  split; [intros i Hi; by apply level_is_longest_path|].
  split; [exact Hgroups|].
  intros n Hn. exists (nodes_of_level levels (nodes g) (level_at levels (node_id n))).
  assert (n ∈ nodes_of_level levels (nodes g) (level_at levels (node_id n))) as Hin
    by by apply list_elem_of_filter.
  split; [|done]. apply Hgroups. split; [done|].
  intros Hnil. rewrite Hnil in Hin. by apply elem_of_nil in Hin.
Qed.

Lemma parallel_groups_are_longest_path_levels_witness :
  ∃ groups lv,
    get_parallel_groups chain_graph = Some groups
    ∧ level_equations chain_graph lv
    ∧ (∀ i, i ∈ node_ids chain_graph → longest_path_level chain_graph i (lv i))
    ∧ (∀ k group, groups !! k = Some group ↔
         group = filter (λ n, lv (node_id n) = k) (nodes chain_graph) ∧ group ≠ [])
    ∧ (∀ n, n ∈ nodes chain_graph →
         ∃ group, groups !! lv (node_id n) = Some group ∧ n ∈ group).
Proof.
  apply (proj1 parallel_groups_are_longest_path_levels chain_graph).
  apply chain_graph_acyclic.
Defined.

(** ** The topological sort *)

(** C3 as stated fails when two nodes share an id: the graph has the
    cycle c → c, but popping each of the two nodes named "x" releases the
    edge x → c once, which brings the in-degree of c from 2 to 0, and the
    sort returns an order of all three nodes. *)
Lemma topological_sort_accepts_cycle_with_duplicate_ids :
  has_cycle duplicate_id_graph
  ∧ topological_sort duplicate_id_graph
    = Some (Ordered [plain_node "x" "First" PROCESS;
                     plain_node "x" "Second" PROCESS;
                     plain_node "c" "Loop" PROCESS]).
Proof.
  split; [|vm_compute; reflexivity].
  exists "c". apply tc_once.
  split; [unfold node_ids; simpl; set_solver|].
  split; [unfold node_ids; simpl; set_solver|].
  exists (plain_edge "c" "c"). split; [|done]. simpl. set_solver.
Qed.

Lemma insert_by_id_Permutation n (l : list TaskNode) : insert_by_id n l ≡ₚ n :: l.
Proof.
  induction l as [|m l IH]; simpl; [done|].
  destruct (String.leb _ _); [done|]. rewrite IH. apply Permutation_swap.
Qed.

Lemma sort_by_id_Permutation (l : list TaskNode) : sort_by_id l ≡ₚ l.
Proof.
  induction l as [|n l IH]; simpl; [done|].
  fold (sort_by_id l). by rewrite insert_by_id_Permutation, IH.
Qed.

(** *** Counting edges *)

Lemma filter_length_split {A} (P Q : A → Prop)
    `{!∀ x, Decision (P x), !∀ x, Decision (Q x)} (l : list A) :
  (∀ x, P x → Q x → False) →
  length (filter (λ x, P x ∨ Q x) l) = length (filter P l) + length (filter Q l).
Proof.
  intros Hdisj. induction l as [|x l IH]; [done|].
  rewrite !filter_cons.
  destruct (decide (P x)) as [HP|HP], (decide (Q x)) as [HQ|HQ].
  - by destruct (Hdisj x).
  - rewrite decide_True by auto. simpl. lia.
  - rewrite decide_True by auto. simpl. lia.
  - rewrite decide_False by tauto. lia.
Qed.

Lemma filter_length_le {A} (P Q : A → Prop)
    `{!∀ x, Decision (P x), !∀ x, Decision (Q x)} (l : list A) :
  (∀ x, Q x → P x) → length (filter Q l) ≤ length (filter P l).
Proof.
  intros Himp. induction l as [|x l IH]; [done|].
  rewrite !filter_cons.
  destruct (decide (Q x)) as [HQ|HQ].
  - rewrite decide_True by auto. simpl. lia.
  - destruct (decide (P x)); simpl; lia.
Qed.

Lemma filter_length_eq {A} (P Q : A → Prop)
    `{!∀ x, Decision (P x), !∀ x, Decision (Q x)} (l : list A) :
  (∀ x, Q x → P x) → length (filter Q l) = length (filter P l) →
  ∀ x, x ∈ l → P x → Q x.
Proof.
  intros Himp. induction l as [|y l IH]; intros Hlen x Hx HP.
  { by apply elem_of_nil in Hx. }
  rewrite !filter_cons in Hlen.
  pose proof (filter_length_le P Q l Himp) as Hle.
  destruct (decide (Q y)) as [HQ|HQ].
  - rewrite decide_True in Hlen by auto. simpl in Hlen.
    apply elem_of_cons in Hx as [->|Hx]; [done|]. apply IH; [lia|done..].
  - destruct (decide (P y)) as [HPy|HPy]; simpl in Hlen; [lia|].
    apply elem_of_cons in Hx as [->|Hx]; [done|]. by apply IH.
Qed.

(** The edges from [u] to [v]. *)
Lemma edges_from_snoc g (placed : list TaskNode) u v :
  node_id u ∉ node_id <$> placed →
  edges_from g (placed ++ [u]) v
  = edges_from g placed v
    + length (filter (λ e, source_id e = node_id u ∧ target_id e = v) (edges g)).
Proof.
  intros Hu. unfold edges_from.
  rewrite <- (filter_length_split
                (λ e, target_id e = v ∧ source_id e ∈ node_id <$> placed)
                (λ e, source_id e = node_id u ∧ target_id e = v)).
  - f_equal. apply list_filter_iff. intros e.
    rewrite fmap_app, elem_of_app. simpl. rewrite list_elem_of_singleton.
    naive_solver.
  - intros e [_ Hin] [Heq _]. apply Hu. by rewrite <- Heq.
Qed.

Lemma edges_from_le g (placed : list TaskNode) v :
  edges_from g placed v ≤ edges_into g v.
Proof. apply filter_length_le. by intros e [? _]. Qed.

Lemma edges_from_all_settled g (placed : list TaskNode) v :
  edges_from g placed v = edges_into g v → settled g placed v.
Proof.
  intros Heq e He Ht.
  eapply (filter_length_eq (λ e, target_id e = v)
            (λ e, target_id e = v ∧ source_id e ∈ node_id <$> placed)) in Heq;
    [by destruct Heq| |done..].
  by intros ? [? _].
Qed.

Lemma settled_mono g (placed placed' : list TaskNode) v :
  settled g placed v → placed ⊆ placed' → settled g placed' v.
Proof.
  intros Hs Hsub e He Ht. specialize (Hs e He Ht).
  apply list_elem_of_fmap in Hs as (n & -> & Hn).
  apply list_elem_of_fmap. exists n. split; [done|]. by apply Hsub.
Qed.

(** *** The inner loop *)

Lemma filter_length_pos {A} (P : A → Prop) `{!∀ x, Decision (P x)} (l : list A) :
  0 < length (filter P l) → ∃ x, x ∈ l ∧ P x.
Proof.
  destruct (filter P l) as [|x l'] eqn:Hf; simpl; [lia|]. intros _.
  assert (x ∈ filter P l) as Hx by (rewrite Hf; by left).
  apply list_elem_of_filter in Hx as [? ?]. eauto.
Qed.

Lemma filter_length_zero {A} (P : A → Prop) `{!∀ x, Decision (P x)} (l : list A) x :
  length (filter P l) = 0 → x ∈ l → ¬ P x.
Proof.
  intros Hlen Hx HP.
  assert (x ∈ filter P l) as Hin by by apply list_elem_of_filter.
  destruct (filter P l); [by apply elem_of_nil in Hin|done].
Qed.

(** The successors with id [v] are as many as the edges from [u] to [v]. *)
Lemma successors_count g u v :
  v ∈ node_ids g →
  length (filter (λ s, node_id s = v) (get_successors g u))
  = length (filter (λ e, source_id e = u ∧ target_id e = v) (edges g)).
Proof.
  intros Hv. unfold get_successors, get_outgoing_edges.
  induction (edges g) as [|e es IH]; [done|].
  rewrite !(filter_cons _ e).
  destruct (decide (source_id e = u)) as [Hs|Hs].
  - rewrite fmap_cons. cbn [omap list_omap].
    destruct (node_map g !! target_id e) as [n|] eqn:Hn.
    + apply node_map_lookup_Some in Hn as [_ Hid].
      rewrite filter_cons. rewrite Hid.
      destruct (decide (target_id e = v)) as [Ht|Ht].
      * rewrite decide_True by done. simpl. f_equal. exact IH.
      * rewrite decide_False by tauto. exact IH.
    + rewrite decide_False; [exact IH|].
      intros [_ Ht]. rewrite <- Ht in Hv.
      apply node_map_is_Some in Hv as [? ?]. congruence.
  - rewrite decide_False by tauto. exact IH.
Qed.

(** What the loop over the successors does, when no in-degree is driven
    below zero: every in-degree drops by the number of occurrences of its
    id, and the successors whose in-degree ends at zero are appended to
    the queue, once each. *)
Lemma release_all_spec (succs : list TaskNode) :
  ∀ (d : gmap string Z) (queue : list TaskNode),
    (∀ s s', s ∈ succs → s' ∈ succs → node_id s = node_id s' → s = s') →
    (∀ s, s ∈ succs →
       ∃ k, d !! node_id s = Some k
            ∧ (Z.of_nat (length (filter (λ s', node_id s' = node_id s) succs)) ≤ k)%Z) →
    ∃ d' appended,
      release_all (d, queue) succs = Some (d', queue ++ appended)
      ∧ dom d' = dom d
      ∧ (∀ v, d' !! v
              = (λ k, (k - Z.of_nat (length (filter (λ s', node_id s' = v) succs)))%Z)
                  <$> d !! v)
      ∧ (∀ s, s ∈ appended ↔ s ∈ succs ∧ d' !! node_id s = Some 0%Z)
      ∧ NoDup (node_id <$> appended).
Proof.
  induction succs as [|s succs IH]; intros d queue Hsame Hroom.
  - exists d, []. rewrite app_nil_r. split; [done|]. split; [done|]. split.
    { intros v. simpl. destruct (d !! v); simpl; [f_equal; lia|done]. }
    split; [|constructor].
    intros s. split; [by intros ?%elem_of_nil|by intros [?%elem_of_nil _]].
  - destruct (Hroom s) as (k & Hk & Hle); [by left|].
    rewrite filter_cons, decide_True in Hle by done. simpl in Hle.
    set (d1 := <[node_id s := (k - 1)%Z]> d).
    set (queue1 := if decide ((k - 1)%Z = 0%Z) then queue ++ [s] else queue).
    destruct (IH d1 queue1) as (d' & app & Hrun & Hdom & Hlook & Happ & Hnd).
    { intros ?? ?? ?. apply Hsame; [by right|by right|done]. }
    { intros s' Hs'. destruct (decide (node_id s' = node_id s)) as [Heq|Hne].
      - exists (k - 1)%Z. unfold d1. rewrite Heq, lookup_insert_eq.
        split; [done|]. lia.
      - destruct (Hroom s') as (k' & Hk' & Hle'); [by right|].
        rewrite filter_cons, decide_False in Hle' by done.
        exists k'. unfold d1. by rewrite lookup_insert_ne. }
    assert (∀ v, d' !! v
              = (λ k, (k - Z.of_nat (length (filter (λ s', node_id s' = v)
                                                    (s :: succs))))%Z)
                  <$> d !! v) as Hlook'.
    { intros v. rewrite Hlook. unfold d1. rewrite filter_cons.
      destruct (decide (node_id s = v)) as [<-|Hne].
      - rewrite lookup_insert_eq, Hk. simpl. f_equal. lia.
      - by rewrite lookup_insert_ne. }
    exists d', ((if decide ((k - 1)%Z = 0%Z) then [s] else []) ++ app).
    split.
    { cbn [release_all release]. rewrite Hk. cbn [mbind option_bind].
      fold d1. fold queue1. rewrite Hrun. f_equal. f_equal. unfold queue1.
      case_decide; [by rewrite <- app_assoc|done]. }
    split.
    { rewrite Hdom. unfold d1. rewrite dom_insert_L.
      assert (node_id s ∈ dom d) by (apply elem_of_dom; eauto). set_solver. }
    split; [done|].
    case_decide as Hzero.
    + assert (length (filter (λ s', node_id s' = node_id s) succs) = 0) as Hnone
        by lia.
      assert (d' !! node_id s = Some 0%Z) as Hds.
      { rewrite Hlook. unfold d1. rewrite lookup_insert_eq, Hnone. simpl.
        f_equal. lia. }
      split.
      * intros s0. simpl. rewrite !elem_of_cons, Happ. split.
        -- intros [->|[? ?]]; [by split; [left|]|by split; [right|]].
        -- intros [[->|?] ?]; [by left|by right].
      * simpl. apply NoDup_cons. split; [|done].
        intros (s' & Heq & Hs')%list_elem_of_fmap.
        apply Happ in Hs' as [Hs' _].
        by eapply (filter_length_zero _ succs s' Hnone).
    + split; [|done]. intros s0. simpl. rewrite Happ, elem_of_cons. split.
      * intros [? ?]. by split; [right|].
      * intros [[->|?] Hd0]; [|done]. split; [|done].
        rewrite Hlook in Hd0. unfold d1 in Hd0.
        rewrite lookup_insert_eq in Hd0. simpl in Hd0.
        destruct (filter_length_pos (λ s', node_id s' = node_id s) succs)
          as (s' & Hs' & Heq); [injection Hd0; lia|].
        assert (s' = s) as <-; [|done].
        apply Hsame; [by right|by left|done].
Qed.

(** *** The order of the ids *)

Lemma string_compare_trans (s1 : string) :
  ∀ s2 s3, String.compare s1 s2 ≠ Gt → String.compare s2 s3 ≠ Gt →
           String.compare s1 s3 ≠ Gt.
Proof.
  induction s1 as [|a s1 IH]; intros [|b s2] [|c s3]; simpl; try done.
  unfold Ascii.compare.
  destruct (N.compare_spec (N_of_ascii a) (N_of_ascii b)) as [Hab|Hab|Hab];
    destruct (N.compare_spec (N_of_ascii b) (N_of_ascii c)) as [Hbc|Hbc|Hbc];
    intros H1 H2; try congruence.
  - rewrite Hab, Hbc, N.compare_refl. by apply (IH s2).
  - rewrite Hab. apply N.compare_lt_iff in Hbc. by rewrite Hbc.
  - rewrite <- Hbc. apply N.compare_lt_iff in Hab. by rewrite Hab.
  - assert (N_of_ascii a < N_of_ascii c)%N as Hac by (by etrans).
    apply N.compare_lt_iff in Hac. by rewrite Hac.
Qed.

Lemma string_leb_trans s1 s2 s3 :
  String.leb s1 s2 = true → String.leb s2 s3 = true → String.leb s1 s3 = true.
Proof.
  unfold String.leb. intros H1 H2.
  pose proof (string_compare_trans s1 s2 s3) as H.
  destruct (String.compare s1 s2), (String.compare s2 s3),
    (String.compare s1 s3); try done; by destruct H.
Qed.

Lemma string_leb_refl s : String.leb s s = true.
Proof. by destruct (String.leb_total s s). Qed.

Lemma insert_by_id_sorted n l :
  StronglySorted id_le l → StronglySorted id_le (insert_by_id n l).
Proof.
  induction 1 as [|m l Hl IH Hm]; simpl; [by repeat constructor|].
  destruct (String.leb (node_id n) (node_id m)) eqn:Hle.
  - constructor; [by constructor|]. constructor; [done|].
    eapply Forall_impl; [exact Hm|]. intros y Hy.
    by eapply string_leb_trans.
  - constructor; [done|]. rewrite insert_by_id_Permutation.
    constructor; [|done]. unfold id_le.
    destruct (String.leb_total (node_id m) (node_id n)); [done|congruence].
Qed.

Lemma sort_by_id_sorted l : StronglySorted id_le (sort_by_id l).
Proof.
  induction l; simpl; [constructor|by apply insert_by_id_sorted].
Qed.

(** The node that [queue.pop(0)] takes after the sort has the least id
    of the queue. *)
Lemma sort_by_id_head_least l n rest m :
  sort_by_id l = n :: rest → m ∈ l →
  String.leb (node_id n) (node_id m) = true.
Proof.
  intros Hsort Hm. pose proof (sort_by_id_sorted l) as Hs.
  rewrite Hsort in Hs. rewrite <- (sort_by_id_Permutation l), Hsort in Hm.
  apply elem_of_cons in Hm as [->|Hm]; [apply string_leb_refl|].
  apply StronglySorted_inv in Hs as [_ Hall].
  rewrite Forall_forall in Hall. by apply Hall.
Qed.

Lemma filter_length_ext_in {A} (P Q : A → Prop)
    `{!∀ x, Decision (P x), !∀ x, Decision (Q x)} (l : list A) :
  (∀ x, x ∈ l → P x ↔ Q x) → length (filter P l) = length (filter Q l).
Proof.
  induction l as [|x l IH]; intros Hext; [done|].
  rewrite !filter_cons.
  assert (length (filter P l) = length (filter Q l)) as Hl
    by (apply IH; intros ??; apply Hext; by right).
  destruct (decide (P x)) as [HP|HP].
  - rewrite decide_True by (apply Hext; [by left|done]). simpl. lia.
  - rewrite decide_False; [done|]. intros HQ. apply HP, Hext; [by left|done].
Qed.

Lemma settled_edges_from g (placed : list TaskNode) v :
  settled g placed v → edges_from g placed v = edges_into g v.
Proof.
  intros Hs. apply filter_length_ext_in. intros e He.
  split; [by intros [? _]|]. intros Ht. split; [done|]. by apply Hs.
Qed.

(** *** One turn of the outer loop *)

Lemma snoc_eq_middle {A} (l r1 r2 : list A) a n :
  l ++ [a] = r1 ++ n :: r2 →
  (r2 = [] ∧ l = r1 ∧ a = n) ∨ (∃ r2', r2 = r2' ++ [a] ∧ l = r1 ++ n :: r2').
Proof.
  destruct r2 as [|x r2 _] using rev_ind; intros Heq.
  - left. change (r1 ++ [n]) with (r1 ++ [n]) in Heq.
    apply app_inj_tail in Heq as [-> ->]. done.
  - right. exists r2. rewrite app_comm_cons, app_assoc in Heq.
    apply app_inj_tail in Heq as [-> ->]. done.
Qed.

Lemma kahn_inv_length g d queue result :
  kahn_inv g d queue result → length (result ++ queue) ≤ length (nodes g).
Proof.
  intros Hinv. rewrite <- (length_fmap node_id).
  rewrite <- (size_list_to_set (C := gset string)) by apply Hinv.
  etrans; [|apply size_node_ids_le]. apply subseteq_size.
  intros i (n & -> & Hn)%elem_of_list_to_set%list_elem_of_fmap.
  apply node_ids_elem. exists n. split; [|done]. by apply Hinv.
Qed.

Lemma kahn_step g d queue result node rest :
  kahn_inv g d queue result →
  sort_by_id queue = node :: rest →
  ∃ d' queue',
    release_all (d, rest) (get_successors g (node_id node)) = Some (d', queue')
    ∧ kahn_inv g d' queue' (result ++ [node]).
Proof.
  intros Hinv Hsort.
  assert (node :: rest ≡ₚ queue) as Hperm
    by (rewrite <- Hsort; apply sort_by_id_Permutation).
  assert (node ∈ queue) as Hnode by (rewrite <- Hperm; by left).
  assert (rest ⊆ queue) as Hrest by (intros x Hx; rewrite <- Hperm; by right).
  assert (NoDup (node_id <$> (result ++ node :: rest))) as Hnd.
  { rewrite Hperm. apply Hinv. }
  assert (node_id node ∉ node_id <$> result) as Hfresh.
  { rewrite fmap_app, fmap_cons in Hnd.
    apply NoDup_app in Hnd as (_ & Hdisj & _). intros Hin.
    apply (Hdisj _ Hin). by left. }
  assert (∀ s, s ∈ get_successors g (node_id node) →
            node_id s ∉ node_id <$> (result ++ node :: rest)) as Hnew.
  { intros s (_ & e & He & Hs & Ht)%get_successors_elem
           (m & Heq & [Hm|Hm]%elem_of_app)%list_elem_of_fmap; apply Hfresh.
    - apply list_elem_of_split in Hm as (r1 & r2 & Hsplit).
      pose proof (kahn_order _ _ _ _ Hinv r1 m r2 Hsplit e He ltac:(congruence))
        as Hsrc.
      rewrite Hs in Hsrc. rewrite Hsplit, fmap_app. apply elem_of_app. by left.
    - rewrite Hperm in Hm.
      pose proof (kahn_queue _ _ _ _ Hinv m Hm e He ltac:(congruence)) as Hsrc.
      by rewrite Hs in Hsrc. }
  destruct (release_all_spec (get_successors g (node_id node)) d rest)
    as (d' & app & Hrun & Hdom & Hlook & Happ & Hndapp).
  { intros s s' [Hs _]%get_successors_elem [Hs' _]%get_successors_elem Heq.
    rewrite Heq in Hs. congruence. }
  { intros s Hs.
    assert (node_id s ∈ node_ids g) as Hid.
    { apply get_successors_elem in Hs as [Hs _]. apply node_map_is_Some. eauto. }
    eexists. split; [by apply Hinv|].
    rewrite successors_count by done.
    pose proof (edges_from_snoc g result node (node_id s) Hfresh).
    pose proof (edges_from_le g (result ++ [node]) (node_id s)). lia. }
  exists d', (rest ++ app). split; [done|].
  assert (∀ v, v ∈ node_ids g →
            d' !! v = Some (Z.of_nat (edges_into g v)
                            - Z.of_nat (edges_from g (result ++ [node]) v))%Z)
    as Hdegree.
  { intros v Hv. rewrite Hlook, (kahn_degree _ _ _ _ Hinv) by done. simpl.
    rewrite successors_count by done.
    rewrite (edges_from_snoc g result node v Hfresh). f_equal. lia. }
  split.
  - rewrite Hdom. apply Hinv.
  - rewrite <- !app_assoc. simpl. rewrite app_comm_cons, app_assoc, fmap_app.
    apply NoDup_app. split; [done|]. split; [|done].
    intros i Hi (s & -> & Hs)%list_elem_of_fmap.
    apply Happ in Hs as [Hs _]. by apply (Hnew s).
  - intros n. rewrite <- app_assoc. simpl.
    rewrite elem_of_app, elem_of_cons, elem_of_app.
    intros [?|[->|[?|Hn]]].
    + apply Hinv. apply elem_of_app. by left.
    + apply Hinv. apply elem_of_app. by right.
    + apply Hinv. apply elem_of_app. right. by apply Hrest.
    + apply Happ in Hn as [[Hn _]%get_successors_elem _].
      by apply node_map_lookup_Some in Hn as [? _].
  - done.
  - intros n [Hn|Hn]%elem_of_app.
    + eapply settled_mono; [by apply Hinv, Hrest|].
      intros x Hx. apply elem_of_app. by left.
    + apply Happ in Hn as [Hn Hzero].
      apply edges_from_all_settled.
      assert (node_id n ∈ node_ids g) as Hid.
      { apply get_successors_elem in Hn as [Hn _]. apply node_map_is_Some. eauto. }
      rewrite Hdegree in Hzero by done. injection Hzero. lia.
  - intros r1 n r2 [(-> & -> & ->)|(r2' & -> & Hsplit)]%snoc_eq_middle.
    + by apply Hinv.
    + by eapply kahn_order.
  - intros v Hv Hzero.
    destruct (decide (length (filter (λ s', node_id s' = v)
                                     (get_successors g (node_id node))) = 0))
      as [Hnone|Hsome].
    + rewrite Hlook, Hnone in Hzero.
      assert (d !! v = Some 0%Z) as Hd.
      { destruct (d !! v) as [k|]; simpl in Hzero; [|done].
        injection Hzero as Hk. f_equal. lia. }
      pose proof (kahn_ready _ _ _ _ Hinv v Hv Hd) as Hin.
      rewrite <- Hperm in Hin.
      apply list_elem_of_fmap in Hin as (x & -> & Hx).
      apply list_elem_of_fmap. exists x. split; [done|]. set_solver.
    + destruct (filter_length_pos (λ s', node_id s' = v)
                  (get_successors g (node_id node)))
        as (s & Hs & Heq); [lia|].
      assert (s ∈ app) by (apply Happ; by rewrite Heq).
      apply list_elem_of_fmap. exists s. split; [done|]. set_solver.
  - intros r1 n r2 m [(-> & -> & ->)|(r2' & -> & Hsplit)]%snoc_eq_middle
           Hm Hm_fresh Hm_settled.
    + assert (node_id m ∈ node_ids g) as Hid by (apply node_ids_elem; eauto).
      assert (d !! node_id m = Some 0%Z) as Hd.
      { rewrite (kahn_degree _ _ _ _ Hinv) by done.
        rewrite settled_edges_from by done. f_equal. lia. }
      pose proof (kahn_ready _ _ _ _ Hinv _ Hid Hd) as Hin.
      rewrite fmap_app, elem_of_app in Hin. destruct Hin as [Hin|Hin]; [done|].
      apply list_elem_of_fmap in Hin as (m' & Heq & Hm').
      rewrite Heq. by eapply sort_by_id_head_least.
    + by eapply (kahn_least _ _ _ _ Hinv).
Qed.

(** *** The initial state *)

Lemma count_edge_lookup (es : list TaskEdge) :
  ∀ (d : gmap string Z) v,
    foldl count_edge d es !! v
    = (λ k, (k + Z.of_nat (length (filter (λ e, target_id e = v) es)))%Z) <$> d !! v.
Proof.
  induction es as [|e es IH]; intros d v; simpl.
  - destruct (d !! v); simpl; [f_equal; lia|done].
  - rewrite IH, filter_cons. unfold count_edge.
    destruct (d !! target_id e) as [k|] eqn:Hk.
    + destruct (decide (target_id e = v)) as [<-|Hne].
      * rewrite lookup_insert_eq, Hk. simpl. f_equal. lia.
      * by rewrite lookup_insert_ne.
    + destruct (decide (target_id e = v)) as [<-|Hne]; [by rewrite Hk|done].
Qed.

Lemma count_edge_dom (es : list TaskEdge) :
  ∀ d : gmap string Z, dom (foldl count_edge d es) = dom d.
Proof.
  induction es as [|e es IH]; intros d; simpl; [done|].
  rewrite IH. unfold count_edge.
  destruct (d !! target_id e) as [k|] eqn:Hk; [|done].
  rewrite dom_insert_L. apply (elem_of_dom_2 d) in Hk. set_solver.
Qed.

Lemma initial_in_degree_lookup g v :
  v ∈ node_ids g →
  initial_in_degree g !! v = Some (Z.of_nat (edges_into g v)).
Proof.
  intros Hv. unfold initial_in_degree, zero_degrees.
  rewrite count_edge_lookup, (foldl_insert_lookup_const node_id); [done|].
  by apply elem_of_list_to_set in Hv.
Qed.

Lemma initial_in_degree_dom g : dom (initial_in_degree g) = node_ids g.
Proof.
  unfold initial_in_degree, zero_degrees.
  rewrite count_edge_dom, (foldl_insert_dom node_id (λ _, 0%Z)).
  unfold node_ids. set_solver.
Qed.

Lemma ready_nodes_filter (d : gmap string Z) (ns : list TaskNode) :
  (∀ n, n ∈ ns → is_Some (d !! node_id n)) →
  ready_nodes d ns = Some (filter (λ n, d !! node_id n = Some 0%Z) ns).
Proof.
  induction ns as [|n ns IH]; intros Hdom; [done|].
  cbn [ready_nodes]. destruct (Hdom n) as [k Hk]; [by left|].
  rewrite Hk, IH by (intros ??; apply Hdom; by right).
  cbn [mbind option_bind]. rewrite filter_cons, Hk.
  destruct (decide (k = 0%Z)) as [->|Hne].
  - by rewrite decide_True.
  - rewrite decide_False; [done|]. by intros [= ?].
Qed.

Lemma NoDup_fmap_filter {A B} (f : A → B) (P : A → Prop)
    `{!∀ x, Decision (P x)} (l : list A) :
  NoDup (f <$> l) → NoDup (f <$> filter P l).
Proof.
  induction l as [|x l IH]; [done|].
  rewrite fmap_cons, NoDup_cons, filter_cons. intros [Hx Hnd].
  destruct (decide (P x)); [|by apply IH].
  rewrite fmap_cons, NoDup_cons. split; [|by apply IH].
  intros (y & Heq & [_ Hy]%list_elem_of_filter)%list_elem_of_fmap.
  apply Hx, list_elem_of_fmap. eauto.
Qed.

Lemma kahn_inv_initial g :
  unique_ids g →
  ∃ queue,
    ready_nodes (initial_in_degree g) (nodes g) = Some queue
    ∧ kahn_inv g (initial_in_degree g) queue [].
Proof.
  intros Hunique. eexists. split.
  { apply ready_nodes_filter. intros n Hn.
    rewrite initial_in_degree_lookup; [by eexists|]. apply node_ids_elem. eauto. }
  assert (∀ v, edges_from g [] v = 0) as Hnone.
  { intros v. unfold edges_from.
    destruct (filter _ (edges g)) as [|e l] eqn:Hf; [done|].
    assert (e ∈ filter (λ e, target_id e = v
                             ∧ source_id e ∈ node_id <$> ([] : list TaskNode))
                       (edges g)) as He by (rewrite Hf; by left).
    apply list_elem_of_filter in He as [[_ He] _]. by apply elem_of_nil in He. }
  split; simpl.
  - apply initial_in_degree_dom.
  - by apply NoDup_fmap_filter.
  - by intros n [? ?]%list_elem_of_filter.
  - intros v Hv. rewrite initial_in_degree_lookup, Hnone by done. f_equal. lia.
  - intros n [Hzero Hn]%list_elem_of_filter.
    apply edges_from_all_settled. rewrite Hnone.
    rewrite initial_in_degree_lookup in Hzero by (apply node_ids_elem; eauto).
    injection Hzero. lia.
  - intros r1 n r2 Heq. by destruct r1.
  - intros v (n & Hn & <-)%node_ids_elem Hzero.
    apply list_elem_of_fmap. exists n. split; [done|].
    by apply list_elem_of_filter.
  - intros r1 n r2 m Heq. by destruct r1.
Qed.

(** *** The outer loop *)

Lemma kahn_loop_total g (fuel : nat) :
  ∀ d queue result,
    kahn_inv g d queue result →
    length (nodes g) - length result < fuel →
    ∃ placed d', kahn_loop fuel g d queue result = Some placed
                 ∧ kahn_inv g d' [] placed.
Proof.
  induction fuel as [|fuel IH]; intros d queue result Hinv Hfuel; [lia|].
  cbn [kahn_loop]. destruct (sort_by_id queue) as [|node rest] eqn:Hsort.
  - assert (queue = []) as ->.
    { apply Permutation_nil_r. rewrite <- Hsort. symmetry.
      apply sort_by_id_Permutation. }
    by exists result, d.
  - destruct (kahn_step g d queue result node rest Hinv Hsort)
      as (d' & queue' & Hrun & Hinv').
    rewrite Hrun. cbn [mbind option_bind].
    apply IH; [done|].
    pose proof (kahn_inv_length _ _ _ _ Hinv') as Hlen.
    rewrite !length_app in *. simpl in *. lia.
Qed.

(** *** Nodes on a cycle are never placed *)

Lemma placed_after_sources g d result u v j n :
  kahn_inv g d [] result →
  tc (edge_between g) u v →
  result !! j = Some n → node_id n = v →
  ∃ i m, i < j ∧ result !! i = Some m ∧ node_id m = u.
Proof.
  intros Hinv Htc. revert j n.
  induction Htc as [u v Huv|u w v Huw _ IH]; intros j n Hj Hn.
  - destruct Huv as (_ & _ & e & He & Hs & Ht).
    pose proof (kahn_order _ _ _ _ Hinv (take j result) n (drop (S j) result)
                  (eq_sym (take_drop_middle _ _ _ Hj)) e He ltac:(congruence))
      as Hsrc.
    rewrite Hs in Hsrc. apply list_elem_of_fmap in Hsrc as (m & -> & Hm).
    apply list_elem_of_lookup in Hm as [i [Hi Hlt]%lookup_take_Some]. eauto.
  - destruct (IH j n Hj Hn) as (i & m & Hlt & Hi & Hm).
    destruct Huw as (_ & _ & e & He & Hs & Ht).
    pose proof (kahn_order _ _ _ _ Hinv (take i result) m (drop (S i) result)
                  (eq_sym (take_drop_middle _ _ _ Hi)) e He ltac:(congruence))
      as Hsrc.
    rewrite Hs in Hsrc. apply list_elem_of_fmap in Hsrc as (m' & -> & Hm').
    apply list_elem_of_lookup in Hm' as [i' [Hi' Hlt']%lookup_take_Some].
    exists i', m'. split; [lia|done].
Qed.

Lemma cycle_node_not_placed g d result v :
  kahn_inv g d [] result → tc (edge_between g) v v →
  v ∉ node_id <$> result.
Proof.
  intros Hinv Hcycle (n & -> & Hn)%list_elem_of_fmap.
  apply list_elem_of_lookup in Hn as [j Hj].
  destruct (placed_after_sources g d result _ _ j n Hinv Hcycle Hj eq_refl)
    as (i & m & Hlt & Hi & Hm).
  pose proof (kahn_nodup _ _ _ _ Hinv) as Hnd. rewrite app_nil_r in Hnd.
  assert (i = j); [|lia].
  eapply (NoDup_lookup _ _ _ (node_id n) Hnd); rewrite list_lookup_fmap.
  - by rewrite Hi, <- Hm.
  - by rewrite Hj.
Qed.

Lemma remaining_ids_elem g (placed : list TaskNode) i :
  i ∈ remaining_ids g placed ↔ i ∈ node_ids g ∧ i ∉ node_id <$> placed.
Proof.
  unfold remaining_ids. rewrite list_elem_of_fmap, node_ids_elem. split.
  - intros (n & -> & [Hn ?]%list_elem_of_filter).
    rewrite elem_of_list_to_set in Hn. eauto.
  - intros [(n & Hn & <-) Hi]. exists n. split; [done|].
    apply list_elem_of_filter. by rewrite elem_of_list_to_set.
Qed.

(** C3, amended. On a graph with unique node ids that contains a cycle,
    decision node or not, the loop of [topological_sort] ends without
    having placed all nodes and the [ValueError] is raised; it names
    exactly the ids of the nodes that were not placed, among them every
    node that lies on a cycle. *)
Theorem topological_sort_detects_cycles (g : TaskGraph)
    (Hunique : unique_ids g) (Hcycle : has_cycle g) :
  ∃ queue placed remaining,
    ready_nodes (initial_in_degree g) (nodes g) = Some queue
    ∧ kahn_loop (S (length (nodes g) + length (nodes g))) g
                (initial_in_degree g) queue [] = Some placed
    ∧ topological_sort g = Some (CycleDetected remaining)
    ∧ (∀ i, i ∈ remaining ↔ i ∈ node_ids g ∧ i ∉ node_id <$> placed)
    ∧ (∀ v, tc (edge_between g) v v → v ∈ remaining).
Proof.
  destruct (kahn_inv_initial g Hunique) as (queue & Hready & Hinv0).
  destruct (kahn_loop_total g (S (length (nodes g) + length (nodes g)))
              _ _ _ Hinv0) as (placed & d' & Hloop & Hinv); [simpl; lia|].
  exists queue, placed, (remaining_ids g placed).
  split; [done|]. split; [done|].
  assert (∀ v, tc (edge_between g) v v → v ∈ remaining_ids g placed) as Hrem.
  { intros v Hv. apply remaining_ids_elem. split.
    - inversion Hv as [?? (? & _)|??? (? & _)]; by subst.
    - by eapply cycle_node_not_placed. }
  split; [|split; [apply remaining_ids_elem|exact Hrem]].
  unfold topological_sort. rewrite Hready. cbn [mbind option_bind].
  rewrite Hloop. cbn [mbind option_bind].
  rewrite decide_True; [done|].
  destruct Hcycle as [v Hv]. specialize (Hrem v Hv).
  apply remaining_ids_elem in Hrem as [Hin Hout].
  pose proof (kahn_nodup _ _ _ _ Hinv) as Hnd. rewrite app_nil_r in Hnd.
  assert (list_to_set (node_id <$> placed) ⊂ node_ids g) as Hsub.
  { split.
    - intros i (n & -> & Hn)%elem_of_list_to_set%list_elem_of_fmap.
      apply node_ids_elem. exists n. split; [|done].
      apply (kahn_nodes _ _ _ _ Hinv). by rewrite app_nil_r.
    - intros Hall. apply Hout.
      apply (elem_of_list_to_set (C:=gset string)), Hall, Hin. }
  apply subset_size in Hsub. rewrite size_list_to_set, length_fmap in Hsub by done.
  pose proof (size_node_ids_le g). lia.
Qed.

Lemma topological_sort_detects_cycles_witness :
  ∃ queue placed remaining,
    ready_nodes (initial_in_degree self_loop_graph) (nodes self_loop_graph)
    = Some queue
    ∧ kahn_loop (S (length (nodes self_loop_graph)
                    + length (nodes self_loop_graph))) self_loop_graph
                (initial_in_degree self_loop_graph) queue [] = Some placed
    ∧ topological_sort self_loop_graph = Some (CycleDetected remaining)
    ∧ (∀ i, i ∈ remaining ↔
            i ∈ node_ids self_loop_graph ∧ i ∉ node_id <$> placed)
    ∧ (∀ v, tc (edge_between self_loop_graph) v v → v ∈ remaining).
Proof.
  apply (topological_sort_detects_cycles self_loop_graph).
  - unfold unique_ids. simpl. repeat constructor; set_solver.
  - exists "a". apply tc_once.
    split; [unfold node_ids; simpl; set_solver|].
    split; [unfold node_ids; simpl; set_solver|].
    exists (plain_edge "a" "a"). split; [|done]. simpl. set_solver.
Defined.

(** *** Acyclic graphs are sorted *)

(** A walk backwards through a finite set in which every element has a
    predecessor meets one of its own elements again. *)
Lemma backward_walk_cycle (R : relation string) (U : gset string) :
  (∀ v, v ∈ U → ∃ u, u ∈ U ∧ R u v) →
  ∀ n (X : gset string) v,
    X ⊆ U → size U ≤ size X + n → v ∈ X → (∀ x, x ∈ X → rtc R v x) →
    ∃ w, tc R w w.
Proof.
  intros Hpred. induction n as [|n IH]; intros X v HX Hsize Hv Hreach.
  all: destruct (Hpred v) as (u & Hu & Huv); [set_solver|].
  all: destruct (decide (u ∈ X)) as [HuX|HuX];
    [exists u; eapply tc_rtc_r; [by apply tc_once|by apply Hreach]|].
  all: assert (size ({[u]} ∪ X) = S (size X)) as Hgrow
    by (rewrite size_union by set_solver; rewrite size_singleton; lia).
  all: assert (size ({[u]} ∪ X) ≤ size U) as Hle
    by (apply subseteq_size; set_solver).
  - lia.
  - apply (IH ({[u]} ∪ X) u); [set_solver|lia|set_solver|].
    intros x [->%elem_of_singleton|Hx]%elem_of_union; [done|].
    eapply rtc_l; [done|by apply Hreach].
Qed.

Lemma NoDup_fmap_elem_inj {A B} (f : A → B) (l : list A) x y :
  NoDup (f <$> l) → x ∈ l → y ∈ l → f x = f y → x = y.
Proof.
  intros Hnd [i Hi]%list_elem_of_lookup [j Hj]%list_elem_of_lookup Heq.
  assert (i = j) as ->; [|congruence].
  eapply (NoDup_lookup _ _ _ (f x) Hnd); rewrite list_lookup_fmap.
  - by rewrite Hi.
  - by rewrite Hj, Heq.
Qed.

(** When the loop ends on an acyclic graph whose edges all start at a
    node, every id has been placed. *)
Lemma acyclic_all_placed g d placed :
  acyclic g →
  (∀ e, e ∈ edges g → target_id e ∈ node_ids g → source_id e ∈ node_ids g) →
  kahn_inv g d [] placed →
  ∀ v, v ∈ node_ids g → v ∈ node_id <$> placed.
Proof.
  intros Hacyclic Hclosed Hinv v Hv.
  destruct (decide (v ∈ node_id <$> placed)) as [|Hout]; [done|].
  exfalso. apply Hacyclic.
  set (U := node_ids g ∖ list_to_set (node_id <$> placed) : gset string).
  apply (backward_walk_cycle (edge_between g) U) with (size U) {[v]} v.
  - intros w [Hw Hwout]%elem_of_difference.
    rewrite elem_of_list_to_set in Hwout.
    destruct (decide (Exists (λ e, target_id e = w
                                   ∧ source_id e ∉ node_id <$> placed)
                             (edges g))) as [Hex|Hnex].
    + apply Exists_exists in Hex as (e & He & Ht & Hs).
      assert (source_id e ∈ node_ids g) as Hsrc
        by (apply Hclosed; [done|by rewrite Ht]).
      exists (source_id e). split.
      * apply elem_of_difference. by rewrite elem_of_list_to_set.
      * split; [done|]. split; [done|]. eauto.
    + destruct Hwout.
      pose proof (kahn_ready _ _ _ _ Hinv w Hw) as Hr.
      rewrite app_nil_r in Hr. apply Hr.
      rewrite (kahn_degree _ _ _ _ Hinv) by done.
      rewrite settled_edges_from; [f_equal; lia|].
      intros e He Ht.
      destruct (decide (source_id e ∈ node_id <$> placed)) as [|Hs]; [done|].
      destruct Hnex. apply Exists_exists. eauto.
  - apply singleton_subseteq_l, elem_of_difference.
    by rewrite elem_of_list_to_set.
  - lia.
  - by apply elem_of_singleton.
  - by intros x ->%elem_of_singleton.
Qed.

(** X1. On a graph with unique ids, no cycle and no edge into a node from an
    id that names no node, [topological_sort] returns the nodes, each
    once, with the source of every edge between two nodes before its
    target; the node at each position has the least id among the nodes
    not yet placed whose incoming edges all come from nodes placed
    before that position. *)
Lemma topological_sort_sorts_closed_acyclic g :
  unique_ids g → acyclic g →
  (∀ e, e ∈ edges g → target_id e ∈ node_ids g → source_id e ∈ node_ids g) →
  ∃ order,
    topological_sort g = Some (Ordered order)
    ∧ order ≡ₚ nodes g
    ∧ (∀ e, e ∈ edges g →
         source_id e ∈ node_ids g → target_id e ∈ node_ids g →
         precedes order (source_id e) (target_id e))
    ∧ (∀ k n m, order !! k = Some n → m ∈ nodes g →
         node_id m ∉ node_id <$> take k order →
         settled g (take k order) (node_id m) →
         String.leb (node_id n) (node_id m) = true).
Proof.
  intros Hunique Hacyclic Hclosed.
  destruct (kahn_inv_initial g Hunique) as (queue & Hready & Hinv0).
  destruct (kahn_loop_total g (S (length (nodes g) + length (nodes g)))
              _ _ _ Hinv0) as (placed & d' & Hloop & Hinv); [simpl; lia|].
  pose proof (kahn_nodup _ _ _ _ Hinv) as Hnd. rewrite app_nil_r in Hnd.
  pose proof (acyclic_all_placed g d' placed Hacyclic Hclosed Hinv) as Hall.
  assert (∀ n, n ∈ placed → n ∈ nodes g) as Hnodes.
  { intros n Hn. apply (kahn_nodes _ _ _ _ Hinv). by rewrite app_nil_r. }
  assert (placed ≡ₚ nodes g) as Hperm.
  { apply NoDup_Permutation.
    - by eapply NoDup_fmap_1.
    - by eapply NoDup_fmap_1.
    - intros n. split; [apply Hnodes|]. intros Hn.
      destruct (proj1 (list_elem_of_fmap _ _ _)
                  (Hall (node_id n) (proj2 (node_ids_elem _ _)
                                       (ex_intro _ n (conj Hn eq_refl)))))
        as (m & Heq & Hm).
      by rewrite (NoDup_fmap_elem_inj node_id (nodes g) n m Hunique Hn
                    (Hnodes m Hm) Heq). }
  exists placed. split; [|split; [done|split]].
  - unfold topological_sort. rewrite Hready. cbn [mbind option_bind].
    rewrite Hloop. cbn [mbind option_bind].
    rewrite decide_False; [done|]. intros Hne. apply Hne.
    by rewrite Hperm.
  - intros e He Hs Ht.
    pose proof (Hall _ Ht) as Hin.
    apply list_elem_of_fmap in Hin as (n & Hn & [j Hj]%list_elem_of_lookup).
    destruct (placed_after_sources g d' placed (source_id e) (target_id e)
                j n Hinv) as (i & m & Hlt & Hi & Hm); [|done|done|].
    + apply tc_once. split; [done|]. split; [done|]. eauto.
    + by exists i, j, m, n.
  - intros k n m Hk Hm Hfresh Hsettled.
    by apply (kahn_least _ _ _ _ Hinv (take k placed) n (drop (S k) placed) m
                (eq_sym (take_drop_middle _ _ _ Hk))).
Qed.

(** The chain start → A → B → end meets the three conditions. *)
Lemma topological_sort_sorts_chain_graph :
  ∃ order,
    topological_sort chain_graph = Some (Ordered order)
    ∧ order ≡ₚ nodes chain_graph
    ∧ (∀ e, e ∈ edges chain_graph →
         source_id e ∈ node_ids chain_graph →
         target_id e ∈ node_ids chain_graph →
         precedes order (source_id e) (target_id e))
    ∧ (∀ k n m, order !! k = Some n → m ∈ nodes chain_graph →
         node_id m ∉ node_id <$> take k order →
         settled chain_graph (take k order) (node_id m) →
         String.leb (node_id n) (node_id m) = true).
Proof.
  apply topological_sort_sorts_closed_acyclic.
  - unfold unique_ids. simpl. repeat constructor; set_solver.
  - apply chain_graph_acyclic.
  - intros e He _. simpl in He. unfold node_ids.
    edge_cases He; simpl; set_solver.
Defined.

(** ** The groups partition the nodes *)

Section classes.
Context {A K : Type} `{EqDecision K} (f : A → K).

Lemma concat_classes_nil (ks : list K) :
  concat ((λ k, filter (λ x, f x = k) []) <$> ks) = [].
Proof. induction ks as [|k ks IH]; [done|]. by rewrite fmap_cons. Qed.

Lemma concat_classes_cons (a : A) (l : list A) (ks : list K) :
  NoDup ks →
  concat ((λ k, filter (λ x, f x = k) (a :: l)) <$> ks)
  ≡ₚ (if decide (f a ∈ ks) then [a] else [])
     ++ concat ((λ k, filter (λ x, f x = k) l) <$> ks).
Proof.
  induction 1 as [|k ks Hk Hnd IH]; [done|].
  rewrite !fmap_cons. cbn [concat]. rewrite filter_cons, IH.
  destruct (decide (f a = k)) as [<-|Hne].
  - rewrite (decide_True (P := f a ∈ f a :: ks)) by left.
    by rewrite (decide_False (P := f a ∈ ks)) by done.
  - destruct (decide (f a ∈ ks)) as [Hin|Hout].
    + rewrite (decide_True (P := f a ∈ k :: ks)) by by right.
      simpl. by rewrite Permutation_middle.
    + rewrite (decide_False (P := f a ∈ k :: ks)); [done|].
      by intros [?|?]%elem_of_cons.
Qed.

(** The classes of [l] under [f], taken once for every value of [f],
    hold every element of [l] once. *)
Lemma concat_classes (l : list A) (ks : list K) :
  NoDup ks → (∀ x, x ∈ l → f x ∈ ks) →
  concat ((λ k, filter (λ x, f x = k) l) <$> ks) ≡ₚ l.
Proof.
  intros Hnd. induction l as [|a l IH]; intros Hks.
  - by rewrite concat_classes_nil.
  - rewrite concat_classes_cons by done.
    rewrite decide_True by (apply Hks; by left). simpl. f_equiv.
    apply IH. intros x Hx. apply Hks. by right.
Qed.

End classes.

Lemma filter_sublist {A} (P : A → Prop) `{!∀ x, Decision (P x)} (l : list A) :
  filter P l `sublist_of` l.
Proof.
  induction l as [|x l IH]; [done|]. rewrite filter_cons.
  destruct (decide (P x)); by constructor.
Qed.

Lemma parallel_groups_concat g groups :
  get_parallel_groups g = Some groups → concat groups ≡ₚ nodes g.
Proof.
  destruct (node_levels_total g) as [levels Hlevels].
  rewrite (get_parallel_groups_by_level g levels Hlevels). intros [= <-].
  apply (concat_classes (level_of levels)).
  - apply sorted_keys_sorted.
  - intros n Hn. apply sorted_keys_levels. eauto.
Qed.

(** X2. [get_parallel_groups] returns on every graph, cyclic or not, and
    its groups partition the nodes: every node is in one group, once; no
    group is empty, and inside a group the nodes keep the order they have
    in [nodes]. *)
Theorem parallel_groups_partition_nodes (g : TaskGraph) :
  ∃ groups,
    get_parallel_groups g = Some groups
    ∧ concat groups ≡ₚ nodes g
    ∧ (∀ group, group ∈ groups → group ≠ [] ∧ group `sublist_of` nodes g).
Proof.
  destruct (node_levels_total g) as [levels Hlevels].
  pose proof (get_parallel_groups_by_level g levels Hlevels) as Hgroups.
  eexists. split; [exact Hgroups|]. split.
  - by apply parallel_groups_concat.
  - intros group (k & -> & Hk)%list_elem_of_fmap. split.
    + apply sorted_keys_levels in Hk as (n & Hn & Hlevel).
      intros Hnil.
      assert (n ∈ nodes_of_level levels (nodes g) k) as Hin
        by by apply list_elem_of_filter.
      rewrite Hnil in Hin. by apply elem_of_nil in Hin.
    + apply filter_sublist.
Qed.


(** ** The plan generator: phases *)

Lemma StronglySorted_le_lt (l : list nat) :
  StronglySorted Nat.le l → NoDup l → StronglySorted lt l.
Proof.
  induction 1 as [|x l Hl IH Hx]; intros Hnd; [constructor|].
  apply NoDup_cons in Hnd as [Hnotin Hnd].
  constructor; [by apply IH|].
  rewrite Forall_forall in Hx. apply Forall_forall. intros y Hy.
  specialize (Hx y Hy). assert (x ≠ y) by (by intros ->). lia.
Qed.

(** The predecessors whose phase a node of phase [k] depends on. *)
Lemma phase_dependencies_inner (phase_map : gmap string nat) (own : option nat)
    (preds : list TaskNode) :
  ∀ (acc : gset nat) d,
    d ∈ foldl (λ acc predecessor,
                 if decide (node_type predecessor = START) then acc
                 else
                   match phase_map !! node_id predecessor with
                   | Some pred_phase =>
                       if decide (Some pred_phase ≠ own)
                       then {[pred_phase]} ∪ acc else acc
                   | None => acc
                   end) acc preds
    ↔ d ∈ acc ∨ ∃ pred, pred ∈ preds ∧ node_type pred ≠ START
                        ∧ phase_map !! node_id pred = Some d ∧ Some d ≠ own.
Proof.
  induction preds as [|p preds IH]; intros acc d; simpl.
  { split; [by left|]. intros [?|(? & []%elem_of_nil & _)]. done. }
  rewrite IH. split.
  - intros [Hd|(pred & Hpred & ?)]; [|right; exists pred; by rewrite elem_of_cons; eauto].
    destruct (decide (node_type p = START)); [by left|].
    destruct (phase_map !! node_id p) as [v|] eqn:Hv; [|by left].
    destruct (decide (Some v ≠ own)); [|by left].
    apply elem_of_union in Hd as [->%elem_of_singleton|?]; [|by left].
    right. exists p. split; [by left|]. done.
  - intros [Hd|(pred & [->|Hpred]%elem_of_cons & Htype & Hv & Hown)].
    + left. destruct (decide (node_type p = START)); [done|].
      destruct (phase_map !! node_id p); [|done].
      destruct (decide (_ ≠ own)); [|done]. apply elem_of_union. by right.
    + left. rewrite decide_False by done. rewrite Hv.
      rewrite decide_True by done. apply elem_of_union. left.
      by apply elem_of_singleton.
    + right. by exists pred.
Qed.

Lemma phase_dependencies_outer (g : TaskGraph) (phase_map : gmap string nat)
    (ns : list TaskNode) :
  ∀ (acc : gset nat) d,
    d ∈ foldl (λ acc node,
      foldl (λ acc predecessor,
               if decide (node_type predecessor = START) then acc
               else
                 match phase_map !! node_id predecessor with
                 | Some pred_phase =>
                     if decide (Some pred_phase ≠ phase_map !! node_id node)
                     then {[pred_phase]} ∪ acc else acc
                 | None => acc
                 end)
            acc (get_predecessors g (node_id node))) acc ns
    ↔ d ∈ acc ∨ ∃ node pred, node ∈ ns ∧ pred ∈ get_predecessors g (node_id node)
                             ∧ node_type pred ≠ START
                             ∧ phase_map !! node_id pred = Some d
                             ∧ Some d ≠ phase_map !! node_id node.
Proof.
  induction ns as [|n ns IH]; intros acc d; simpl.
  { split; [by left|]. intros [?|(? & ? & []%elem_of_nil & _)]. done. }
  rewrite IH, phase_dependencies_inner. split.
  - intros [[?|(pred & ? & ? & ? & ?)]|(node & pred & ? & ?)].
    + by left.
    + right. exists n, pred. split; [by left|done].
    + right. exists node, pred. split; [by right|done].
  - intros [?|(node & pred & [->|?]%elem_of_cons & ? & ? & ? & ?)].
    + left. by left.
    + left. right. by exists pred.
    + right. by exists node, pred.
Qed.

(** [_get_phase_dependencies]: the phases, other than their own, of the
    predecessors that are not start nodes, in ascending order. *)
Lemma get_phase_dependencies_spec ns g phase_map :
  StronglySorted lt (_get_phase_dependencies ns g phase_map)
  ∧ ∀ d, d ∈ _get_phase_dependencies ns g phase_map ↔
      ∃ node pred, node ∈ ns ∧ pred ∈ get_predecessors g (node_id node)
                   ∧ node_type pred ≠ START
                   ∧ phase_map !! node_id pred = Some d
                   ∧ Some d ≠ phase_map !! node_id node.
Proof.
  unfold _get_phase_dependencies. split.
  - apply StronglySorted_le_lt.
    + apply StronglySorted_merge_sort; apply _.
    + rewrite merge_sort_Permutation. apply NoDup_elements.
  - intros d. rewrite merge_sort_Permutation, elem_of_elements.
    rewrite phase_dependencies_outer. split; [|by right].
    intros [[]%elem_of_empty|?]. done.
Qed.

Lemma foldl_phase_map_lookup (num : nat) (ns : list TaskNode) :
  ∀ (m : gmap string nat) k v,
    foldl (λ m node, <[node_id node := num]> m) m ns !! k = Some v →
    (v = num ∧ k ∈ node_id <$> ns) ∨ (m !! k = Some v ∧ k ∉ node_id <$> ns).
Proof.
  induction ns as [|n ns IH]; intros m k v; simpl.
  { intros ?. right. split; [done|]. apply not_elem_of_nil. }
  intros [[-> ?]|[Hm Hk]]%IH.
  - left. split; [done|]. by right.
  - destruct (decide (node_id n = k)) as [<-|Hne].
    + rewrite lookup_insert_eq in Hm. injection Hm as <-.
      left. split; [done|]. by left.
    + rewrite lookup_insert_ne in Hm by done. right. split; [done|].
      rewrite not_elem_of_cons. split; [congruence|done].
Qed.

Lemma foldl_phase_map_lookup_new (num : nat) (ns : list TaskNode) n :
  ∀ (m : gmap string nat), n ∈ ns →
    foldl (λ m node, <[node_id node := num]> m) m ns !! node_id n = Some num.
Proof.
  induction ns as [|x ns IH] using rev_ind; intros m Hn.
  { by apply elem_of_nil in Hn. }
  rewrite foldl_app. simpl.
  destruct (decide (node_id x = node_id n)) as [->|Hne].
  - by rewrite lookup_insert_eq.
  - rewrite lookup_insert_ne by done. apply IH.
    apply elem_of_app in Hn as [?|Hn]; [done|].
    apply list_elem_of_singleton in Hn. by subst.
Qed.

Lemma gen_inv_initial : gen_inv (mkGenState 0 ∅ []).
Proof.
  split; [done|]. split; [by intros ???|]. split.
  - intros k v Hk. simpl in Hk. by rewrite lookup_empty in Hk.
  - by intros p ?%elem_of_nil.
Qed.

Lemma generate_phase_inv g st group :
  gen_inv st → gen_inv (generate_phase g st group).
Proof.
  intros (Hcount & Hnum & Hmap & Hdeps). unfold generate_phase.
  destruct (filter is_process_node group) as [|n0 ns0] eqn:Hproc; [done|].
  set (ns := n0 :: ns0) in *.
  set (num := _phase_counter st + 1).
  set (phase_map := foldl (λ m node, <[node_id node := num]> m)
                          (gen_phase_map st) ns).
  split; [|split; [|split]]; simpl.
  - rewrite length_app. simpl. lia.
  - intros i p Hi. apply lookup_app_Some in Hi as [Hi|[Hlen Hi]]; [by apply Hnum|].
    destruct (i - length (gen_phases st)) as [|j] eqn:Hj; [|by destruct j].
    simpl in Hi. injection Hi as <-. simpl. unfold num. lia.
  - intros k v Hk. fold ns in Hk. fold num in Hk.
    apply foldl_phase_map_lookup in Hk as [[-> _]|[Hk _]]; [unfold num; lia|].
    specialize (Hmap k v Hk). lia.
  - intros p [Hp|Hp]%elem_of_app; [by apply Hdeps|].
    apply list_elem_of_singleton in Hp as ->. intros ds Hds. simpl in Hds.
    apply nonempty_Some in Hds as [-> Hne]. split; [done|].
    fold ns. fold num. fold phase_map.
    destruct (get_phase_dependencies_spec ns g phase_map) as [Hsorted Hmem].
    split; [done|]. intros d Hd. simpl.
    apply Hmem in Hd as (node & pred & Hnode & _ & _ & Hpred & Hown).
    unfold phase_map in Hown.
    rewrite (foldl_phase_map_lookup_new num ns node) in Hown by done.
    apply foldl_phase_map_lookup in Hpred as [[-> _]|[Hpred _]]; [done|].
    specialize (Hmap _ _ Hpred). unfold num. lia.
Qed.

Lemma generate_phases_inv g (groups : list (list TaskNode)) :
  ∀ st, gen_inv st → gen_inv (foldl (generate_phase g) st groups).
Proof.
  induction groups as [|group groups IH]; intros st Hst; [done|].
  simpl. by apply IH, generate_phase_inv.
Qed.

(** The subtasks of the phases are the nodes of the groups that are
    neither start nor end nodes, in the order of the groups. *)
Lemma generate_phases_subtasks g (groups : list (list TaskNode)) :
  ∀ st,
    concat (subtasks <$> gen_phases (foldl (generate_phase g) st groups))
    = concat (subtasks <$> gen_phases st)
      ++ (_node_to_subtask <$> filter is_process_node (concat groups)).
Proof.
  induction groups as [|group groups IH]; intros st; simpl.
  { by rewrite app_nil_r. }
  rewrite IH, filter_app, fmap_app, app_assoc. f_equal.
  unfold generate_phase.
  destruct (filter is_process_node group) as [|n ns]; simpl.
  { by rewrite app_nil_r. }
  rewrite fmap_app, concat_app. simpl. by rewrite app_nil_r.
Qed.

Lemma generate_phases_nonempty g (groups : list (list TaskNode)) :
  ∀ st,
    (∀ p, p ∈ gen_phases st → subtasks p ≠ [] ∧ chunks p = subtasks p) →
    ∀ p, p ∈ gen_phases (foldl (generate_phase g) st groups) →
         subtasks p ≠ [] ∧ chunks p = subtasks p.
Proof.
  induction groups as [|group groups IH]; intros st Hst; [done|].
  simpl. apply IH. unfold generate_phase.
  destruct (filter is_process_node group) as [|n ns]; [done|].
  intros p [Hp|Hp]%elem_of_app; [by apply Hst|].
  by apply list_elem_of_singleton in Hp as ->.
Qed.

(** X3. [generate] returns a plan for every graph.  Its phases are
    numbered 1, 2, ... in the order of the list, none is empty, and
    [chunks] is the list of subtasks again.  Taken together the phases
    hold one subtask for every node that is neither a start nor an end
    node, and nothing else: no task is lost, none is planned twice. *)
Theorem generate_numbers_phases_and_keeps_tasks
    (g : TaskGraph) (feature_name : option string) (wt now1 now2 : string) :
  ∃ plan,
    generate g feature_name wt now1 now2 = Some plan
    ∧ (∀ i p, phases plan !! i = Some p →
         phase p = S i ∧ subtasks p ≠ [] ∧ chunks p = subtasks p)
    ∧ concat (subtasks <$> phases plan)
      ≡ₚ _node_to_subtask <$> filter is_process_node (nodes g).
Proof.
  destruct (get_parallel_groups_total g) as [groups Hgroups].
  unfold generate. rewrite Hgroups. cbn [mbind option_bind].
  eexists. split; [done|]. simpl. split.
  - intros i p Hi. split.
    + by apply (generate_phases_inv g groups _ gen_inv_initial).
    + apply (generate_phases_nonempty g groups (mkGenState 0 ∅ [])).
      * by intros ? ?%elem_of_nil.
      * by eapply list_elem_of_lookup_2.
  - rewrite generate_phases_subtasks. simpl.
    by rewrite (parallel_groups_concat g groups).
Qed.

(** X4. In the plan that [generate] returns, the key [depends_on] of a
    phase, when present, is a non-empty list of phase numbers in strictly
    ascending order, each the number of an earlier phase: a phase never
    depends on itself or on a later phase. *)
Theorem generate_depends_on_earlier_phases
    (g : TaskGraph) (feature_name : option string) (wt now1 now2 : string) :
  ∃ plan,
    generate g feature_name wt now1 now2 = Some plan
    ∧ ∀ p ds, p ∈ phases plan → depends_on p = Some ds →
        ds ≠ [] ∧ StronglySorted lt ds ∧ ∀ d, d ∈ ds → 1 ≤ d < phase p.
Proof.
  destruct (get_parallel_groups_total g) as [groups Hgroups].
  unfold generate. rewrite Hgroups. cbn [mbind option_bind].
  eexists. split; [done|]. simpl. intros p ds Hp Hds.
  destruct (generate_phases_inv g groups _ gen_inv_initial) as (_ & _ & _ & Hdeps).
  by apply (Hdeps p Hp).
Qed.


(** ** The index of the graph object *)

Lemma node_map_snoc (ns : list TaskNode) (es : list TaskEdge) md n :
  node_map (mkTaskGraph (ns ++ [n]) es md)
  = <[node_id n := n]> (node_map (mkTaskGraph ns es md)).
Proof. unfold node_map. simpl. by rewrite foldl_app. Qed.

(** The dictionary comprehension keeps, for every id, the last node of
    the list that has it. *)
Lemma node_map_last g i :
  node_map g !! i = last (filter (λ n, node_id n = i) (nodes g)).
Proof.
  destruct g as [ns es md]. simpl.
  induction ns as [|n ns IH] using rev_ind.
  { unfold node_map. simpl. apply lookup_empty. }
  rewrite node_map_snoc, filter_app, filter_cons, filter_nil.
  destruct (decide (node_id n = i)) as [<-|Hne].
  - by rewrite lookup_insert_eq, last_snoc.
  - by rewrite lookup_insert_ne, app_nil_r.
Qed.

Lemma run_calls_index (calls : list GraphCall) :
  ∀ o, _node_map o = node_map (obj_graph o) →
       _node_map (foldl run_call o calls)
       = node_map (obj_graph (foldl run_call o calls)).
Proof.
  induction calls as [|c calls IH]; intros o Ho; [done|].
  simpl. apply IH. destruct c as [n|e]; simpl.
  - destruct o as [[ns es md] m]. simpl in *.
    unfold add_node. simpl. by rewrite node_map_snoc, Ho.
  - by rewrite Ho.
Qed.

Lemma run_calls_nodes (calls : list GraphCall) :
  ∀ o, nodes (obj_graph (foldl run_call o calls))
       = nodes (obj_graph o)
         ++ omap (λ c, match c with CallAddNode n => Some n | _ => None end)
                 calls.
Proof.
  induction calls as [|c calls IH]; intros o; simpl.
  - by rewrite app_nil_r.
  - rewrite IH. destruct c as [n|e]; simpl; [|done].
    by rewrite <- app_assoc.
Qed.

(** X5. Whatever calls of [add_node] and [add_edge] follow the
    construction of a graph, the dictionary [_node_map] that [add_node]
    updates on the side is the one [_rebuild_indexes] would compute from
    the list of nodes, and [get_node] returns the last node of the list
    that has the id asked for, [None] when there is none: a node added
    under an id already in use hides the earlier one, which stays in
    [nodes]. *)
Theorem get_node_is_last_node_with_id
    (g : TaskGraph) (calls : list GraphCall) (i : string) :
  let o := foldl run_call (__post_init__ g) calls in
  _rebuild_indexes o = o
  ∧ obj_get_node o i = last (filter (λ n, node_id n = i) (nodes (obj_graph o)))
  ∧ nodes (obj_graph o)
    = nodes g ++ omap (λ c, match c with CallAddNode n => Some n | _ => None end)
                      calls.
Proof.
  intros o.
  assert (_node_map o = node_map (obj_graph o)) as Hindex
    by by apply run_calls_index.
  split; [|split].
  - unfold _rebuild_indexes. rewrite <- Hindex. by destruct o.
  - unfold obj_get_node. rewrite Hindex. apply node_map_last.
  - apply run_calls_nodes.
Qed.

(** ** The services of a graph *)

Lemma truthy_Some (o : option string) s :
  truthy o = Some s ↔ o = Some s ∧ s ≠ "".
Proof.
  destruct o as [s'|]; simpl; [|naive_solver].
  case_decide; naive_solver.
Qed.

Lemma collect_services_foldl (ns : list TaskNode) :
  ∀ (acc : gset string) s,
    s ∈ foldl (λ acc node,
                 match truthy (_determine_service node) with
                 | Some s => {[s]} ∪ acc
                 | None => acc
                 end) acc ns
    ↔ s ∈ acc ∨ ∃ n, n ∈ ns ∧ truthy (_determine_service n) = Some s.
Proof.
  induction ns as [|n ns IH]; intros acc s; simpl.
  { split; [by left|]. intros [?|(? & []%elem_of_nil & _)]. done. }
  rewrite IH. split.
  - intros [Hs|(n' & ? & ?)]; [|right; exists n'; split; [by right|done]].
    destruct (truthy (_determine_service n)) as [s'|] eqn:Hn; [|by left].
    apply elem_of_union in Hs as [->%elem_of_singleton|?]; [|by left].
    right. exists n. split; [by left|done].
  - intros [Hs|(n' & [->|?]%elem_of_cons & Hn')].
    + left. destruct (truthy (_determine_service n)); [|done].
      apply elem_of_union. by right.
    + left. rewrite Hn'. apply elem_of_union. left. by apply elem_of_singleton.
    + right. by exists n'.
Qed.

(** X6. [_collect_services] lists the services of the graph in
    ascending order, each once: a string is listed exactly when it is
    not empty and is the service of some node, read from the node's
    metadata or else inferred from its name. *)
Theorem collect_services_sorted_unique (g : TaskGraph) :
  StronglySorted String.le (_collect_services g)
  ∧ NoDup (_collect_services g)
  ∧ ∀ s, s ∈ _collect_services g ↔
         s ≠ "" ∧ ∃ n, n ∈ nodes g ∧ _determine_service n = Some s.
Proof.
  unfold _collect_services. split; [|split].
  - apply StronglySorted_merge_sort; apply _.
  - rewrite merge_sort_Permutation. apply NoDup_elements.
  - intros s. rewrite merge_sort_Permutation, elem_of_elements.
    rewrite collect_services_foldl. split.
    + intros [[]%elem_of_empty|(n & Hn & [? ?]%truthy_Some)]. eauto.
    + intros (Hs & n & Hn & Hsvc). right. exists n. split; [done|].
      by apply truthy_Some.
Qed.

(** ** The validator on a graph without nodes *)

(** X7. On a graph without nodes, whatever its edges and metadata,
    [validate] reports the single error [EMPTY_GRAPH] and stops there:
    no other check adds an error or a warning, and the result is not
    valid. *)
Theorem validate_empty_graph (g : TaskGraph) (Hempty : nodes g = []) :
  validate g
  = Some (mkValidationResult false
            [mkValidationError "EMPTY_GRAPH" "The flowchart contains no nodes"
                               None SevError]
            [],
          g).
Proof.
  destruct g as [ns es md]. simpl in Hempty. subst ns.
  unfold validate, run_checks, _check_empty_graph. reflexivity.
Qed.

Lemma validate_empty_graph_witness :
  validate nodeless_graph
  = Some (mkValidationResult false
            [mkValidationError "EMPTY_GRAPH" "The flowchart contains no nodes"
                               None SevError]
            [],
          nodeless_graph).
Proof. apply (validate_empty_graph nodeless_graph). reflexivity. Defined.


(** ** Subtask ids *)

Lemma sanitized_char_lower (c : ascii) :
  id_char c = true → is_sanitized_char (Py.lower_char c) = true.
Proof.
  destruct c as [[] [] [] [] [] [] [] []]; vm_compute; congruence.
Qed.

Lemma sanitized_char_fixed (c : ascii) :
  is_sanitized_char c = true → id_char c = true ∧ Py.lower_char c = c.
Proof.
  destruct c as [[] [] [] [] [] [] [] []]; vm_compute; intros; split; congruence.
Qed.

Lemma lower_char_dash (c : ascii) :
  Py.lower_char c = "-"%char ↔ c = "-"%char.
Proof.
  destruct c as [[] [] [] [] [] [] [] []]; vm_compute; split; congruence.
Qed.

Lemma id_char_dash : id_char "-" = true.
Proof. reflexivity. Qed.

Lemma list_ascii_inj (s1 s2 : string) :
  chars s1 = chars s2 → s1 = s2.
Proof.
  intros H. rewrite <- (String.string_of_list_ascii_of_string s1),
    <- (String.string_of_list_ascii_of_string s2). by rewrite H.
Qed.

Lemma list_ascii_map_chars (f : ascii → ascii) (s : string) :
  chars (Py.map_chars f s) = f <$> chars s.
Proof. induction s as [|c s IH]; simpl; [done|]. by rewrite IH. Qed.

Lemma map_chars_fixed (f : ascii → ascii) (s : string) :
  Forall (λ c, f c = c) (chars s) → Py.map_chars f s = s.
Proof.
  induction s as [|c s IH]; simpl; [done|].
  intros [Hc Hs]%Forall_cons. by rewrite Hc, IH.
Qed.

Lemma list_ascii_rev_app (s1 s2 : string) :
  chars (String.rev_app s1 s2)
  = reverse (chars s1) ++ chars s2.
Proof.
  revert s2. induction s1 as [|c s1 IH]; intros s2; simpl; [done|].
  rewrite IH, reverse_cons. simpl. by rewrite <- app_assoc.
Qed.

Lemma list_ascii_rev (s : string) :
  chars (String.rev s) = reverse (chars s).
Proof. unfold String.rev. rewrite list_ascii_rev_app. simpl. apply app_nil_r. Qed.

(** *** [re.sub(r"-+", "-", s)] *)

Lemma collapse_dashes_cons (c c' : ascii) (s' : string) :
  collapse_dashes (String c (String c' s'))
  = if bool_decide (c = "-"%char) && bool_decide (c' = "-"%char)
    then collapse_dashes (String c' s')
    else String c (collapse_dashes (String c' s')).
Proof. reflexivity. Qed.

Lemma collapse_dashes_head (s : string) :
  head (chars (collapse_dashes s)) = head (chars s).
Proof.
  induction s as [|c s IH]; [done|].
  destruct s as [|c' s']; [done|].
  rewrite collapse_dashes_cons.
  destruct (bool_decide (c = "-"%char) && bool_decide (c' = "-"%char)) eqn:Hcc;
    [|done].
  apply andb_true_iff in Hcc as [->%bool_decide_eq_true ->%bool_decide_eq_true].
  by rewrite IH.
Qed.

Lemma collapse_dashes_Forall (P : ascii → Prop) (s : string) :
  Forall P (chars s) →
  Forall P (chars (collapse_dashes s)).
Proof.
  induction s as [|c s IH]; [done|].
  destruct s as [|c' s']; [done|].
  intros [Hc Hs]%Forall_cons. rewrite collapse_dashes_cons.
  destruct (bool_decide (c = "-"%char) && bool_decide (c' = "-"%char));
    [by apply IH|].
  change (Forall P (c :: chars (collapse_dashes (String c' s')))).
  apply Forall_cons. split; [done|by apply IH].
Qed.

Lemma collapse_dashes_no_double (s : string) k :
  chars (collapse_dashes s) !! k = Some "-"%char →
  chars (collapse_dashes s) !! S k ≠ Some "-"%char.
Proof.
  revert k. induction s as [|c s IH]; intros k; [done|].
  destruct s as [|c' s']; [by destruct k|].
  rewrite collapse_dashes_cons.
  destruct (bool_decide (c = "-"%char) && bool_decide (c' = "-"%char)) eqn:Hcc;
    [by apply IH|].
  change (chars (String c (collapse_dashes (String c' s'))))
    with (c :: chars (collapse_dashes (String c' s'))).
  destruct k as [|k]; [|by apply IH].
  intros Hc0 Hc1. simpl in Hc0. injection Hc0 as ->.
  change (chars (collapse_dashes (String c' s')) !! 0 = Some "-"%char) in Hc1.
  rewrite <- head_lookup, collapse_dashes_head in Hc1. simpl in Hc1.
  injection Hc1 as ->. done.
Qed.

Lemma collapse_dashes_fixed (s : string) :
  (∀ k, chars s !! k = Some "-"%char →
        chars s !! S k ≠ Some "-"%char) →
  collapse_dashes s = s.
Proof.
  induction s as [|c s IH]; [done|].
  destruct s as [|c' s']; [done|]. intros Hno.
  rewrite collapse_dashes_cons.
  destruct (bool_decide (c = "-"%char) && bool_decide (c' = "-"%char)) eqn:Hcc.
  - apply andb_true_iff in Hcc as [->%bool_decide_eq_true ->%bool_decide_eq_true].
    by destruct (Hno 0).
  - f_equal. apply IH. intros k. apply (Hno (S k)).
Qed.

(** *** [s.strip("-")] *)

Lemma lstrip_dashes_spec (s : string) :
  ∃ k, chars s
       = replicate k "-"%char ++ chars (lstrip_dashes s)
       ∧ head (chars (lstrip_dashes s)) ≠ Some "-"%char.
Proof.
  induction s as [|c s (k & Hk & Hhead)]; [by exists 0|].
  simpl. case_bool_decide as Hc.
  - subst c. exists (S k). simpl. by rewrite <- Hk.
  - exists 0. simpl. split; [done|]. by intros [= ->].
Qed.

Lemma lstrip_dashes_fixed (s : string) :
  head (chars s) ≠ Some "-"%char → lstrip_dashes s = s.
Proof.
  destruct s as [|c s]; [done|]. simpl. intros Hc.
  rewrite bool_decide_eq_false_2; [done|]. by intros ->.
Qed.

Lemma strip_dashes_spec (s : string) :
  ∃ k m, chars s
         = replicate k "-"%char ++ chars (strip_dashes s)
           ++ replicate m "-"%char
         ∧ head (chars (strip_dashes s)) ≠ Some "-"%char
         ∧ last (chars (strip_dashes s)) ≠ Some "-"%char.
Proof.
  unfold strip_dashes.
  destruct (lstrip_dashes_spec s) as (k & Hk & Hhead).
  destruct (lstrip_dashes_spec (String.rev (lstrip_dashes s))) as (m & Hm & Hlast).
  set (t := lstrip_dashes (String.rev (lstrip_dashes s))) in *.
  rewrite list_ascii_rev in Hm.
  assert (chars (lstrip_dashes s)
          = chars (String.rev t) ++ replicate m "-"%char) as Hmid.
  { rewrite list_ascii_rev. apply (inj reverse).
    rewrite Hm, reverse_app, reverse_involutive, reverse_replicate. done. }
  exists k, m. split; [by rewrite Hk, Hmid|]. split.
  - rewrite Hmid in Hhead.
    destruct (chars (String.rev t)); [done|exact Hhead].
  - rewrite list_ascii_rev, last_reverse. exact Hlast.
Qed.

Lemma strip_dashes_fixed (s : string) :
  head (chars s) ≠ Some "-"%char →
  last (chars s) ≠ Some "-"%char →
  strip_dashes s = s.
Proof.
  intros Hhead Hlast. unfold strip_dashes.
  rewrite (lstrip_dashes_fixed s Hhead).
  rewrite lstrip_dashes_fixed.
  - apply list_ascii_inj. by rewrite !list_ascii_rev, reverse_involutive.
  - by rewrite list_ascii_rev, head_reverse.
Qed.

(** What the three steps before [lower()] give. *)
Lemma sanitize_steps (i : string) :
  let s := strip_dashes (collapse_dashes (replace_special i)) in
  Forall (λ c, id_char c = true) (chars s)
  ∧ head (chars s) ≠ Some "-"%char
  ∧ last (chars s) ≠ Some "-"%char
  ∧ ∀ k, chars s !! k = Some "-"%char →
         chars s !! S k ≠ Some "-"%char.
Proof.
  intros s.
  destruct (strip_dashes_spec (collapse_dashes (replace_special i)))
    as (k & m & Hsplit & Hhead & Hlast).
  fold s in Hsplit, Hhead, Hlast.
  assert (Forall (λ c, id_char c = true)
            (chars (collapse_dashes (replace_special i)))) as Hall.
  { apply collapse_dashes_Forall. unfold replace_special.
    rewrite list_ascii_map_chars. apply Forall_fmap, Forall_forall.
    intros c _. simpl. destruct (id_char c) eqn:Hc; [done|apply id_char_dash]. }
  split; [|split; [done|split; [done|]]].
  - rewrite Hsplit in Hall.
    by apply Forall_app in Hall as [_ [? _]%Forall_app].
  - intros j Hj Hj'.
    apply (collapse_dashes_no_double (replace_special i) (k + j)).
    + rewrite Hsplit, lookup_app_r by (rewrite length_replicate; lia).
      rewrite length_replicate. replace (k + j - k) with j by lia.
      by rewrite lookup_app_l by by eapply lookup_lt_Some.
    + rewrite Hsplit.
      rewrite lookup_app_r by (rewrite length_replicate; lia).
      rewrite length_replicate. replace (S (k + j) - k) with (S j) by lia.
      by rewrite lookup_app_l by by eapply lookup_lt_Some.
Qed.

(** X8. The subtask id made from a node id by [_sanitize_id] is made
    of lower-case letters, digits, underscores and dashes only; it
    neither starts nor ends with a dash and has no two dashes in a row;
    and sanitising it again changes nothing. *)
Theorem sanitize_id_alphabet_and_idempotent (i : string) :
  let cs := chars (_sanitize_id i) in
  Forall (λ c, is_sanitized_char c = true) cs
  ∧ head cs ≠ Some "-"%char
  ∧ last cs ≠ Some "-"%char
  ∧ (∀ k, cs !! k = Some "-"%char → cs !! S k ≠ Some "-"%char)
  ∧ _sanitize_id (_sanitize_id i) = _sanitize_id i.
Proof.
  intros cs.
  destruct (sanitize_steps i) as (Hall & Hhead & Hlast & Hno).
  set (s := strip_dashes (collapse_dashes (replace_special i))) in *.
  assert (cs = Py.lower_char <$> chars s) as Hcs
    by apply list_ascii_map_chars.
  assert (∀ k, cs !! k = Some "-"%char ↔
               chars s !! k = Some "-"%char) as Hdash.
  { intros k. rewrite Hcs, list_lookup_fmap.
    destruct (chars s !! k) as [c|]; simpl; [|done].
    split; intros [= H]; f_equal; by apply lower_char_dash. }
  assert (Forall (λ c, is_sanitized_char c = true) cs) as Hsan.
  { rewrite Hcs. apply Forall_fmap. eapply Forall_impl; [exact Hall|].
    intros c Hc. by apply sanitized_char_lower. }
  assert (head cs ≠ Some "-"%char) as Hhead'.
  { rewrite head_lookup, Hdash, <- head_lookup. exact Hhead. }
  assert (last cs ≠ Some "-"%char) as Hlast'.
  { rewrite Hcs, fmap_last.
    destruct (last (chars s)) as [c|] eqn:Hl; simpl; [|done].
    intros Heq. injection Heq as Hc.
    apply (proj1 (lower_char_dash c)) in Hc. congruence. }
  assert (∀ k, cs !! k = Some "-"%char → cs !! S k ≠ Some "-"%char) as Hno'.
  { intros k Hk. rewrite Hdash. apply Hno. by apply Hdash. }
  split; [done|]. split; [done|]. split; [done|]. split; [done|].
  unfold _sanitize_id at 1. fold s.
  change (Py.lower s) with (_sanitize_id i). fold cs in Hsan.
  assert (replace_special (_sanitize_id i) = _sanitize_id i) as ->.
  { apply map_chars_fixed. eapply Forall_impl; [exact Hsan|].
    intros c [-> _]%sanitized_char_fixed. done. }
  rewrite collapse_dashes_fixed by exact Hno'.
  rewrite strip_dashes_fixed by done.
  apply map_chars_fixed. eapply Forall_impl; [exact Hsan|].
  by intros c [_ ?]%sanitized_char_fixed.
Qed.


(** ** The checks do not read the result *)

Lemma with_reports_nil r : with_reports r [] [] = r.
Proof.
  destruct r as [v es ws]. unfold with_reports. simpl.
  by rewrite andb_true_r, !app_nil_r.
Qed.

Lemma with_reports_app r es ws es' ws' :
  with_reports (with_reports r es ws) es' ws'
  = with_reports r (es ++ es') (ws ++ ws').
Proof.
  unfold with_reports. simpl. rewrite <- !app_assoc. f_equal.
  rewrite <- andb_assoc. f_equal. by destruct es, es'.
Qed.

Lemma reports_ret {A} (a : A) g : reports (mret a) g a [] [].
Proof. intros r. by rewrite with_reports_nil. Qed.

Lemma reports_bind {A B} (m : M A) (f : A → M B) g a b es ws es' ws' :
  reports m g a es ws → reports (f a) g b es' ws' →
  reports (m ≫= f) g b (es ++ es') (ws ++ ws').
Proof.
  intros Hm Hf r. unfold mbind, M_bind. rewrite Hm, Hf.
  by rewrite with_reports_app.
Qed.

Lemma reports_run_check {A} (check : M A) g a es ws :
  reports check g a es ws →
  run_check check g = Some (with_reports new_result es ws).
Proof. intros H. unfold run_check. by rewrite H. Qed.

Lemma oblivious_ret {A} (a : A) g : oblivious (mret a) g.
Proof. exists a, [], []. apply reports_ret. Qed.

Lemma oblivious_bind {A B} (m : M A) (f : A → M B) g :
  oblivious m g → (∀ a, oblivious (f a) g) → oblivious (m ≫= f) g.
Proof.
  intros (a & es & ws & Hm) Hf. destruct (Hf a) as (b & es' & ws' & Hfa).
  exists b, (es ++ es'), (ws ++ ws'). by eapply reports_bind.
Qed.

Lemma oblivious_read_graph g : oblivious read_graph g.
Proof. exists g, [], []. intros r. by rewrite with_reports_nil. Qed.

Lemma oblivious_add_error c m i g : oblivious (result_add_error c m i) g.
Proof.
  exists (), [mkValidationError c m i SevError], []. intros r.
  unfold result_add_error, add_error, with_reports. simpl.
  by rewrite andb_false_r, app_nil_r.
Qed.

Lemma oblivious_add_warning c m i g : oblivious (result_add_warning c m i) g.
Proof.
  exists (), [], [mkValidationError c m i SevWarning]. intros r.
  unfold result_add_warning, add_warning, with_reports. simpl.
  by rewrite andb_true_r, app_nil_r.
Qed.

Lemma oblivious_lift_bind {A B} (o : option A) (a : A) (f : A → M B) g :
  o = Some a → oblivious (f a) g → oblivious (lift_option o ≫= f) g.
Proof. intros -> (b & es & ws & Hf). exists b, es, ws. intros r. apply Hf. Qed.

Lemma oblivious_for_each {A} (body : A → M unit) (xs : list A) g :
  (∀ x, oblivious (body x) g) → oblivious (for_each body xs) g.
Proof.
  intros Hbody. induction xs as [|x xs IH]; simpl.
  - apply oblivious_ret.
  - apply oblivious_bind; [apply Hbody|]. by intros _.
Qed.

Ltac oblivious_step :=
  first
    [ apply oblivious_ret
    | apply oblivious_read_graph
    | apply oblivious_add_error
    | apply oblivious_add_warning
    | apply oblivious_bind; [|intros ?]
    | apply oblivious_for_each; intros ?
    | match goal with
      | |- oblivious (match ?x with _ => _ end) _ => destruct x
      end ].

Ltac oblivious_auto := repeat oblivious_step.

Lemma oblivious_check_start_nodes g : oblivious _check_start_nodes g.
Proof. unfold _check_start_nodes. oblivious_auto. Qed.

Lemma oblivious_check_end_nodes g : oblivious _check_end_nodes g.
Proof. unfold _check_end_nodes. oblivious_auto. Qed.

Lemma oblivious_check_edge_references g : oblivious _check_edge_references g.
Proof. unfold _check_edge_references. oblivious_auto. Qed.

Lemma oblivious_check_decision_nodes g : oblivious _check_decision_nodes g.
Proof. unfold _check_decision_nodes. oblivious_auto. Qed.

Lemma oblivious_check_orphan_nodes g : oblivious _check_orphan_nodes g.
Proof. unfold _check_orphan_nodes. oblivious_auto. Qed.

Lemma oblivious_check_node_names g : oblivious _check_node_names g.
Proof. unfold _check_node_names. oblivious_auto. Qed.

Lemma oblivious_report_cycle g0 cycle g : oblivious (report_cycle g0 cycle) g.
Proof. unfold report_cycle. oblivious_auto. Qed.

Lemma oblivious_check_connectivity g : oblivious _check_connectivity g.
Proof.
  unfold _check_connectivity. apply oblivious_bind; [apply oblivious_read_graph|].
  intros graph.
  destruct (get_start_node graph) as [start_node|]; [|apply oblivious_ret].
  destruct (check_connectivity_bfs_total graph (node_id start_node)) as [v Hv].
  apply oblivious_lift_bind with v; [done|]. oblivious_auto.
Qed.

Lemma oblivious_check_cycles_loop g0 (ns : list TaskNode) g :
  ∀ st, (∀ n, n ∈ ns → node_id n ∈ node_ids g0) → dfs_inv g0 st →
        oblivious (check_cycles_loop g0 st ns) g.
Proof.
  induction ns as [|n ns IH]; intros st Hns Hinv; simpl; [apply oblivious_ret|].
  pose proof Hinv as (Hdom & Hwhite & _).
  assert (node_id n ∈ dom (colors st)) as [c Hc]%elem_of_dom.
  { rewrite Hdom. apply Hns. by left. }
  assert (∀ n', n' ∈ ns → node_id n' ∈ node_ids g0) as Hns'.
  { intros n' Hn'. apply Hns. by right. }
  apply oblivious_lift_bind with c; [done|].
  case_decide as Hw; [subst c|by apply IH].
  assert (node_id n ∈ white_ids (colors st)) as Hnw by by apply elem_of_white_ids.
  destruct (dfs_total g0 (dfs_fuel g0) st (node_id n))
    as (r & st' & Hrun & Hinv' & _ & _).
  - apply dfs_inv_gray; [done..|]. left. by apply Hwhite.
  - rewrite white_ids_insert by done. unfold dfs_fuel.
    pose proof (subset_size (white_ids (colors st) ∖ {[node_id n]})
                  (white_ids (colors st)) ltac:(set_solver)).
    pose proof (subseteq_size _ _ (white_ids_dom (colors st))).
    pose proof (size_node_ids_le g0). rewrite Hdom in *. lia.
  - apply oblivious_lift_bind with (r, st'); [done|].
    apply oblivious_bind; [|intros _; by apply IH].
    destruct r as [[|c0 cycle]|];
      [apply oblivious_ret|apply oblivious_report_cycle|apply oblivious_ret].
Qed.

Lemma oblivious_check_cycles g : oblivious _check_cycles g.
Proof.
  unfold _check_cycles. apply oblivious_bind; [apply oblivious_read_graph|].
  intros graph. apply oblivious_check_cycles_loop; [|apply dfs_inv_initial].
  intros n Hn. apply node_ids_elem. eauto.
Qed.

Lemma oblivious_checks g check : check ∈ checks → oblivious check g.
Proof.
  unfold checks. intros Hc.
  repeat (apply elem_of_cons in Hc as [->|Hc]);
    [apply oblivious_check_start_nodes
    |apply oblivious_check_end_nodes
    |apply oblivious_check_edge_references
    |apply oblivious_check_decision_nodes
    |apply oblivious_check_orphan_nodes
    |apply oblivious_check_connectivity
    |apply oblivious_check_cycles
    |apply oblivious_check_node_names
    |by apply elem_of_nil in Hc].
Qed.

(** A sequence of checks that do not read the result adds what each of
    them adds when run alone, in the order of the sequence. *)
Lemma run_sequence g (cs : list (M unit)) :
  (∀ check, check ∈ cs → oblivious check g) →
  ∃ rs, mapM (λ check, run_check check g) cs = Some rs
        ∧ Forall (λ r, valid r = match errors r with [] => true | _ => false end)
                 rs
        ∧ ∀ B (rest : M B) r,
            foldr (λ check k, check ≫= λ _, k) rest cs (mkStore g r)
            = rest (mkStore g (with_reports r (concat (errors <$> rs))
                                            (concat (warnings <$> rs)))).
Proof.
  induction cs as [|c cs IH]; intros Hcs.
  { exists []. split; [done|]. split; [constructor|].
    intros B rest r. simpl. by rewrite with_reports_nil. }
  destruct IH as (rs & Hrs & Hvalid & Hrun); [intros ??; apply Hcs; by right|].
  destruct (Hcs c) as ([] & es & ws & Hc); [by left|].
  exists (with_reports new_result es ws :: rs). split; [|split].
  - cbn [mapM]. rewrite (reports_run_check c g () es ws Hc), Hrs. done.
  - constructor; [|done]. simpl. by destruct es.
  - intros B rest r. cbn [foldr]. unfold mbind at 1, M_bind at 1.
    rewrite Hc, Hrun, with_reports_app. done.
Qed.

(** X9. On a graph that has nodes, [validate] returns what its
    eight checks report when each is run alone with a fresh result: the
    errors of the result are the errors of the checks, appended in the
    order of the checks, and so are the warnings; the result is valid
    exactly when every check alone is.  No check reads what another
    wrote. *)
Theorem validate_concatenates_checks (g : TaskGraph) (Hnodes : nodes g ≠ []) :
  ∃ r rs,
    validate g = Some (r, g)
    ∧ mapM (λ check, run_check check g) checks = Some rs
    ∧ errors r = concat (errors <$> rs)
    ∧ warnings r = concat (warnings <$> rs)
    ∧ valid r = forallb valid rs.
Proof.
  destruct (run_sequence g checks (oblivious_checks g))
    as (rs & Hrs & Hvalid & Hrun).
  exists (with_reports new_result (concat (errors <$> rs))
                       (concat (warnings <$> rs))), rs.
  split; [|split; [done|split; [done|split; [done|]]]].
  - unfold validate.
    assert (run_checks (mkStore g new_result)
            = foldr (λ check k, check ≫= λ _, k) read_result checks
                    (mkStore g new_result)) as ->.
    { destruct g as [[|n ns] es md]; [done|]. reflexivity. }
    by rewrite Hrun.
  - simpl. clear Hrs Hrun. induction Hvalid as [|r rs Hr _ IH]; [done|].
    simpl. rewrite Hr. destruct (errors r); simpl; [exact IH|done].
Qed.

Lemma validate_concatenates_checks_witness :
  ∃ r rs,
    validate chain_graph = Some (r, chain_graph)
    ∧ mapM (λ check, run_check check chain_graph) checks = Some rs
    ∧ errors r = concat (errors <$> rs)
    ∧ warnings r = concat (warnings <$> rs)
    ∧ valid r = forallb valid rs.
Proof. apply (validate_concatenates_checks chain_graph). done. Defined.


(** ** The depth-first search on a graph without cycles *)

Section dfs_acyclic.
Context (g : TaskGraph) (Hacyclic : acyclic g).

Lemma dfs_successors_acyclic walk_fuel rec (i : string) :
  finds_nothing g rec →
  ∀ (succs : list TaskNode) st r st',
    (∀ s, s ∈ succs → edge_between g i (node_id s)) →
    colors st !! i = Some GRAY →
    (∀ x, colors st !! x = Some GRAY → rtc (edge_between g) x i) →
    dfs_successors walk_fuel rec i st succs = Some (r, st') →
    r = None
    ∧ ∀ x, colors st' !! x = Some GRAY ↔ colors st !! x = Some GRAY ∧ x ≠ i.
Proof.
  intros Hrec. induction succs as [|s succs IH]; intros st r st' Hsuccs Hi Hgray.
  { simpl. intros [= <- <-]. split; [done|]. intros x. simpl.
    destruct (decide (x = i)) as [->|Hne].
    - rewrite lookup_insert_eq. naive_solver.
    - rewrite lookup_insert_ne by done. naive_solver. }
  assert (edge_between g i (node_id s)) as Hedge by (apply Hsuccs; by left).
  assert (∀ s', s' ∈ succs → edge_between g i (node_id s')) as Hsuccs'
    by (intros ??; apply Hsuccs; by right).
  cbn [dfs_successors].
  destruct (colors st !! node_id s) as [[| |]|] eqn:Hc; cbn [mbind option_bind];
    [| |by apply IH|done].
  - (* white *)
    destruct (rec _ (node_id s)) as [[found st2]|] eqn:Hcall; [|done].
    cbn [mbind option_bind].
    assert (node_id s ∈ node_ids g) as Hs by by destruct Hedge as (_ & ? & _).
    assert (∀ x, colors st !! x = Some GRAY →
                 rtc (edge_between g) x (node_id s)) as Hreach.
    { intros x Hx. eapply rtc_r; [by apply Hgray|done]. }
    eapply Hrec in Hcall as [-> Hgray2]; [|done|exact Hreach].
    simpl in Hgray2. intros Hrun.
    destruct (IH st2 r st' Hsuccs') as [-> Hgray']; [| |done|].
    + apply Hgray2. split; [done|]. intros ->. congruence.
    + intros x [Hx _]%Hgray2. by apply Hgray.
    + split; [done|]. intros x. rewrite Hgray', Hgray2. split; [naive_solver|].
      intros [Hx Hxi]. split; [|done]. split; [done|]. intros ->. congruence.
  - (* gray: the edge closes a cycle *)
    destruct Hacyclic. exists i.
    eapply tc_rtc_r; [by apply tc_once|]. by apply Hgray.
Qed.

Lemma dfs_acyclic (fuel : nat) : finds_nothing g (dfs fuel g).
Proof.
  induction fuel as [|fuel IH]; intros st j r st' Hj Hgray; [done|].
  cbn [dfs]. intros Hrun.
  eapply dfs_successors_acyclic in Hrun as [-> Hgray']; [|done|..].
  - split; [done|]. intros x. rewrite Hgray'. simpl.
    destruct (decide (x = j)) as [->|Hne].
    + rewrite lookup_insert_eq. naive_solver.
    + rewrite lookup_insert_ne by done. naive_solver.
  - intros s [Hs (e & He & Hsrc & Htgt)]%get_successors_elem.
    split; [done|]. split; [apply node_map_is_Some; eauto|]. eauto.
  - simpl. by rewrite lookup_insert_eq.
  - intros x. simpl. destruct (decide (x = j)) as [->|Hne].
    + done.
    + rewrite lookup_insert_ne by done. apply Hgray.
Qed.

(** The loop over the nodes leaves the result alone. *)
Lemma check_cycles_loop_acyclic (ns : list TaskNode) :
  ∀ st s,
    (∀ n, n ∈ ns → node_id n ∈ node_ids g) → dfs_inv g st →
    (∀ x, colors st !! x ≠ Some GRAY) →
    check_cycles_loop g st ns s = Some ((), s).
Proof.
  induction ns as [|n ns IH]; intros st s Hns Hinv Hnogray;
    cbn [check_cycles_loop]; [done|].
  pose proof Hinv as (Hdom & Hwhite & _).
  assert (node_id n ∈ node_ids g) as Hn by (apply Hns; by left).
  assert (node_id n ∈ dom (colors st)) as [c Hc]%elem_of_dom by by rewrite Hdom.
  assert (∀ n', n' ∈ ns → node_id n' ∈ node_ids g) as Hns'
    by (intros ??; apply Hns; by right).
  unfold mbind, M_bind, lift_option. rewrite Hc.
  case_decide as Hw; [subst c|by apply IH].
  assert (node_id n ∈ white_ids (colors st)) as Hnw by by apply elem_of_white_ids.
  destruct (dfs_total g (dfs_fuel g) st (node_id n))
    as (r & st' & Hrun & Hinv' & _ & _).
  - apply dfs_inv_gray; [done..|]. left. by apply Hwhite.
  - rewrite white_ids_insert by done. unfold dfs_fuel.
    pose proof (subset_size (white_ids (colors st) ∖ {[node_id n]})
                  (white_ids (colors st)) ltac:(set_solver)).
    pose proof (subseteq_size _ _ (white_ids_dom (colors st))).
    pose proof (size_node_ids_le g). rewrite Hdom in *. lia.
  - rewrite Hrun.
    assert (∀ x, colors st !! x = Some GRAY →
                 rtc (edge_between g) x (node_id n)) as Hreach
      by (by intros x ?%Hnogray).
    destruct (dfs_acyclic _ _ _ _ _ Hn Hreach Hrun) as [-> Hgray].
    simpl. apply IH; [done..|]. intros x [? _]%Hgray. by eapply Hnogray.
Qed.

Lemma check_cycles_acyclic r : _check_cycles (mkStore g r) = Some ((), mkStore g r).
Proof.
  unfold _check_cycles, mbind, M_bind, read_graph. simpl.
  apply check_cycles_loop_acyclic.
  - intros n Hn. apply node_ids_elem. eauto.
  - apply dfs_inv_initial.
  - intros x Hx. unfold initial_dfs_state in Hx. simpl in Hx.
    apply foldl_insert_const_lookup in Hx as [?|Hx]; [done|].
    by rewrite lookup_empty in Hx.
Qed.

End dfs_acyclic.

(** ** The errors of each check *)

Lemma oblivious_check_errors {A} (check : M A) g :
  oblivious check g → ∃ a ws, reports check g a (check_errors check g) ws.
Proof.
  intros (a & es & ws & H). exists a, ws.
  unfold check_errors. by rewrite (reports_run_check _ _ _ _ _ H).
Qed.

Lemma for_each_check_errors {A} (body : A → M unit) (xs : list A) g :
  (∀ x, oblivious (body x) g) →
  ∃ ws, reports (for_each body xs) g ()
                (concat ((λ x, check_errors (body x) g) <$> xs)) ws.
Proof.
  intros Hbody. induction xs as [|x xs [ws IH]]; simpl.
  - exists []. apply reports_ret.
  - destruct (oblivious_check_errors (body x) g (Hbody x)) as ([] & ws' & Hx).
    exists (ws' ++ ws). by eapply reports_bind.
Qed.

Lemma check_errors_read_for_each {A} (xs : TaskGraph → list A)
    (body : TaskGraph → A → M unit) g :
  (∀ x, oblivious (body g x) g) →
  check_errors (graph ← read_graph; for_each (body graph) (xs graph)) g
  = concat ((λ x, check_errors (body g x) g) <$> xs g).
Proof.
  intros Hbody. destruct (for_each_check_errors (body g) (xs g) g Hbody) as [ws H].
  unfold check_errors at 1, run_check, mbind, M_bind, read_graph. simpl.
  by rewrite H.
Qed.

Lemma concat_nil_Forall {A} (ls : list (list A)) :
  concat ls = [] ↔ Forall (λ l, l = []) ls.
Proof.
  induction ls as [|l ls IH]; simpl; [by split|].
  rewrite Forall_cons, <- IH. split.
  - by intros [-> ->]%app_nil.
  - by intros [-> ->].
Qed.

Lemma check_errors_for_each_nil {A} (xs : TaskGraph → list A)
    (body : TaskGraph → A → M unit) g :
  (∀ x, oblivious (body g x) g) →
  check_errors (graph ← read_graph; for_each (body graph) (xs graph)) g = []
  ↔ ∀ x, x ∈ xs g → check_errors (body g x) g = [].
Proof.
  intros Hbody. rewrite check_errors_read_for_each by done.
  by rewrite concat_nil_Forall, Forall_fmap, Forall_forall.
Qed.

Lemma start_nodes_errors g :
  check_errors _check_start_nodes g = [] ↔
  (∃ s, filter (λ n, node_type n = START) (nodes g) = [s])
  ∨ (filter (λ n, node_type n = START) (nodes g) = []
     ∧ ∃ n, n ∈ nodes g ∧ ∀ e, e ∈ edges g → target_id e ≠ node_id n).
Proof.
  unfold check_errors, run_check, _check_start_nodes, mbind, M_bind, read_graph.
  simpl.
  destruct (filter (λ n, node_type n = START) (nodes g)) as [|s1 [|s2 l]] eqn:Hs.
  - destruct (filter (λ n, node_id n ∉ _) (nodes g)) as [|p ps] eqn:Hp; simpl.
    + split; [done|]. intros [[? ?]|[_ (n & Hn & Hin)]]; [done|].
      assert (n ∈ filter (λ n, node_id n ∉ (list_to_set (target_id <$> edges g)
                                                : gset string)) (nodes g)) as Hf.
      { apply list_elem_of_filter. split; [|done].
        rewrite elem_of_list_to_set, list_elem_of_fmap.
        intros (e & ? & ?). by eapply Hin. }
      rewrite Hp in Hf. by apply elem_of_nil in Hf.
    + split; [|done]. intros _. right. split; [done|].
      assert (p ∈ filter (λ n, node_id n ∉ (list_to_set (target_id <$> edges g)
                                                : gset string)) (nodes g)) as Hf
        by (rewrite Hp; by left).
      apply list_elem_of_filter in Hf as [Hout Hin]. exists p. split; [done|].
      intros e He Heq. apply Hout.
      rewrite elem_of_list_to_set, list_elem_of_fmap. eauto.
  - simpl. split; [|done]. intros _. left. eauto.
  - simpl. split; [done|]. intros [[? ?]|[? _]]; done.
Qed.

Lemma end_nodes_errors g :
  check_errors _check_end_nodes g = [] ↔
  get_end_nodes g ≠ []
  ∨ ∃ n, n ∈ nodes g ∧ node_type n ≠ START
         ∧ ∀ e, e ∈ edges g → source_id e ≠ node_id n.
Proof.
  unfold check_errors, run_check, _check_end_nodes, mbind, M_bind, read_graph,
    get_end_nodes.
  simpl.
  destruct (filter (λ n, node_type n = END) (nodes g)) as [|s1 l] eqn:Hs;
    [|simpl; split; [by left|done]].
  destruct (filter (λ n, node_type n ≠ START) _) as [|p ps] eqn:Hp; simpl.
  - split; [done|]. intros [?|(n & Hn & Htype & Hout)]; [done|].
    assert (n ∈ filter (λ n, node_type n ≠ START)
                  (filter (λ n, node_id n ∉ (list_to_set (source_id <$> edges g)
                                               : gset string)) (nodes g))) as Hf.
    { apply list_elem_of_filter. split; [done|].
      apply list_elem_of_filter. split; [|done].
      rewrite elem_of_list_to_set, list_elem_of_fmap.
      intros (e & ? & ?). by eapply Hout. }
    rewrite Hp in Hf. by apply elem_of_nil in Hf.
  - split; [|done]. intros _. right.
    assert (p ∈ filter (λ n, node_type n ≠ START)
                  (filter (λ n, node_id n ∉ (list_to_set (source_id <$> edges g)
                                               : gset string)) (nodes g))) as Hf
      by (rewrite Hp; by left).
    apply list_elem_of_filter in Hf as [Htype [Hout Hin]%list_elem_of_filter].
    exists p. split; [done|]. split; [done|].
    intros e He Heq. apply Hout.
    rewrite elem_of_list_to_set, list_elem_of_fmap. eauto.
Qed.

Lemma edge_references_errors g :
  check_errors _check_edge_references g = [] ↔
  ∀ e, e ∈ edges g → source_id e ∈ node_ids g ∧ target_id e ∈ node_ids g.
Proof.
  unfold _check_edge_references.
  rewrite (check_errors_for_each_nil edges); [|intros e; oblivious_auto].
  apply forall_proper. intros e. apply forall_proper. intros He.
  unfold check_errors, run_check, mbind, M_bind. fold (node_ids g).
  destruct (decide (source_id e ∉ node_ids g)) as [Hs|Hs%dec_stable];
    destruct (decide (target_id e ∉ node_ids g)) as [Ht|Ht%dec_stable]; simpl;
    naive_solver.
Qed.

Lemma decision_nodes_errors g :
  check_errors _check_decision_nodes g = [] ↔
  ∀ n, n ∈ nodes g → node_type n = DECISION →
       2 ≤ length (get_outgoing_edges g (node_id n)).
Proof.
  unfold _check_decision_nodes.
  rewrite (check_errors_for_each_nil nodes); [|intros n; oblivious_auto].
  apply forall_proper. intros n. apply forall_proper. intros Hn.
  unfold check_errors, run_check.
  destruct (decide (node_type n ≠ DECISION)) as [Hd|Hd%dec_stable];
    [simpl; naive_solver|].
  destruct (decide (length (get_outgoing_edges g (node_id n)) < 2)) as [Hl|Hl].
  { simpl. split; [done|]. intros H. specialize (H Hd). lia. }
  destruct (decide (length (get_outgoing_edges g (node_id n)) = 2)).
  - destruct (omap _ _); simpl; split; try done; intros _ _; lia.
  - simpl. split; [|done]. intros _ _. lia.
Qed.

Lemma nodes_with_edges_elem (es : list TaskEdge) :
  ∀ (acc : gset string) i,
    i ∈ foldl (λ acc edge, {[target_id edge]} ∪ ({[source_id edge]} ∪ acc)) acc es
    ↔ i ∈ acc ∨ ∃ e, e ∈ es ∧ (source_id e = i ∨ target_id e = i).
Proof.
  induction es as [|e es IH]; intros acc i; simpl.
  { split; [by left|]. intros [?|(? & []%elem_of_nil & _)]. done. }
  rewrite IH, !elem_of_union, !elem_of_singleton. split.
  - intros [[->|[->|?]]|(e' & ? & ?)].
    + right. exists e. split; [by left|by right].
    + right. exists e. split; [by left|by left].
    + by left.
    + right. exists e'. split; [by right|done].
  - intros [?|(e' & [->|?]%elem_of_cons & He')].
    + left. right. by right.
    + left. destruct He' as [<-|<-]; [right; by left|by left].
    + right. by exists e'.
Qed.

Lemma orphan_nodes_errors g :
  check_errors _check_orphan_nodes g = [] ↔
  ∀ n, n ∈ nodes g → touches_edge g (node_id n).
Proof.
  unfold _check_orphan_nodes.
  rewrite (check_errors_for_each_nil nodes); [|intros n; oblivious_auto].
  apply forall_proper. intros n. apply forall_proper. intros Hn.
  unfold check_errors, run_check.
  assert (∀ i, i ∈ foldl (λ acc edge,
                            {[target_id edge]} ∪ ({[source_id edge]} ∪ acc))
                         (∅ : gset string) (edges g) ↔ touches_edge g i) as Htouch.
  { intros i. rewrite nodes_with_edges_elem. unfold touches_edge.
    split; [|by right]. intros [[]%elem_of_empty|?]. done. }
  destruct (decide (node_id n ∉ _)) as [Hout|Hin%dec_stable];
    [|simpl; split; [intros _; by apply Htouch|done]].
  assert (¬ touches_edge g (node_id n)) as Hno by by rewrite <- Htouch.
  assert (get_outgoing_edges g (node_id n) = []) as Hog.
  { unfold get_outgoing_edges.
    destruct (filter _ (edges g)) as [|e l] eqn:Hf; [done|].
    assert (e ∈ filter (λ e, source_id e = node_id n) (edges g)) as He
      by (rewrite Hf; by left).
    apply list_elem_of_filter in He as [? ?]. destruct Hno. exists e. eauto. }
  assert (get_incoming_edges g (node_id n) = []) as Hic.
  { unfold get_incoming_edges.
    destruct (filter _ (edges g)) as [|e l] eqn:Hf; [done|].
    assert (e ∈ filter (λ e, target_id e = node_id n) (edges g)) as He
      by (rewrite Hf; by left).
    apply list_elem_of_filter in He as [? ?]. destruct Hno. exists e. eauto. }
  rewrite Hog, Hic. destruct (node_type n); simpl; split; done.
Qed.

Lemma connectivity_errors g : check_errors _check_connectivity g = [].
Proof.
  unfold check_errors, run_check, _check_connectivity, mbind, M_bind, read_graph.
  cbn [st_graph]. destruct (get_start_node g) as [start_node|]; [|done].
  destruct (check_connectivity_bfs_total g (node_id start_node)) as [v Hv].
  unfold lift_option. rewrite Hv.
  by destruct (filter _ (nodes g)).
Qed.

Lemma node_names_errors g : check_errors _check_node_names g = [].
Proof.
  unfold _check_node_names.
  apply (check_errors_for_each_nil nodes); [intros n; oblivious_auto|].
  intros n _. unfold check_errors, run_check.
  destruct (node_type n); try done;
    destruct (Py.strip_is_empty (node_name n)); try done;
    by destruct (Py.startswith "Task " (node_name n)
                 && Py.isdigit (Py.drop 5 (node_name n))).
Qed.

Lemma cycles_errors_acyclic g : acyclic g → check_errors _check_cycles g = [].
Proof.
  intros Hacyclic. unfold check_errors, run_check.
  by rewrite check_cycles_acyclic.
Qed.

(** On a graph that has nodes, the errors of [validate] are those of the
    checks, and the result is valid when there are none. *)
Lemma validate_errors g :
  nodes g ≠ [] →
  ∃ r, validate g = Some (r, g)
       ∧ errors r = concat ((λ check, check_errors check g) <$> checks)
       ∧ (valid r = true ↔ errors r = []).
Proof.
  intros Hnodes.
  destruct (run_sequence g checks (oblivious_checks g))
    as (rs & Hrs & Hvalid & Hrun).
  exists (with_reports new_result (concat (errors <$> rs))
                       (concat (warnings <$> rs))).
  split; [|split].
  - unfold validate.
    assert (run_checks (mkStore g new_result)
            = foldr (λ check k, check ≫= λ _, k) read_result checks
                    (mkStore g new_result)) as ->.
    { destruct g as [[|n ns] es md]; [done|]. reflexivity. }
    by rewrite Hrun.
  - change (concat (errors <$> rs)
            = concat ((λ check, check_errors check g) <$> checks)).
    f_equal. clear Hvalid Hrun. revert rs Hrs.
    generalize checks as cs.
    induction cs as [|c cs IH]; intros rs Hrs.
    + change (Some [] = Some rs) in Hrs. by injection Hrs as <-.
    + cbn [mapM] in Hrs.
      destruct (run_check c g) as [r|] eqn:Hc; [|done]. simpl in Hrs.
      destruct (mapM _ cs) as [rs'|] eqn:Hrs'; [|done].
      injection Hrs as <-. rewrite !fmap_cons. f_equal.
      * unfold check_errors. by rewrite Hc.
      * by apply IH.
  - simpl. by destruct (concat (errors <$> rs)).
Qed.

(** X10. On a graph without cycles [validate] returns, and its result
    is valid exactly when the structural conditions hold: there is one
    start node, or none but some node without incoming edge; there is
    an end node, or a node other than a start node without outgoing
    edge; every edge joins two nodes; every decision node has two
    outgoing edges or more; and every node is the source or the target
    of some edge.  Unreachable nodes and generic or empty names never
    make the result invalid. *)
Theorem validate_valid_iff_structurally_sound
    (g : TaskGraph) (Hacyclic : acyclic g) :
  ∃ r, validate g = Some (r, g) ∧ (valid r = true ↔ structurally_sound g).
Proof.
  destruct (decide (nodes g = [])) as [Hempty|Hnodes].
  { destruct g as [ns es md]. simpl in Hempty. subst ns.
    eexists. split; [reflexivity|]. simpl. split; [done|].
    intros ([[s Hs]|[_ (n & Hn & _)]] & _); [done|]. by apply elem_of_nil in Hn. }
  destruct (validate_errors g Hnodes) as (r & Hrun & Herrors & Hvalid).
  exists r. split; [done|]. rewrite Hvalid, Herrors, concat_nil_Forall.
  unfold checks, structurally_sound. rewrite !fmap_cons, !Forall_cons.
  rewrite start_nodes_errors, end_nodes_errors, edge_references_errors,
    decision_nodes_errors, orphan_nodes_errors.
  rewrite connectivity_errors, node_names_errors, cycles_errors_acyclic by done.
  rewrite fmap_nil. naive_solver.
Qed.

Lemma validate_valid_iff_structurally_sound_witness :
  ∃ r, validate chain_graph = Some (r, chain_graph)
       ∧ (valid r = true ↔ structurally_sound chain_graph).
Proof.
  apply (validate_valid_iff_structurally_sound chain_graph).
  apply chain_graph_acyclic.
Defined.
(** ** Reachability from the start node *)

Lemma bfs_push_elem (visited : gset string) (queue : list string)
    (succs : list TaskNode) (x : string) :
  x ∈ (foldl (λ q successor,
                if decide (node_id successor ∉ visited)
                then q ++ [node_id successor] else q) queue succs)
  ↔ x ∈ queue ∨ ((x ∉ visited) ∧ ∃ s, s ∈ succs ∧ node_id s = x).
Proof.
  revert queue. induction succs as [|s succs IH]; intros queue; simpl.
  - split; [by left|]. intros [?|(_ & s & Hs & _)]; [done|]. by apply elem_of_nil in Hs.
  - rewrite IH. case_decide as Hv.
    + rewrite elem_of_app, list_elem_of_singleton. split.
      * intros [[?| ->]|(? & s' & ? & ?)]; [by left| |].
        -- right. split; [done|]. exists s. split; [left|done].
        -- right. split; [done|]. exists s'. split; [by right|done].
      * intros [?|(? & s' & [->|?]%elem_of_cons & ?)].
        -- by left; left.
        -- subst x. by left; right.
        -- right. eauto.
    + split.
      * intros [?|(? & s' & ? & ?)]; [by left|]. right. split; [done|].
        exists s'. split; [by right|done].
      * intros [?|(Hx & s' & [->|?]%elem_of_cons & Hs')].
        -- by left.
        -- subst x. exfalso. tauto.
        -- right. eauto.
Qed.

Lemma edge_between_successor g u v :
  edge_between g u v ↔ u ∈ node_ids g ∧ ∃ s, s ∈ get_successors g u ∧ node_id s = v.
Proof.
  split.
  - intros (Hu & Hv & e & He & Hs & Ht). split; [done|].
    apply node_map_is_Some in Hv as [n Hn].
    pose proof (node_map_lookup_Some _ _ _ Hn) as [_ Hid].
    exists n. split; [|done]. apply get_successors_elem. rewrite Hid. eauto 10.
  - intros (Hu & s & (Hs & e & He & Hsrc & Htgt)%get_successors_elem & <-).
    split; [done|]. split; [|by eauto].
    apply node_map_is_Some. by eexists.
Qed.

Lemma bfs_reachable g (start : string) (fuel : nat) :
  start ∈ node_ids g →
  ∀ (visited : gset string) (queue : list string) (result : gset string),
    (∀ x, x ∈ visited ∨ x ∈ queue → rtc (edge_between g) start x) →
    start ∈ visited ∨ start ∈ queue →
    (∀ x y, x ∈ visited → edge_between g x y → y ∈ visited ∨ y ∈ queue) →
    bfs fuel g visited queue = Some result →
    ∀ x, x ∈ result ↔ rtc (edge_between g) start x.
Proof.
  intros Hstart. induction fuel as [|fuel IH];
    intros visited queue result Hreach Hin Hclosed Hrun x; [done|].
  destruct queue as [|current queue]; simpl in Hrun.
  - injection Hrun as <-. split; [by auto|].
    destruct Hin as [Hin|Hin]; [|by apply elem_of_nil in Hin].
    revert x. apply rtc_ind_r; [done|]. intros a b _ Hab Ha.
    destruct (Hclosed _ _ Ha Hab) as [?|Hq]; [done|]. by apply elem_of_nil in Hq.
  - case_decide as Hcur.
    + eapply IH; [| | |exact Hrun].
      * intros y [?|?]; apply Hreach; [by left|by right; right].
      * destruct Hin as [?|[->|?]%elem_of_cons]; [by left|by left|by right].
      * intros a b Ha Hab.
        destruct (Hclosed _ _ Ha Hab) as [?|[->|?]%elem_of_cons];
          [by left|by left|by right].
    + assert (Hnode : current ∈ node_ids g).
      { assert (Hc : rtc (edge_between g) start current) by (apply Hreach; right; left).
        apply rtc_inv_r in Hc as [<-|(a & _ & Hc)]; [done|].
        by destruct Hc as (_ & ? & _). }
      eapply IH; [| | |exact Hrun].
      * intros y [[->%elem_of_singleton|?]%elem_of_union|Hy].
        -- apply Hreach. right; left.
        -- apply Hreach. by left.
        -- apply bfs_push_elem in Hy as [?|(_ & s & Hs & <-)];
             [by apply Hreach; right; right|].
           eapply rtc_r; [apply Hreach; right; left|].
           apply edge_between_successor. eauto.
      * destruct Hin as [?|[->|?]%elem_of_cons].
        -- left. set_solver.
        -- left. set_solver.
        -- right. apply bfs_push_elem. by left.
      * intros a b [->%elem_of_singleton|Ha]%elem_of_union Hab.
        -- destruct (decide (b ∈ {[current]} ∪ visited)) as [?|Hb]; [by left|].
           right. apply bfs_push_elem. right. split; [done|].
           by apply edge_between_successor in Hab as [_ ?].
        -- destruct (Hclosed _ _ Ha Hab) as [?|[->|?]%elem_of_cons].
           ++ left. set_solver.
           ++ left. set_solver.
           ++ right. apply bfs_push_elem. by left.
Qed.

Lemma get_start_node_elem g start_node :
  get_start_node g = Some start_node →
  start_node ∈ nodes g ∧ node_type start_node = START.
Proof.
  unfold get_start_node. intros H. apply head_Some_elem_of in H.
  by apply list_elem_of_filter in H as [? ?].
Qed.

Lemma check_connectivity_visited g start_node :
  get_start_node g = Some start_node →
  ∃ visited, bfs (bfs_fuel g) g ∅ [node_id start_node] = Some visited ∧
             ∀ x, x ∈ visited ↔ rtc (edge_between g) (node_id start_node) x.
Proof.
  intros Hstart. apply get_start_node_elem in Hstart as [Hin _].
  destruct (check_connectivity_bfs_total g (node_id start_node)) as [visited Hv].
  exists visited. split; [done|].
  eapply bfs_reachable; [| | | |exact Hv].
  - apply node_ids_elem. eauto.
  - intros x [Hx| ->%list_elem_of_singleton]; [set_solver|done].
  - right. left.
  - set_solver.
Qed.

(** X11. [_check_connectivity] never reports an error. Without a start
    node it reports nothing; with one it reports nothing exactly when every
    node of the graph is reachable from the first start node along edges
    between nodes of the graph, and otherwise it reports the single warning
    UNREACHABLE_NODES, attached to no node. *)
Theorem check_connectivity_warns_iff_unreachable (g : TaskGraph) :
  ∃ r, run_check _check_connectivity g = Some r ∧
       errors r = [] ∧ valid r = true ∧
       match get_start_node g with
       | None => warnings r = []
       | Some start_node =>
           (warnings r = [] ↔
            ∀ n, n ∈ nodes g →
                 rtc (edge_between g) (node_id start_node) (node_id n)) ∧
           (warnings r ≠ [] →
            ∃ message,
              warnings r =
              [mkValidationError "UNREACHABLE_NODES" message None SevWarning])
       end.
Proof.
  unfold run_check, _check_connectivity, mbind, M_bind, read_graph.
  cbn [st_graph]. destruct (get_start_node g) as [start_node|] eqn:Hstart;
    [|by eexists].
  destruct (check_connectivity_visited _ _ Hstart) as (visited & Hv & Hreach).
  unfold lift_option. rewrite Hv.
  destruct (filter (λ n, node_id n ∉ visited) (nodes g)) as [|u us] eqn:Hun.
  - eexists. split; [done|]. split; [done|]. split; [done|]. split; [|done].
    split; [|done]. intros _ n Hn. apply Hreach.
    destruct (decide (node_id n ∈ visited)) as [?|Hnot]; [done|].
    assert (Hin : n ∈ filter (λ n, node_id n ∉ visited) (nodes g))
      by by apply list_elem_of_filter.
    rewrite Hun in Hin. by apply elem_of_nil in Hin.
  - eexists. split; [done|]. split; [done|]. split; [done|]. split.
    + split; [done|]. intros Hall. exfalso.
      assert (Hin : u ∈ filter (λ n, node_id n ∉ visited) (nodes g))
        by (rewrite Hun; left).
      apply list_elem_of_filter in Hin as [Hnot Hin].
      apply Hnot, Hreach, Hall, Hin.
    + intros _. by eexists.
Qed.


(** ** The depth-first search finds a cycle when there is one *)

Lemma black_sound_reach g (c : gmap string Color) x y :
  black_sound g c → rtc (edge_between g) x y →
  c !! x = Some BLACK → c !! y = Some BLACK.
Proof.
  intros [Hclosed _] Hxy. induction Hxy as [|x y z Hxy _ IH]; [done|].
  intros Hx. apply IH. by eapply Hclosed.
Qed.

Lemma black_sound_insert_gray g (c : gmap string Color) j :
  black_sound g c → c !! j = Some WHITE → black_sound g (<[j := GRAY]> c).
Proof.
  intros [Hclosed Hacyclic] Hj.
  assert (∀ x, <[j := GRAY]> c !! x = Some BLACK ↔ c !! x = Some BLACK) as Hblack.
  { intros x. destruct (decide (x = j)) as [->|Hne].
    - rewrite lookup_insert_eq, Hj. split; congruence.
    - by rewrite lookup_insert_ne. }
  split.
  - intros x y Hx Hxy. apply Hblack. eapply Hclosed; [by apply Hblack|done].
  - intros x Hx. by apply Hacyclic, Hblack.
Qed.

Lemma black_sound_insert_black g (c : gmap string Color) j :
  black_sound g c → c !! j = Some GRAY →
  (∀ y, edge_between g j y → c !! y = Some BLACK) →
  black_sound g (<[j := BLACK]> c).
Proof.
  intros Hsound Hj Hsuccs. pose proof Hsound as [Hclosed Hacyclic].
  assert (∀ x, c !! x = Some BLACK → <[j := BLACK]> c !! x = Some BLACK) as Hkeep.
  { intros x Hx. rewrite lookup_insert_ne; [done|]. intros ->. congruence. }
  split.
  - intros x y Hx Hxy. destruct (decide (x = j)) as [->|Hne].
    + by apply Hkeep, Hsuccs.
    + rewrite lookup_insert_ne in Hx by done.
      destruct (decide (y = j)) as [->|Hne']; [by rewrite lookup_insert_eq|].
      rewrite lookup_insert_ne by done. by eapply Hclosed.
  - intros x Hx. destruct (decide (x = j)) as [->|Hne].
    + intros Hcycle. apply tc_rtc in Hcycle as Hrtc.
      inversion Hcycle as [? ? Hjy|? y ? Hjy Hyj]; subst.
      * pose proof (Hsuccs _ Hjy). congruence.
      * pose proof (black_sound_reach g c y j Hsound (tc_rtc _ _ Hyj) (Hsuccs _ Hjy)).
        congruence.
    + rewrite lookup_insert_ne in Hx by done. by apply Hacyclic.
Qed.

Lemma reconstruct_cycle_nonempty fuel (p : gmap string (option string)) i s cycle :
  reconstruct_cycle fuel p i s = Some cycle → cycle ≠ [].
Proof.
  unfold reconstruct_cycle. destruct (walk_parents _ _ _ _ _) as [walk|]; [|done].
  simpl. intros [= <-]. rewrite reverse_app. done.
Qed.

Lemma dfs_successors_blackens g walk_fuel rec (i : string) :
  blackens g rec →
  ∀ (succs : list TaskNode) st r st',
    (∀ s, s ∈ succs → node_id s ∈ node_ids g) →
    colors st !! i = Some GRAY →
    black_sound g (colors st) →
    dfs_successors walk_fuel rec i st succs = Some (r, st') →
    r ≠ Some []
    ∧ (r = None →
       ∃ c, colors st' = <[i := BLACK]> c
            ∧ c !! i = Some GRAY
            ∧ black_sound g c
            ∧ (∀ s, s ∈ succs → c !! node_id s = Some BLACK)
            ∧ (∀ x, colors st !! x = Some BLACK → c !! x = Some BLACK)
            ∧ (∀ x, c !! x = Some GRAY ↔ colors st !! x = Some GRAY)).
Proof.
  intros Hrec. induction succs as [|s succs IH]; intros st r st' Hsuccs Hi Hsound.
  { simpl. intros [= <- <-]. split; [done|]. intros _. exists (colors st).
    split; [done|]. split; [done|]. split; [done|]. split; [|done].
    intros s Hs. by apply elem_of_nil in Hs. }
  assert (∀ s', s' ∈ succs → node_id s' ∈ node_ids g) as Hsuccs'
    by (intros ??; apply Hsuccs; by right).
  cbn [dfs_successors].
  destruct (colors st !! node_id s) as [[| |]|] eqn:Hc; cbn [mbind option_bind];
    [| | |done].
  - (* white *)
    destruct (rec _ (node_id s)) as [[found st2]|] eqn:Hcall; [|done].
    cbn [mbind option_bind].
    eapply Hrec in Hcall as [Hne Hquiet]; [|by apply Hsuccs; left|done|done].
    destruct found as [[|c0 cycle]|]; [done| |].
    + intros [= <- <-]. done.
    + destruct (Hquiet eq_refl) as (Hsound2 & Hs2 & Hblack2 & Hgray2).
      simpl in Hblack2, Hgray2.
      intros Hrun. eapply IH in Hrun as [Hr Hpost]; [|done| |done].
      * split; [done|]. intros Hnone.
        destruct (Hpost Hnone) as (c & Hc' & Hci & Hcs & Hcb & Hcm & Hcg).
        exists c. split; [done|]. split; [done|]. split; [done|]. split; [|split].
        -- intros s' [->|Hs']%elem_of_cons; [by apply Hcm|by apply Hcb].
        -- intros x Hx. by apply Hcm, Hblack2.
        -- intros x. by rewrite Hcg, Hgray2.
      * by apply Hgray2.
  - (* gray *)
    destruct (reconstruct_cycle _ _ _ _) as [cycle|] eqn:Hcyc; [|done]. simpl.
    intros [= <- <-]. split; [|done]. intros [= ->].
    by apply reconstruct_cycle_nonempty in Hcyc.
  - (* black *)
    intros Hrun. eapply IH in Hrun as [Hr Hpost]; [|done..].
    split; [done|]. intros Hnone.
    destruct (Hpost Hnone) as (c & Hc' & Hci & Hcs & Hcb & Hcm & Hcg).
    exists c. split; [done|]. split; [done|]. split; [done|]. split; [|done].
    intros s' [->|Hs']%elem_of_cons; [by apply Hcm|by apply Hcb].
Qed.

Lemma dfs_blackens g (fuel : nat) : blackens g (dfs fuel g).
Proof.
  induction fuel as [|fuel IH]; intros st j r st' Hj Hwhite Hsound; [done|].
  cbn [dfs]. intros Hrun.
  eapply dfs_successors_blackens in Hrun as [Hr Hpost]; [|done| | |].
  - split; [done|]. intros Hnone.
    destruct (Hpost Hnone) as (c & Hc' & Hci & Hcs & Hcb & Hcm & Hcg).
    simpl in Hcm, Hcg. rewrite Hc'. split; [|split; [|split]].
    + apply black_sound_insert_black; [done..|].
      intros y (_ & s & Hs & <-)%edge_between_successor. by apply Hcb.
    + by rewrite lookup_insert_eq.
    + intros x Hx. assert (x ≠ j) by (intros ->; congruence).
      rewrite lookup_insert_ne by done. apply Hcm. by rewrite lookup_insert_ne.
    + intros x. destruct (decide (x = j)) as [->|Hne].
      * rewrite lookup_insert_eq, Hwhite. split; congruence.
      * rewrite lookup_insert_ne, Hcg, lookup_insert_ne by done. done.
  - intros s [Hs _]%get_successors_elem. apply node_map_is_Some. eauto.
  - simpl. by rewrite lookup_insert_eq.
  - simpl. by apply black_sound_insert_gray.
Qed.

Lemma dfs_white_returns g st i :
  dfs_inv g st → colors st !! i = Some WHITE →
  ∃ r st', dfs (dfs_fuel g) g st i = Some (r, st') ∧ dfs_inv g st'.
Proof.
  intros Hinv Hc. pose proof Hinv as (Hdom & Hwhite & _).
  assert (i ∈ white_ids (colors st)) as Hnw by by apply elem_of_white_ids.
  destruct (dfs_total g (dfs_fuel g) st i) as (r & st' & Hrun & Hinv' & _ & _).
  - apply dfs_inv_gray; [done..|]. left. by apply Hwhite.
  - rewrite white_ids_insert by done. unfold dfs_fuel.
    pose proof (subset_size (white_ids (colors st) ∖ {[i]})
                  (white_ids (colors st)) ltac:(set_solver)).
    pose proof (subseteq_size _ _ (white_ids_dom (colors st))).
    pose proof (size_node_ids_le g). rewrite Hdom in *. lia.
  - eauto.
Qed.

Lemma reports_lift_bind {A B} (o : option A) (a : A) (f : A → M B) g b es ws :
  o = Some a → reports (f a) g b es ws → reports (lift_option o ≫= f) g b es ws.
Proof. intros -> Hf r. apply Hf. Qed.

Lemma cycle_reports_app es ws es' ws' :
  cycle_reports es ws → cycle_reports es' ws' →
  cycle_reports (es ++ es') (ws ++ ws').
Proof. intros [? ?] [? ?]. split; by apply Forall_app. Qed.

Lemma report_cycle_reports g0 cycle g :
  ∃ es ws, reports (report_cycle g0 cycle) g () es ws
           ∧ (es ≠ [] ∨ ws ≠ []) ∧ cycle_reports es ws.
Proof.
  unfold report_cycle. destruct (cycle_has_decision g0 cycle).
  - eexists [], [_]. split; [|split; [by right|]].
    + intros r. unfold result_add_warning, add_warning, with_reports. simpl.
      by rewrite andb_true_r, app_nil_r.
    + split; [done|]. by apply Forall_singleton.
  - eexists [_], []. split; [|split; [by left|]].
    + intros r. unfold result_add_error, add_error, with_reports. simpl.
      by rewrite andb_false_r, app_nil_r.
    + split; [|done]. by apply Forall_singleton.
Qed.

Lemma check_cycles_loop_reports g (ns : list TaskNode) :
  ∀ st,
    (∀ n, n ∈ ns → node_id n ∈ node_ids g) → dfs_inv g st →
    ∃ es ws, reports (check_cycles_loop g st ns) g () es ws ∧ cycle_reports es ws.
Proof.
  induction ns as [|n ns IH]; intros st Hns Hinv.
  { exists [], []. split; [apply reports_ret|by split]. }
  pose proof Hinv as (Hdom & _).
  assert (node_id n ∈ node_ids g) as Hn by (apply Hns; by left).
  assert (node_id n ∈ dom (colors st)) as [c Hc]%elem_of_dom by by rewrite Hdom.
  assert (∀ n', n' ∈ ns → node_id n' ∈ node_ids g) as Hns'
    by (intros ??; apply Hns; by right).
  cbn [check_cycles_loop].
  destruct (decide (c = WHITE)) as [->|Hw].
  - destruct (dfs_white_returns g st (node_id n) Hinv Hc)
      as (found & st' & Hrun & Hinv').
    destruct (IH st' Hns' Hinv') as (es2 & ws2 & Hrest & Hcodes2).
    assert (∃ es1 ws1,
              reports (match found with
                       | Some (c0 :: cycle) => report_cycle g (c0 :: cycle)
                       | _ => mret ()
                       end) g () es1 ws1 ∧ cycle_reports es1 ws1)
      as (es1 & ws1 & Hrep & Hcodes1).
    { destruct found as [[|c0 cycle]|].
      - exists [], []. split; [apply reports_ret|by split].
      - destruct (report_cycle_reports g (c0 :: cycle) g) as (es1 & ws1 & ? & _ & ?).
        eauto.
      - exists [], []. split; [apply reports_ret|by split]. }
    exists (es1 ++ es2), (ws1 ++ ws2). split; [|by apply cycle_reports_app].
    apply reports_lift_bind with WHITE; [done|]. rewrite decide_True by done.
    apply reports_lift_bind with (found, st'); [done|].
    by eapply reports_bind.
  - destruct (IH st Hns' Hinv) as (es & ws & Hrest & Hcodes).
    exists es, ws. split; [|done].
    apply reports_lift_bind with c; [done|]. by rewrite decide_False.
Qed.

Lemma check_cycles_loop_complete g (ns : list TaskNode) :
  ∀ st,
    (∀ n, n ∈ ns → node_id n ∈ node_ids g) → dfs_inv g st →
    black_sound g (colors st) → (∀ x, colors st !! x ≠ Some GRAY) →
    ∃ es ws,
      reports (check_cycles_loop g st ns) g () es ws
      ∧ cycle_reports es ws
      ∧ ((es ≠ [] ∨ ws ≠ [])
         ∨ ∃ c, black_sound g c
                ∧ (∀ x, colors st !! x = Some BLACK → c !! x = Some BLACK)
                ∧ ∀ n, n ∈ ns → c !! node_id n = Some BLACK).
Proof.
  induction ns as [|n ns IH]; intros st Hns Hinv Hsound Hnogray.
  { exists [], []. split; [apply reports_ret|]. split; [by split|].
    right. exists (colors st). split; [done|]. split; [done|].
    intros n Hn. by apply elem_of_nil in Hn. }
  pose proof Hinv as (Hdom & _).
  assert (node_id n ∈ node_ids g) as Hn by (apply Hns; by left).
  assert (node_id n ∈ dom (colors st)) as [c Hc]%elem_of_dom by by rewrite Hdom.
  assert (∀ n', n' ∈ ns → node_id n' ∈ node_ids g) as Hns'
    by (intros ??; apply Hns; by right).
  cbn [check_cycles_loop].
  destruct (decide (c = WHITE)) as [->|Hw].
  - destruct (dfs_white_returns g st (node_id n) Hinv Hc)
      as (found & st' & Hrun & Hinv').
    destruct (dfs_blackens g _ _ _ _ _ Hn Hc Hsound Hrun) as [Hne Hquiet].
    destruct found as [[|c0 cycle]|]; [done| |].
    + destruct (report_cycle_reports g (c0 :: cycle) g)
        as (es1 & ws1 & Hrep & Hsome & Hcodes1).
      destruct (check_cycles_loop_reports g ns st' Hns' Hinv')
        as (es2 & ws2 & Hrest & Hcodes2).
      exists (es1 ++ es2), (ws1 ++ ws2). split; [|split].
      * apply reports_lift_bind with WHITE; [done|]. rewrite decide_True by done.
        apply reports_lift_bind with (Some (c0 :: cycle), st'); [done|].
        by eapply reports_bind.
      * by apply cycle_reports_app.
      * left. destruct Hsome as [?|?]; [left|right]; by intros [? _]%app_eq_nil.
    + destruct (Hquiet eq_refl) as (Hsound' & Hblack & Hmono & Hgray).
      destruct (IH st' Hns' Hinv' Hsound') as (es & ws & Hrest & Hcodes & Hcases).
      { intros x Hx%Hgray. by eapply Hnogray. }
      exists es, ws. split; [|split; [done|]].
      * apply reports_lift_bind with WHITE; [done|]. rewrite decide_True by done.
        apply reports_lift_bind with (None, st'); [done|].
        apply (reports_bind _ _ _ () () [] [] es ws); [apply reports_ret|done].
      * destruct Hcases as [?|(c & Hc1 & Hc2 & Hc3)]; [by left|right].
        exists c. split; [done|]. split; [by auto|].
        intros n' [->|?]%elem_of_cons; [by apply Hc2|by apply Hc3].
  - assert (c = BLACK) as ->
      by (destruct c; [done|by destruct (Hnogray _ Hc)|done]).
    destruct (IH st Hns' Hinv Hsound Hnogray) as (es & ws & Hrest & Hcodes & Hcases).
    exists es, ws. split; [|split; [done|]].
    + apply reports_lift_bind with BLACK; [done|]. by rewrite decide_False.
    + destruct Hcases as [?|(c & Hc1 & Hc2 & Hc3)]; [by left|right].
      exists c. split; [done|]. split; [done|].
      intros n' [->|?]%elem_of_cons; [by apply Hc2|by apply Hc3].
Qed.

Lemma initial_colors_white g x c :
  colors (initial_dfs_state g) !! x = Some c → c = WHITE.
Proof.
  unfold initial_dfs_state. simpl.
  intros [?|Hx]%foldl_insert_const_lookup; [done|]. by rewrite lookup_empty in Hx.
Qed.

Lemma check_cycles_complete g :
  ∃ es ws,
    reports _check_cycles g () es ws
    ∧ cycle_reports es ws
    ∧ ((es ≠ [] ∨ ws ≠ []) ∨ acyclic g).
Proof.
  destruct (check_cycles_loop_complete g (nodes g) (initial_dfs_state g))
    as (es & ws & Hrun & Hcodes & Hcases).
  - intros n Hn. apply node_ids_elem. eauto.
  - apply dfs_inv_initial.
  - split; intros x; [intros y|]; by intros ?%initial_colors_white.
  - by intros x ?%initial_colors_white.
  - exists es, ws. split; [|split; [done|]].
    + intros r. unfold _check_cycles, mbind, M_bind, read_graph. simpl. apply Hrun.
    + destruct Hcases as [?|(c & [_ Hacyclic] & _ & Hblack)]; [by left|right].
      intros [v Hv]. assert (v ∈ node_ids g) as (n & Hn & <-)%node_ids_elem.
      { apply tc_rtc in Hv as Hrtc. inversion Hv as [? ? (? & _)|? ? ? (? & _)]; done. }
      by eapply Hacyclic; [apply Hblack|].
Qed.

(** X12. [_check_cycles] returns on every graph. It reports nothing
    exactly when the graph has no cycle among its nodes, and reports at
    least one cycle when there is one. Its errors are all INVALID_CYCLE and
    its warnings all DECISION_LOOP, attached to no node. *)
Theorem check_cycles_reports_iff_cyclic (g : TaskGraph) :
  ∃ r, run_check _check_cycles g = Some r
       ∧ (acyclic g ↔ errors r = [] ∧ warnings r = [])
       ∧ (has_cycle g → errors r ≠ [] ∨ warnings r ≠ [])
       ∧ cycle_reports (errors r) (warnings r).
Proof.
  destruct (check_cycles_complete g) as (es & ws & Hrun & Hcodes & Hcases).
  exists (with_reports new_result es ws).
  split; [by apply reports_run_check with ()|]. simpl.
  split; [|split; [|done]].
  - split.
    + intros Hacyclic. pose proof (check_cycles_acyclic g Hacyclic new_result) as Hrun'.
      rewrite Hrun in Hrun'. by injection Hrun' as _ -> ->.
    + intros [-> ->]. by destruct Hcases as [[?|?]|?].
  - intros Hcycle. by destruct Hcases as [?|?].
Qed.


(** ** The plan follows the edges of an acyclic graph *)

Lemma parallel_groups_by_level_lookup g levels :
  acyclic g → node_levels g = Some levels →
  ∃ groups,
    get_parallel_groups g = Some groups
    ∧ ∀ k group, groups !! k = Some group ↔
        group = nodes_of_level levels (nodes g) k ∧ group ≠ [].
Proof.
  intros Hacyclic Hlevels.
  pose proof (node_levels_equations g Hacyclic levels Hlevels) as Hlv.
  set (keys := sorted_keys (group_by_level levels (nodes g))).
  destruct (sorted_keys_sorted (group_by_level levels (nodes g))) as [Hs Hnd].
  exists (nodes_of_level levels (nodes g) <$> keys).
  split; [by apply get_parallel_groups_by_level|].
  intros k group. rewrite list_lookup_fmap. split.
  - intros Hk. destruct (keys !! k) as [x|] eqn:Hx; [|done].
    injection Hk as <-.
    assert (x ∈ keys) as Hin by by eapply list_elem_of_lookup_2.
    pose proof (sorted_keys_contiguous g levels Hlv x Hin) as Hself.
    assert (k = x) as -> by by eapply NoDup_lookup.
    split; [done|]. apply nonempty_is_Some.
    rewrite <- group_by_level_lookup. by apply sorted_keys_elem.
  - intros [-> Hne].
    assert (k ∈ keys) as Hin.
    { apply sorted_keys_elem. rewrite group_by_level_lookup.
      by apply nonempty_is_Some. }
    unfold keys. by rewrite (sorted_keys_contiguous g levels Hlv k Hin).
Qed.

Lemma foldl_phase_map_lookup_old (num : nat) (ns : list TaskNode) k :
  ∀ (m : gmap string nat), k ∉ node_id <$> ns →
    foldl (λ m node, <[node_id node := num]> m) m ns !! k = m !! k.
Proof.
  induction ns as [|n ns IH]; intros m Hk; [done|].
  simpl. apply not_elem_of_cons in Hk as [Hne Hk].
  rewrite IH by done. by rewrite lookup_insert_ne.
Qed.

Lemma waits_for_app phases p u v :
  waits_for phases u v → waits_for (phases ++ [p]) u v.
Proof.
  intros (i & j & p1 & q & ds & Hi & Hj & ? & ?).
  exists i, j, p1, q, ds.
  split; [by apply lookup_app_l_Some|]. split; [by apply lookup_app_l_Some|]. done.
Qed.

Lemma is_parallel_safe_level g levels k (ns : list TaskNode) :
  level_equations g (level_at levels) →
  (∀ n, n ∈ ns → n ∈ nodes g ∧ level_of levels n = k) →
  _is_parallel_safe ns g = true.
Proof.
  intros Hlv Hns. unfold _is_parallel_safe.
  apply forallb_forall. intros node Hnode%list_elem_of_In.
  apply forallb_forall. intros pred Hpred%list_elem_of_In.
  apply bool_decide_eq_true.
  intros (m & Hid & Hm)%elem_of_list_to_set%list_elem_of_fmap.
  destruct (Hns _ Hnode) as [Hin Hk]. destruct (Hns _ Hm) as [_ Hk'].
  assert (edge_between g (node_id pred) (node_id node)) as Hedge.
  { apply predecessor_edge; [|done]. apply node_ids_elem. eauto. }
  apply (edge_level_lt g _ Hlv) in Hedge.
  unfold level_of, level_at in *. rewrite Hid in Hedge. lia.
Qed.

Lemma generate_phase_plan_inv g levels k st :
  level_equations g (level_at levels) →
  plan_inv g levels k st →
  plan_inv g levels (S k) (generate_phase g st (nodes_of_level levels (nodes g) k)).
Proof.
  intros Hlv (Hinv & Hmap & Hwaits & Hpar).
  pose proof (generate_phase_inv g st (nodes_of_level levels (nodes g) k) Hinv)
    as Hinv'.
  pose proof Hinv as (Hcount & Hnum & Hrange & _).
  assert (∀ n, n ∈ filter is_process_node (nodes_of_level levels (nodes g) k) ↔
               n ∈ nodes g ∧ is_process_node n ∧ level_of levels n = k) as Hgroup.
  { intros n. unfold nodes_of_level. rewrite !list_elem_of_filter. naive_solver. }
  unfold generate_phase in *.
  destruct (filter is_process_node (nodes_of_level levels (nodes g) k))
    as [|n0 ns0] eqn:Hproc.
  { assert (∀ n, n ∈ nodes g → is_process_node n → level_of levels n < S k →
                 level_of levels n < k) as Hlt.
    { intros n Hn Hp Hl. destruct (decide (level_of levels n = k)) as [Hk|]; [|lia].
      assert (n ∈ []) as Hnil by by apply Hgroup. by apply elem_of_nil in Hnil. }
    split; [done|]. split; [by auto|]. split; [|done].
    intros v u ? ? ?. apply Hwaits; auto. }
  set (ns := n0 :: ns0) in *.
  set (num := _phase_counter st + 1) in *.
  set (phase_map := foldl (λ m node, <[node_id node := num]> m)
                          (gen_phase_map st) ns) in *.
  set (new_phase := mkPhase num _ _ _ _ _ _) in *.
  assert (∀ n, n ∈ nodes g → is_process_node n → level_of levels n < k →
               ∃ ph p, phase_map !! node_id n = Some ph
                       ∧ gen_phases st !! (ph - 1) = Some p
                       ∧ _node_to_subtask n ∈ subtasks p) as Hold.
  { intros n Hn Hp Hl. destruct (Hmap n Hn Hp Hl) as (ph & p & Hph & ? & ?).
    exists ph, p. split; [|done]. unfold phase_map.
    rewrite foldl_phase_map_lookup_old; [done|].
    intros (m & Hid & Hm)%list_elem_of_fmap.
    apply Hgroup in Hm as (_ & _ & Hk). unfold level_of in *.
    rewrite Hid in Hl. lia. }
  assert ((gen_phases st ++ [new_phase]) !! length (gen_phases st) = Some new_phase)
    as Hnew.
  { rewrite lookup_app_r by done. by rewrite Nat.sub_diag. }
  split; [done|]. simpl. split; [|split].
  - intros n Hn Hp Hl. destruct (decide (level_of levels n = k)) as [Hk|Hk].
    + exists num, new_phase. split; [|split].
      * apply foldl_phase_map_lookup_new. by apply Hgroup.
      * unfold num. by replace (_phase_counter st + 1 - 1)
          with (length (gen_phases st)) by lia.
      * change (_node_to_subtask n ∈ _node_to_subtask <$> ns).
        apply list_elem_of_fmap_2. by apply Hgroup.
    + destruct (Hold n Hn Hp ltac:(lia)) as (ph & p & ? & ? & ?).
      exists ph, p. split; [done|]. split; [by apply lookup_app_l_Some|done].
  - intros v u Hv Hpv Hl Hu Hpu.
    destruct (decide (level_of levels v = k)) as [Hk|Hk];
      [|apply waits_for_app, Hwaits; auto; lia].
    assert (u ∈ nodes g) as Hun.
    { apply get_predecessors_elem in Hu as [Hu _].
      by apply node_map_lookup_Some in Hu as [? _]. }
    assert (level_of levels u < k) as Hlu.
    { assert (edge_between g (node_id u) (node_id v)) as Hedge.
      { apply predecessor_edge; [|done]. apply node_ids_elem. eauto. }
      apply (edge_level_lt g _ Hlv) in Hedge. unfold level_of, level_at in *. lia. }
    destruct (Hold u Hun Hpu Hlu) as (ph & p & Hph & Hp & Hsub).
    assert (gen_phase_map st !! node_id u = Some ph) as Hph0.
    { destruct (Hmap u Hun Hpu Hlu) as (ph' & p' & Hph' & _).
      unfold phase_map in Hph. rewrite foldl_phase_map_lookup_old in Hph; [done|].
      intros (m & Hid & Hm)%list_elem_of_fmap.
      apply Hgroup in Hm as (_ & _ & Hkm). unfold level_of in *.
      rewrite Hid in Hlu. lia. }
    pose proof (Hrange _ _ Hph0) as Hphr.
    pose proof (lookup_lt_Some _ _ _ Hp) as Hplt.
    destruct (get_phase_dependencies_spec ns g phase_map) as [_ Hmem].
    assert (ph ∈ _get_phase_dependencies ns g phase_map) as Hin.
    { apply Hmem. exists v, u. split; [by apply Hgroup|]. split; [done|].
      split; [by destruct Hpu|]. split; [done|].
      unfold phase_map at 1.
      rewrite (foldl_phase_map_lookup_new num ns v) by by apply Hgroup.
      intros [= ->]. unfold num in Hphr. lia. }
    exists (ph - 1), (length (gen_phases st)), p, new_phase,
           (_get_phase_dependencies ns g phase_map).
    split; [by apply lookup_app_l_Some|]. split; [done|]. split; [lia|].
    split; [done|]. split.
    { change (_node_to_subtask v ∈ _node_to_subtask <$> ns).
      apply list_elem_of_fmap_2. by apply Hgroup. }
    split.
    + simpl. destruct (_get_phase_dependencies ns g phase_map);
        [by apply elem_of_nil in Hin|done].
    + rewrite (Hnum _ _ Hp). by replace (S (ph - 1)) with ph by lia.
  - intros p [Hp|Hp]%elem_of_app; [by apply Hpar|].
    apply list_elem_of_singleton in Hp as ->.
    unfold parallel_iff_several. simpl. rewrite length_fmap.
    rewrite (is_parallel_safe_level g levels k ns Hlv), andb_true_r; [done|].
    intros n Hn. apply Hgroup in Hn. naive_solver.
Qed.

Lemma generate_phases_plan_inv g levels (groups : list (list TaskNode)) :
  level_equations g (level_at levels) →
  (∀ k group, groups !! k = Some group →
              group = nodes_of_level levels (nodes g) k) →
  ∀ k, k ≤ length groups →
       plan_inv g levels k
                (foldl (generate_phase g) (mkGenState 0 ∅ []) (take k groups)).
Proof.
  intros Hlv Hgroups. induction k as [|k IH]; intros Hk.
  { rewrite take_0. simpl. split; [apply gen_inv_initial|].
    split; [intros; lia|]. split; [intros; lia|]. by intros p ?%elem_of_nil. }
  destruct (lookup_lt_is_Some_2 groups k ltac:(lia)) as [group Hgroup].
  rewrite (take_S_r _ _ _ Hgroup), foldl_app. simpl.
  rewrite (Hgroups _ _ Hgroup). apply generate_phase_plan_inv; [done|].
  apply IH. lia.
Qed.

(** On an acyclic graph the plan follows the edges, and the phases of
    several subtasks are the parallel ones. *)
Lemma generate_acyclic g feature_name wt now1 now2 :
  acyclic g →
  ∃ plan,
    generate g feature_name wt now1 now2 = Some plan
    ∧ (∀ v u, v ∈ nodes g → is_process_node v →
         u ∈ get_predecessors g (node_id v) → is_process_node u →
         waits_for (phases plan) u v)
    ∧ (∀ p, p ∈ phases plan → parallel_iff_several p).
Proof.
  intros Hacyclic.
  destruct (node_levels_total g) as [levels Hlevels].
  pose proof (node_levels_equations g Hacyclic levels Hlevels) as Hlv.
  destruct (parallel_groups_by_level_lookup g levels Hacyclic Hlevels)
    as (groups & Hgroups & Hlookup).
  destruct (generate_phases_plan_inv g levels groups Hlv) with (k := length groups)
    as (_ & _ & Hwaits & Hpar).
  { intros k group Hk. by apply Hlookup in Hk as [-> _]. }
  { done. }
  rewrite firstn_all in Hwaits, Hpar.
  unfold generate. rewrite Hgroups. cbn [mbind option_bind].
  eexists. split; [done|]. simpl. split; [|done].
  intros v u Hv Hpv Hu Hpu. apply Hwaits; [done..| |done|done].
  eapply lookup_lt_Some. apply Hlookup. split; [done|].
  intros Hnil.
  assert (v ∈ nodes_of_level levels (nodes g) (level_of levels v)) as Hin
    by by apply list_elem_of_filter.
  rewrite Hnil in Hin. by apply elem_of_nil in Hin.
Qed.

Lemma diamond_graph_acyclic : acyclic diamond_graph.
Proof.
  apply (ranked_graph_acyclic _ chain_rank).
  intros u v (_ & _ & e & He & <- & <-). simpl in He.
  edge_cases He; vm_compute; lia.
Qed.

(** X13. On a graph without cycles, whenever a task node has a
    predecessor that is a task node too (neither start nor end), the plan
    of [generate] puts the subtask of the predecessor in an earlier phase,
    and the phase of the task lists that phase in [depends_on]. *)
Theorem generate_orders_dependent_tasks
    (g : TaskGraph) (feature_name : option string) (wt now1 now2 : string)
    (Hacyclic : acyclic g) :
  ∃ plan,
    generate g feature_name wt now1 now2 = Some plan
    ∧ ∀ v u, v ∈ nodes g → is_process_node v →
        u ∈ get_predecessors g (node_id v) → is_process_node u →
        ∃ i j p q ds,
          phases plan !! i = Some p ∧ phases plan !! j = Some q ∧ i < j
          ∧ _node_to_subtask u ∈ subtasks p ∧ _node_to_subtask v ∈ subtasks q
          ∧ depends_on q = Some ds ∧ phase p ∈ ds.
Proof.
  destruct (generate_acyclic g feature_name wt now1 now2 Hacyclic)
    as (plan & Hplan & Hwaits & _).
  exists plan. split; [done|]. intros v u Hv Hpv Hu Hpu.
  by apply Hwaits.
Qed.

Lemma generate_orders_dependent_tasks_witness :
  ∃ plan,
    generate chain_graph None "feature" "t1" "t2" = Some plan
    ∧ ∀ v u, v ∈ nodes chain_graph → is_process_node v →
        u ∈ get_predecessors chain_graph (node_id v) → is_process_node u →
        ∃ i j p q ds,
          phases plan !! i = Some p ∧ phases plan !! j = Some q ∧ i < j
          ∧ _node_to_subtask u ∈ subtasks p ∧ _node_to_subtask v ∈ subtasks q
          ∧ depends_on q = Some ds ∧ phase p ∈ ds.
Proof.
  apply (generate_orders_dependent_tasks chain_graph None "feature" "t1" "t2").
  apply chain_graph_acyclic.
Defined.

(** X14. On a graph without cycles, the plan of [generate] marks a
    phase [parallel_safe] exactly when it holds more than one subtask: the
    key is true on those phases and absent on the others. *)
Theorem generate_parallel_safe_iff_several
    (g : TaskGraph) (feature_name : option string) (wt now1 now2 : string)
    (Hacyclic : acyclic g) :
  ∃ plan,
    generate g feature_name wt now1 now2 = Some plan
    ∧ ∀ p, p ∈ phases plan →
        parallel_safe p
        = if bool_decide (1 < length (subtasks p)) then Some true else None.
Proof.
  destruct (generate_acyclic g feature_name wt now1 now2 Hacyclic)
    as (plan & Hplan & _ & Hpar).
  exists plan. split; [done|]. exact Hpar.
Qed.

Lemma generate_parallel_safe_iff_several_witness :
  ∃ plan,
    generate diamond_graph None "feature" "t1" "t2" = Some plan
    ∧ ∀ p, p ∈ phases plan →
        parallel_safe p
        = if bool_decide (1 < length (subtasks p)) then Some true else None.
Proof.
  apply (generate_parallel_safe_iff_several diamond_graph None "feature" "t1" "t2").
  apply diamond_graph_acyclic.
Defined.


(** ** Dictionaries *)

Lemma NodeType_of_value_value t : NodeType_of_value (NodeType_value t) = Returns t.
Proof. by destruct t. Qed.


Lemma TaskNode_round_trip n : TaskNode_from_dict (TaskNode_to_dict n) = Returns n.
Proof.
  destruct n. unfold TaskNode_from_dict, TaskNode_to_dict. simpl.
  by rewrite NodeType_of_value_value.
Qed.

Lemma TaskEdge_round_trip e : TaskEdge_from_dict (TaskEdge_to_dict e) = Returns e.
Proof. by destruct e. Qed.

Lemma mapM_round_trip {A B} (to : A → B) (from : B → Raises A) (l : list A) :
  (∀ x, from (to x) = Returns x) → mapM from (to <$> l) = Returns l.
Proof.
  intros Hrt. induction l as [|x l IH]; [done|].
  rewrite fmap_cons. cbn [mapM]. rewrite Hrt. cbn [mbind Raises_bind].
  by rewrite IH.
Qed.







(** X15. [from_dict] undoes [to_dict]: for a node and for an edge it
    returns the object that was written, and for a graph the graph with
    the same nodes, edges and metadata and with the index [_node_map]
    rebuilt from its nodes. *)
Theorem from_dict_inverts_to_dict :
  (∀ n, TaskNode_from_dict (TaskNode_to_dict n) = Returns n)
  ∧ (∀ e, TaskEdge_from_dict (TaskEdge_to_dict e) = Returns e)
  ∧ (∀ g, TaskGraph_from_dict (TaskGraph_to_dict g)
          = Returns (mkTaskGraphObj g (node_map g))).
Proof.
  split; [apply TaskNode_round_trip|]. split; [apply TaskEdge_round_trip|].
  intros [ns es md]. unfold TaskGraph_from_dict, TaskGraph_to_dict. simpl.
  rewrite (mapM_round_trip _ _ ns TaskNode_round_trip). cbn [mbind Raises_bind].
  rewrite (mapM_round_trip _ _ es TaskEdge_round_trip). done.
Qed.



(** ** [topological_sort] returns on every graph *)






